(** * Xibalba orchestrator: job store, claim engine, lifecycle, hybrid queue

    A shallow embedding of
      - [src/orchestrator/api/main.py]      (module [Api]),
      - [src/local-agent/agent.py]          (module [Agent]),
      - [src/orchestrator/worker/worker.py] (module [Worker]),
    with the Python library functions they call (modules [Py], [Text],
    [Shlex], [Json], [Files]), followed by the properties of the
    specification stated over it. *)

From Stdlib Require Import String Ascii List ZArith NArith Bool Arith Lia.
From Stdlib Require Import Permutation DecimalString.
From Stdlib Require QArith.
Import ListNotations.

Local Open Scope string_scope.
Local Open Scope list_scope.

(* ================================================================== *)
(** * Python values used by the sources *)
(* ================================================================== *)

Module Py.

(** Truth value of a [str]: only the empty string is false. *)
Definition truthy (s : string) : bool := negb (s =? "").

(** Truth value of an [Optional[str]]: [None] and [""] are false. *)
Definition truthy_opt (o : option string) : bool :=
  match o with
  | Some s => truthy s
  | None => false
  end.

(** [o or d] for an [Optional[str]]. *)
Definition or_else (o : option string) (d : string) : string :=
  match o with
  | Some s => if truthy s then s else d
  | None => d
  end.

(** [l[start:]]: a negative [start] counts from the end, and both ends
    are clamped to the list. *)
Definition slice_from {A : Type} (start : Z) (l : list A) : list A :=
  let len := Z.of_nat (length l) in
  let lo := if (start <? 0)%Z then Z.max 0 (len + start) else Z.min start len in
  skipn (Z.to_nat lo) l.

(** [str(n)] for an [int]. *)
Definition str_of_int (n : Z) : string := NilZero.string_of_int (Z.to_int n).

(** [str(b)] for a [bool]. *)
Definition str_of_bool (b : bool) : string := if b then "True" else "False".

(** Insertion of [x] in front of the first element whose key is not
    smaller: the step of a stable sort. *)
Fixpoint insert_by {A : Type} (key : A -> string) (x : A) (l : list A) : list A :=
  match l with
  | [] => [x]
  | y :: ys => if (key x <=? key y) then x :: y :: ys else y :: insert_by key x ys
  end.

(** [l.sort(key=key)]: Python's sort is stable, and [str] keys compare
    by code point, lexicographically. *)
Fixpoint sort_by {A : Type} (key : A -> string) (l : list A) : list A :=
  match l with
  | [] => []
  | x :: xs => insert_by key x (sort_by key xs)
  end.


(** [list(range(0, stop, step))] for a positive [step]. *)
Definition range_step (stop step : nat) : list nat :=
  map (fun k => k * step)%nat (seq 0 ((stop + step - 1) / step)).

End Py.

(* ================================================================== *)
(** * The control plane: [orchestrator/api/main.py] *)
(* ================================================================== *)

Module Api.

Inductive JobState : Type :=
| PENDING | CLAIMED | RUNNING | SUCCESS | FAILED | CANCELED.

Definition JobState_eqb (a b : JobState) : bool :=
  match a, b with
  | PENDING, PENDING | CLAIMED, CLAIMED | RUNNING, RUNNING
  | SUCCESS, SUCCESS | FAILED, FAILED | CANCELED, CANCELED => true
  | _, _ => false
  end.

(** [state in (SUCCESS, FAILED, CANCELED)]. *)
Definition is_terminal (s : JobState) : bool :=
  match s with
  | SUCCESS | FAILED | CANCELED => true
  | _ => false
  end.

(** A JSON object passed through untouched ([env], [resource_limits],
    the free-form completion payload). *)
Definition Dict : Type := list (string * string).

(** The dictionary stored in a job's ["result"] entry. *)
Record JobResult : Type := mkResult {
  exit_code : Z;
  message : string;
  payload : option Dict
}.

(** The dictionary stored in [_JOBS] for one job. *)
Record Job : Type := mkJob {
  job_id : string;
  created_at : string;
  state : JobState;
  repo : string;
  ref : string;
  runtime : string;
  command : list string;
  env : Dict;
  timeout_seconds : Z;
  resource_limits : list (string * Z);
  logs : list string;
  result : option JobResult;
  worker_id : option string;
  claimed_at : option string;
  started_at : option string;
  finished_at : option string
}.

Definition set_state (v : JobState) (j : Job) : Job :=
  mkJob (job_id j) (created_at j) v (repo j) (ref j) (runtime j) (command j)
        (env j) (timeout_seconds j) (resource_limits j) (logs j) (result j)
        (worker_id j) (claimed_at j) (started_at j) (finished_at j).

Definition set_logs (v : list string) (j : Job) : Job :=
  mkJob (job_id j) (created_at j) (state j) (repo j) (ref j) (runtime j) (command j)
        (env j) (timeout_seconds j) (resource_limits j) v (result j)
        (worker_id j) (claimed_at j) (started_at j) (finished_at j).

Definition set_result (v : option JobResult) (j : Job) : Job :=
  mkJob (job_id j) (created_at j) (state j) (repo j) (ref j) (runtime j) (command j)
        (env j) (timeout_seconds j) (resource_limits j) (logs j) v
        (worker_id j) (claimed_at j) (started_at j) (finished_at j).

Definition set_worker_id (v : option string) (j : Job) : Job :=
  mkJob (job_id j) (created_at j) (state j) (repo j) (ref j) (runtime j) (command j)
        (env j) (timeout_seconds j) (resource_limits j) (logs j) (result j)
        v (claimed_at j) (started_at j) (finished_at j).

Definition set_claimed_at (v : option string) (j : Job) : Job :=
  mkJob (job_id j) (created_at j) (state j) (repo j) (ref j) (runtime j) (command j)
        (env j) (timeout_seconds j) (resource_limits j) (logs j) (result j)
        (worker_id j) v (started_at j) (finished_at j).

Definition set_started_at (v : option string) (j : Job) : Job :=
  mkJob (job_id j) (created_at j) (state j) (repo j) (ref j) (runtime j) (command j)
        (env j) (timeout_seconds j) (resource_limits j) (logs j) (result j)
        (worker_id j) (claimed_at j) v (finished_at j).

Definition set_finished_at (v : option string) (j : Job) : Job :=
  mkJob (job_id j) (created_at j) (state j) (repo j) (ref j) (runtime j) (command j)
        (env j) (timeout_seconds j) (resource_limits j) (logs j) (result j)
        (worker_id j) (claimed_at j) (started_at j) v.

(** [j["logs"].append(line)]. *)
Definition log_append (line : string) (j : Job) : Job :=
  set_logs (logs j ++ [line]) j.

(** [_JOBS]: a dictionary keeps its keys in insertion order, and
    [items()] and [values()] enumerate them in that order. *)
Definition Store : Type := list (string * Job).

(** [_JOBS.get(job_id)]. *)
Fixpoint lookup (jid : string) (s : Store) : option Job :=
  match s with
  | [] => None
  | (k, j) :: rest => if (k =? jid) then Some j else lookup jid rest
  end.

(** [_JOBS[job_id] = data]: an existing key keeps its position, a new
    key goes last. *)
Fixpoint put (jid : string) (j : Job) (s : Store) : Store :=
  match s with
  | [] => [(jid, j)]
  | (k, j0) :: rest =>
      if (k =? jid) then (k, j) :: rest else (k, j0) :: put jid j rest
  end.

(** The rejections raised as [HTTPException]: 404 "job not found",
    403 "invalid worker secret", 403 "worker_id mismatch for job". *)
Inductive HTTPError : Type :=
| NotFound
| InvalidSecret
| WorkerMismatch.

(** The readings of [_now().isoformat()] made during one call, in the
    order in which the call makes them. *)
Definition Clock : Type := nat -> string.

(** -- Request bodies *)

Record JobRequest : Type := mkJobRequest {
  req_repo : string;
  req_ref : string;
  req_runtime : string;
  req_command : list string;
  req_env : option Dict;
  req_timeout_seconds : option Z;
  req_resource_limits : option (list (string * Z))
}.

Record ClaimRequest : Type := mkClaimRequest {
  claim_worker_id : string;
  claim_runtime_pref : option string
}.

Record AppendLogRequest : Type := mkAppendLogRequest {
  append_worker_id : string;
  append_lines : list string
}.

Record CompleteRequest : Type := mkCompleteRequest {
  complete_worker_id : string;
  complete_exit_code : Z;
  complete_success : bool;
  complete_message : option string;
  complete_result : option Dict
}.

(** -- Responses *)

Record JobSummary : Type := mkJobSummary {
  sum_job_id : string;
  sum_created_at : string;
  sum_state : JobState;
  sum_repo : string;
  sum_ref : string;
  sum_runtime : string
}.

Record ClaimResponse : Type := mkClaimResponse {
  resp_job_id : string;
  resp_repo : string;
  resp_ref : string;
  resp_runtime : string;
  resp_command : list string;
  resp_env : Dict;
  resp_timeout_seconds : Z;
  resp_resource_limits : list (string * Z)
}.

(** -- Helper functions *)

Definition _save_job (jid : string) (data : Job) (s : Store) : Store :=
  put jid data s.

Definition _get_job (jid : string) (s : Store) : HTTPError + Job :=
  match lookup jid s with
  | Some j => inr j
  | None => inl NotFound
  end.

Definition is_pending (item : string * Job) : bool :=
  JobState_eqb (state (snd item)) PENDING.

(** The [pending] list of [_atomically_claim_oldest], before sorting:
    the PENDING jobs in store order, filtered by runtime when
    [runtime_pref] is truthy. *)
Definition pending_for (runtime_pref : option string) (s : Store)
  : list (string * Job) :=
  let pending := filter is_pending s in
  match runtime_pref with
  | Some r =>
      if Py.truthy r
      then filter (fun item => runtime (snd item) =? r) pending
      else pending
  | None => pending
  end.

Definition _atomically_claim_oldest
           (worker : string) (runtime_pref : option string)
           (now : Clock) (s : Store) : option string * Store :=
  match Py.sort_by (fun item => created_at (snd item))
                   (pending_for runtime_pref s) with
  | [] => (None, s)
  | (jid, job) :: _ =>
      let job := set_state CLAIMED job in
      let job := set_worker_id (Some worker) job in
      let job := set_claimed_at (Some (now 0%nat)) job in
      let job :=
        log_append ("[" ++ now 1%nat ++ "] CLAIMED by worker " ++ worker) job in
      (Some jid, put jid job s)
  end.

(** -- The simulated runner *)

Section Simulation.

(** ["fail" in (ref or "").lower()]. *)
Variable ref_says_fail : string -> bool.

(** The [steps] list of [_simulate_job_run]. *)
Definition sim_steps (job : Job) : list string :=
  ["Preparing workspace";
   ("Fetching " ++ repo job ++ "@" ++ ref job)%string;
   ("Using runtime " ++ runtime job)%string;
   ("Executing: " ++ String.concat " " (command job))%string;
   "Collecting artifacts";
   "Finalizing"].

(** Where a run of [_simulate_job_run] is suspended: scheduled and not
    yet started, or asleep at the end of a loop iteration with the steps
    the loop has still to go through. *)
Inductive SimState : Type :=
| SimNew
| SimLoop (todo : list string).

(** The end of [_simulate_job_run], past the loop; the readings of the
    clock are counted from [k]. *)
Definition sim_finish (jid : string) (now : Clock) (k : nat) (s : Store) : Store :=
  match lookup jid s with
  | None => s
  | Some final_job =>
      let j :=
        if ref_says_fail (ref final_job) then
          let j := set_state FAILED final_job in
          let j :=
            log_append ("[" ++ now k ++ "] ERROR: simulated failure due to ref name") j in
          let j := set_finished_at (Some (now (S k))) j in
          set_result (Some (mkResult 1 "Simulated failure" None)) j
        else
          let j := set_state SUCCESS final_job in
          let j :=
            log_append ("[" ++ now k ++ "] SUCCESS: simulated run complete") j in
          let j := set_finished_at (Some (now (S k))) j in
          set_result (Some (mkResult 0 "Simulated success" None)) j in
      _save_job jid j s
  end.

(** The loop from the step it is to take next up to the next
    [asyncio.sleep], or to the end of the run: the store, and the place
    where the run sleeps if it goes on.  A job that is gone raises
    [KeyError], which ends the run. *)
Definition sim_resume (jid : string) (todo : list string) (now : Clock) (k : nat)
           (s : Store) : Store * option SimState :=
  match todo with
  | [] => (sim_finish jid now k s, None)
  | step :: rest =>
      match lookup jid s with
      | None => (s, None)
      | Some current_job =>
          if JobState_eqb (state current_job) CANCELED then
            (_save_job jid
               (log_append ("[" ++ now k ++ "] state=CANCELED: run aborted")
                           current_job) s,
             None)
          else
            (_save_job jid
               (log_append ("[" ++ now k ++ "] " ++ step ++ " ...") current_job) s,
             Some (SimLoop rest))
      end
  end.

(** [_simulate_job_run(job_id)] from one suspension to the next.  The
    locks it takes are free whenever it runs, as no holder awaits, so
    nothing interleaves with it between two sleeps. *)
Definition _simulate_job_run (jid : string) (st : SimState) (now : Clock)
           (s : Store) : Store * option SimState :=
  match st with
  | SimNew =>
      match lookup jid s with
      | None => (s, None)
      | Some job =>
          if JobState_eqb (state job) CANCELED then (s, None)
          else
            let job := set_state RUNNING job in
            let job := set_started_at (Some (now 0%nat)) job in
            let job :=
              log_append ("[" ++ now 1%nat
                          ++ "] state=RUNNING: starting simulated run") job in
            sim_resume jid (sim_steps job) now 2 (_save_job jid job s)
      end
  | SimLoop todo => sim_resume jid todo now 0 s
  end.

End Simulation.

Section Endpoints.

(** [WORKER_SECRET = os.environ.get("WORKER_SECRET")]. *)
Variable WORKER_SECRET : option string.

Definition _validate_worker_secret (provided : option string) : bool :=
  match WORKER_SECRET with
  | None => true
  | Some secret =>
      if negb (Py.truthy secret) then true
      else (Py.or_else provided "" =? secret)
  end.

(** [POST /jobs]; [jid] is the value of [str(uuid.uuid4())]. *)
Definition enqueue_job (req : JobRequest) (jid : string) (now : Clock)
           (s : Store) : JobSummary * Store :=
  let ts := now 0%nat in
  let job_data :=
    mkJob jid ts PENDING (req_repo req) (req_ref req) (req_runtime req)
          (req_command req)
          (match req_env req with
           | Some ((_ :: _) as e) => e
           | _ => []
           end)
          (match req_timeout_seconds req with
           | Some t => if (t =? 0)%Z then 900%Z else t
           | None => 900%Z
           end)
          (match req_resource_limits req with
           | Some ((_ :: _) as r) => r
           | _ => [("cpu", 1%Z); ("memory_mb", 1024%Z)]
           end)
          [] None None None None None in
  (mkJobSummary jid ts PENDING (req_repo req) (req_ref req) (req_runtime req),
   _save_job jid job_data s).

(** [POST /jobs/{job_id}/cancel]. *)
Definition cancel_job (jid : string) (now : Clock) (s : Store)
  : (HTTPError + unit) * Store :=
  match _get_job jid s with
  | inl e => (inl e, s)
  | inr j =>
      if is_terminal (state j) then (inr tt, s)
      else
        let j := set_state CANCELED j in
        let j := log_append ("[" ++ now 0%nat ++ "] CANCELED by request") j in
        let j := set_finished_at (Some (now 1%nat)) j in
        (inr tt, _save_job jid j s)
  end.

(** [GET /jobs/{job_id}/logs?tail=n]: [j["logs"][-tail:]]. *)
Definition get_job_logs (jid : string) (tail : Z) (s : Store)
  : (HTTPError + list string) * Store :=
  match _get_job jid s with
  | inl e => (inl e, s)
  | inr j => (inr (Py.slice_from (- tail) (logs j)), s)
  end.

(** [GET /jobs/{job_id}]: the stored job with [logs=j["logs"][-1000:]]. *)
Definition get_job (jid : string) (s : Store) : (HTTPError + Job) * Store :=
  match _get_job jid s with
  | inl e => (inl e, s)
  | inr j => (inr (set_logs (Py.slice_from (- 1000) (logs j)) j), s)
  end.

(** [POST /workers/claim]. *)
Definition worker_claim (req : ClaimRequest) (x_worker_secret : option string)
           (now : Clock) (s : Store)
  : (HTTPError + option ClaimResponse) * Store :=
  if negb (_validate_worker_secret x_worker_secret) then (inl InvalidSecret, s)
  else
    let worker := claim_worker_id req in
    match _atomically_claim_oldest worker (claim_runtime_pref req) now s with
    | (None, s1) => (inr None, s1)
    | (Some jid, s1) =>
        if negb (Py.truthy jid) then (inr None, s1)
        else
          match _get_job jid s1 with
          | inl e => (inl e, s1)
          | inr job =>
              let job := set_state RUNNING job in
              let started := Py.truthy_opt (started_at job) in
              let job :=
                if started then job
                else set_started_at (Some (now 2%nat)) job in
              let k := if started then 2%nat else 3%nat in
              let job :=
                log_append ("[" ++ now k ++ "] state=RUNNING: worker "
                            ++ worker ++ " started") job in
              (inr (Some (mkClaimResponse jid (repo job) (ref job) (runtime job)
                                          (command job) (env job)
                                          (timeout_seconds job)
                                          (resource_limits job))),
               _save_job jid job s1)
          end
    end.

(** The mismatch test shared by append and complete:
    [j.get("worker_id") and req.worker_id != j.get("worker_id")]. *)
Definition worker_mismatch (j : Job) (worker : string) : bool :=
  match worker_id j with
  | Some w => Py.truthy w && negb (worker =? w)
  | None => false
  end.

(** [POST /jobs/{job_id}/append]. *)
Definition append_job_logs (jid : string) (req : AppendLogRequest)
           (x_worker_secret : option string) (now : Clock) (s : Store)
  : (HTTPError + unit) * Store :=
  if negb (_validate_worker_secret x_worker_secret) then (inl InvalidSecret, s)
  else
    match _get_job jid s with
    | inl e => (inl e, s)
    | inr j =>
        if worker_mismatch j (append_worker_id req) then (inl WorkerMismatch, s)
        else
          let ts := now 0%nat in
          let j :=
            set_logs
              (logs j ++
               map (fun line => ("[" ++ ts ++ "] " ++ append_worker_id req
                                 ++ ": " ++ line)%string)
                   (append_lines req)) j in
          (inr tt, _save_job jid j s)
    end.

(** [POST /jobs/{job_id}/complete]; the response is the pair
    [{"job_id": ..., "state": ...}]. *)
Definition complete_job (jid : string) (req : CompleteRequest)
           (x_worker_secret : option string) (now : Clock) (s : Store)
  : (HTTPError + (string * JobState)) * Store :=
  if negb (_validate_worker_secret x_worker_secret) then (inl InvalidSecret, s)
  else
    match _get_job jid s with
    | inl e => (inl e, s)
    | inr j =>
        if worker_mismatch j (complete_worker_id req) then (inl WorkerMismatch, s)
        else
          let j := set_state (if complete_success req then SUCCESS else FAILED) j in
          let j := set_finished_at (Some (now 0%nat)) j in
          let msg :=
            Py.or_else (complete_message req)
                       (if complete_success req then "success" else "failed") in
          let j :=
            set_result
              (Some (mkResult (complete_exit_code req) msg
                              (match complete_result req with
                               | Some ((_ :: _) as d) => Some d
                               | _ => None
                               end))) j in
          let j :=
            log_append
              ("[" ++ now 1%nat ++ "] " ++ complete_worker_id req
               ++ ": COMPLETE success=" ++ Py.str_of_bool (complete_success req)
               ++ " exit_code=" ++ Py.str_of_int (complete_exit_code req)) j in
          (inr (jid, state j), _save_job jid j s)
    end.

End Endpoints.

End Api.

(* ================================================================== *)
(** * Text: Python [str] as a sequence of code points *)
(* ================================================================== *)

Module Text.

(** The control plane passes its strings through untouched, and [Api]
    keeps them as [string].  The hybrid file format depends on single
    characters (line boundaries, whitespace, quotes), so the text that
    goes through it is the list of its Unicode code points. *)
Definition str : Type := list N.

(** An ASCII literal. *)
Definition lit (s : string) : str := map N_of_ascii (list_ascii_of_string s).

Definition LF : N := 10.
Definition CR : N := 13.
Definition SPACE : N := 32.
Definition DQUOTE : N := 34.
Definition SQUOTE : N := 39.
Definition COLON : N := 58.
Definition BACKSLASH : N := 92.

Fixpoint str_eqb (a b : str) : bool :=
  match a, b with
  | [], [] => true
  | x :: a', y :: b' => (x =? y)%N && str_eqb a' b'
  | _, _ => false
  end.

(** Truth value of a [str]. *)
Definition truthy (s : str) : bool :=
  match s with
  | [] => false
  | _ :: _ => true
  end.

Definition in_range (lo hi c : N) : bool := ((lo <=? c) && (c <=? hi))%N.

(** [c.isspace()]: the code points [str.strip()] removes. *)
Definition is_space (c : N) : bool :=
  in_range 9 13 c || in_range 28 32 c || (c =? 133)%N || (c =? 160)%N
  || (c =? 5760)%N || in_range 8192 8202 c || (c =? 8232)%N || (c =? 8233)%N
  || (c =? 8239)%N || (c =? 8287)%N || (c =? 12288)%N.

(** The line boundaries of [str.splitlines()]. *)
Definition is_linebreak (c : N) : bool :=
  in_range 10 13 c || in_range 28 30 c || (c =? 133)%N
  || (c =? 8232)%N || (c =? 8233)%N.

(** A surrogate code point cannot be encoded as UTF-8. *)
Definition is_surrogate (c : N) : bool := in_range 55296 57343 c.

(** [s.splitlines()], with [cur] the line being read: a line ends at a
    line boundary, CR LF counts as one boundary, and no empty line
    follows the last boundary. *)
Fixpoint splitlines_from (cur : str) (s : str) : list str :=
  match s with
  | [] => match cur with
          | [] => []
          | _ :: _ => [cur]
          end
  | c :: rest =>
      if is_linebreak c then
        if (c =? CR)%N then
          match rest with
          | c2 :: rest2 =>
              if (c2 =? LF)%N then cur :: splitlines_from [] rest2
              else cur :: splitlines_from [] rest
          | [] => cur :: splitlines_from [] rest
          end
        else cur :: splitlines_from [] rest
      else splitlines_from (cur ++ [c]) rest
  end.

Definition splitlines (s : str) : list str := splitlines_from [] s.

Fixpoint lstrip (s : str) : str :=
  match s with
  | [] => []
  | c :: rest => if is_space c then lstrip rest else s
  end.

Definition rstrip (s : str) : str := rev (lstrip (rev s)).

(** [s.strip()]. *)
Definition strip (s : str) : str := rstrip (lstrip s).

(** [s.startswith(p)]. *)
Fixpoint startswith (p s : str) : bool :=
  match p, s with
  | [], _ => true
  | x :: p', y :: s' => (x =? y)%N && startswith p' s'
  | _ :: _, [] => false
  end.

(** [s.split(sep, 1)] for a one-character [sep] that occurs in [s]:
    the text before and after its first occurrence; [None] when [sep] does
    not occur. *)
Fixpoint split_once (sep : N) (s : str) : option (str * str) :=
  match s with
  | [] => None
  | c :: rest =>
      if (c =? sep)%N then Some ([], rest)
      else match split_once sep rest with
           | Some (a, b) => Some (c :: a, b)
           | None => None
           end
  end.

(** [sep.join(l)]. *)
Fixpoint join (sep : str) (l : list str) : str :=
  match l with
  | [] => []
  | x :: rest =>
      match rest with
      | [] => x
      | _ :: _ => x ++ sep ++ join sep rest
      end
  end.

(** The uppercase of the code points whose uppercase is an ASCII letter:
    a..z, dotless i (U+0131) and long s (U+017F).  Every other code point
    is left as it is: its uppercase is not an ASCII letter or underscore,
    or is a sequence (SS, FF, FI, FL, ST, ...) that does not occur in the
    one word the result is compared with, SECRET_TOKEN. *)
Definition upper_char (c : N) : N :=
  if in_range 97 122 c then (c - 32)%N
  else if (c =? 305)%N then 73%N
  else if (c =? 383)%N then 83%N
  else c.

(** [s.upper()], as far as a comparison with an ASCII word can tell. *)
Definition upper (s : str) : str := map upper_char s.

(** Reading a file in text mode translates CR LF and CR to LF. *)
Fixpoint universal_newlines (s : str) : str :=
  match s with
  | [] => []
  | c :: rest =>
      if (c =? CR)%N then
        LF :: match rest with
              | c2 :: rest2 =>
                  if (c2 =? LF)%N then universal_newlines rest2
                  else universal_newlines rest
              | [] => []
              end
      else c :: universal_newlines rest
  end.

End Text.

(* ================================================================== *)
(** * [shlex.join] and [shlex.split] *)
(* ================================================================== *)

Module Shlex.

Import Text.

(** The characters [shlex.quote] leaves alone: [a-zA-Z0-9_@%+=:,./-]. *)
Definition is_safe (c : N) : bool :=
  in_range 97 122 c || in_range 65 90 c || in_range 48 57 c
  || (c =? 95)%N || (c =? 64)%N || (c =? 37)%N || (c =? 43)%N || (c =? 61)%N
  || (c =? 58)%N || in_range 44 47 c.

(** [s.replace("'", "'\"'\"'")]. *)
Definition escape_squotes (s : str) : str :=
  flat_map (fun c => if (c =? SQUOTE)%N
                     then [SQUOTE; DQUOTE; SQUOTE; DQUOTE; SQUOTE]
                     else [c]) s.

(** [shlex.quote(s)]. *)
Definition quote (s : str) : str :=
  match s with
  | [] => [SQUOTE; SQUOTE]
  | _ :: _ =>
      if forallb is_safe s then s
      else SQUOTE :: escape_squotes s ++ [SQUOTE]
  end.

(** [shlex.join(args)]. *)
Definition shlex_join (args : list str) : str := join [SPACE] (map quote args).

(** The lexer state of [shlex.shlex]: [' '], ['a'], a quote character,
    or the escape character together with [escapedstate]. *)
Inductive lex_state : Type :=
| InWhitespace
| InWord
| InQuotes (q : N)
| InEscape (escapedstate : lex_state).

(** [shlex.whitespace]. *)
Definition is_whitespace (c : N) : bool :=
  (c =? 32)%N || (c =? 9)%N || (c =? 13)%N || (c =? 10)%N.

(** [shlex.quotes]. *)
Definition is_quote (c : N) : bool := (c =? SQUOTE)%N || (c =? DQUOTE)%N.

(** [shlex.escape]. *)
Definition is_escape (c : N) : bool := (c =? BACKSLASH)%N.

(** [shlex.escapedquotes]. *)
Definition is_escapedquote (c : N) : bool := (c =? DQUOTE)%N.

Definition emit (tok : str) (r : str + list str) : str + list str :=
  match r with
  | inr l => inr (tok :: l)
  | inl e => inl e
  end.

(** [read_token] run over the whole input, in POSIX mode with
    [whitespace_split] and no comment characters, as [shlex.split] sets
    it up.  [tok] is [self.token], [quoted] the flag of the token being
    read; a finished token is emitted and reading goes on with an empty
    one.  At the start of a token a character that is neither whitespace,
    escape nor quote starts a word, be it a word character or not.  The
    result is the list of tokens, or the message of the [ValueError]. *)
Fixpoint read_tokens (st : lex_state) (quoted : bool) (tok : str) (s : str)
  : str + list str :=
  match s with
  | [] =>
      match st with
      | InWhitespace | InWord =>
          if truthy tok || quoted then inr [tok] else inr []
      | InQuotes _ => inl (lit "No closing quotation")
      | InEscape _ => inl (lit "No escaped character")
      end
  | c :: rest =>
      match st with
      | InWhitespace =>
          if is_whitespace c then
            if truthy tok || quoted
            then emit tok (read_tokens InWhitespace false [] rest)
            else read_tokens InWhitespace quoted tok rest
          else if is_escape c then read_tokens (InEscape InWord) quoted tok rest
          else if is_quote c then read_tokens (InQuotes c) quoted tok rest
          else read_tokens InWord quoted [c] rest
      | InQuotes q =>
          if (c =? q)%N then read_tokens InWord true tok rest
          else if is_escape c && is_escapedquote q
               then read_tokens (InEscape (InQuotes q)) true tok rest
               else read_tokens (InQuotes q) true (tok ++ [c]) rest
      | InEscape back =>
          let tok :=
            match back with
            | InQuotes q =>
                if negb (c =? BACKSLASH)%N && negb (c =? q)%N
                then tok ++ [BACKSLASH] else tok
            | _ => tok
            end in
          read_tokens back quoted (tok ++ [c]) rest
      | InWord =>
          if is_whitespace c then
            if truthy tok || quoted
            then emit tok (read_tokens InWhitespace false [] rest)
            else read_tokens InWhitespace quoted tok rest
          else if is_quote c then read_tokens (InQuotes c) quoted tok rest
          else if is_escape c then read_tokens (InEscape InWord) quoted tok rest
          else read_tokens InWord quoted (tok ++ [c]) rest
      end
  end.

(** [shlex.split(s)]. *)
Definition shlex_split (s : str) : str + list str :=
  read_tokens InWhitespace false [] s.

End Shlex.

(* ================================================================== *)
(** * [json.loads] *)
(* ================================================================== *)

Module Json.

Import Text.

Local Set Warnings "-register-all".

(** A decoded JSON document; a number keeps its text. *)
Inductive value : Type :=
| JNull
| JBool (b : bool)
| JNumber (text : str)
| JString (s : str)
| JArray (items : list value)
| JObject (members : list (str * value)).

(** The whitespace of JSON: space, tab, LF, CR. *)
Definition is_ws (c : N) : bool :=
  (c =? 32)%N || (c =? 9)%N || (c =? 10)%N || (c =? 13)%N.

Fixpoint skip_ws (s : str) : str :=
  match s with
  | [] => []
  | c :: rest => if is_ws c then skip_ws rest else s
  end.

Definition hex_val (c : N) : option N :=
  if in_range 48 57 c then Some (c - 48)%N
  else if in_range 65 70 c then Some (c - 55)%N
  else if in_range 97 102 c then Some (c - 87)%N
  else None.

Definition hex4 (a b c d : N) : option N :=
  match hex_val a, hex_val b, hex_val c, hex_val d with
  | Some x, Some y, Some z, Some w => Some (((x * 16 + y) * 16 + z) * 16 + w)%N
  | _, _, _, _ => None
  end.

(** The character a one-letter escape stands for. *)
Definition unescape (e : N) : option N :=
  if (e =? DQUOTE)%N then Some DQUOTE
  else if (e =? BACKSLASH)%N then Some BACKSLASH
  else if (e =? 47)%N then Some 47%N
  else if (e =? 98)%N then Some 8%N
  else if (e =? 102)%N then Some 12%N
  else if (e =? 110)%N then Some 10%N
  else if (e =? 114)%N then Some 13%N
  else if (e =? 116)%N then Some 9%N
  else None.

(** [scanstring]: the string whose opening quote was just read, in
    strict mode; the decoded text and what follows the closing quote. *)
Fixpoint scanstring (acc : str) (s : str) : option (str * str) :=
  match s with
  | [] => None
  | c :: rest =>
      if (c =? DQUOTE)%N then Some (acc, rest)
      else if (c =? BACKSLASH)%N then
        match rest with
        | [] => None
        | e :: rest1 =>
            if (e =? 117)%N then
              match rest1 with
              | h1 :: h2 :: h3 :: h4 :: rest2 =>
                  match hex4 h1 h2 h3 h4 with
                  | None => None
                  | Some uni =>
                      if in_range 55296 56319 uni then
                        match rest2 with
                        | b :: u :: rest3 =>
                            if (b =? BACKSLASH)%N && (u =? 117)%N then
                              match rest3 with
                              | g1 :: g2 :: g3 :: g4 :: rest4 =>
                                  match hex4 g1 g2 g3 g4 with
                                  | None => None
                                  | Some uni2 =>
                                      if in_range 56320 57343 uni2
                                      then scanstring
                                             (acc ++ [65536 + ((uni - 55296) * 1024
                                                               + (uni2 - 56320))]%N)
                                             rest4
                                      else scanstring (acc ++ [uni]) rest2
                                  end
                              | _ => None
                              end
                            else scanstring (acc ++ [uni]) rest2
                        | _ => scanstring (acc ++ [uni]) rest2
                        end
                      else scanstring (acc ++ [uni]) rest2
                  end
              | _ => None
              end
            else
              match unescape e with
              | Some ch => scanstring (acc ++ [ch]) rest1
              | None => None
              end
        end
      else if (c <? 32)%N then None
      else scanstring (acc ++ [c]) rest
  end.

Definition is_digit (c : N) : bool := in_range 48 57 c.

(** The longest run of digits in front of [s], and the rest. *)
Fixpoint span_digits (s : str) : str * str :=
  match s with
  | [] => ([], [])
  | c :: rest =>
      if is_digit c then let (ds, r) := span_digits rest in (c :: ds, r)
      else ([], s)
  end.

(** The integer part of a number: an optional minus sign, then either
    0 or a non-zero digit followed by digits. *)
Definition match_integer (s : str) : option (str * str) :=
  let (sign, s1) :=
    match s with
    | c :: r => if (c =? 45)%N then ([c], r) else ([], s)
    | [] => ([], s)
    end in
  match s1 with
  | [] => None
  | d :: r =>
      if (d =? 48)%N then Some (sign ++ [d], r)
      else if in_range 49 57 d
           then let (ds, r') := span_digits r in Some (sign ++ d :: ds, r')
           else None
  end.

(** An optional fraction: a dot followed by at least one digit. *)
Definition match_fraction (s : str) : str * str :=
  match s with
  | c :: r =>
      if (c =? 46)%N then
        match span_digits r with
        | ([], _) => ([], s)
        | (ds, r') => (c :: ds, r')
        end
      else ([], s)
  | [] => ([], s)
  end.

(** An optional exponent: e or E, an optional sign, at least one digit. *)
Definition match_exponent (s : str) : str * str :=
  match s with
  | e :: r =>
      if (e =? 101)%N || (e =? 69)%N then
        let (sign, r1) :=
          match r with
          | c :: r' => if (c =? 45)%N || (c =? 43)%N then ([c], r') else ([], r)
          | [] => ([], r)
          end in
        match span_digits r1 with
        | ([], _) => ([], s)
        | (ds, r2) => (e :: sign ++ ds, r2)
        end
      else ([], s)
  | [] => ([], s)
  end.

(** [NUMBER_RE.match]. *)
Definition match_number (s : str) : option (str * str) :=
  match match_integer s with
  | None => None
  | Some (i, r) =>
      let (f, r1) := match_fraction r in
      let (e, r2) := match_exponent r1 in
      Some (i ++ f ++ e, r2)
  end.

(** A literal word in front of [s]. *)
Definition match_word (w : string) (v : value) (s : str) : option (value * str) :=
  if startswith (lit w) s then Some (v, skipn (String.length w) s) else None.

(** [scan_once], with the array and object loops; [fuel] bounds the
    nesting and the number of items. *)
Fixpoint scan_once (fuel : nat) (s : str) : option (value * str) :=
  match fuel with
  | O => None
  | S f =>
      match s with
      | [] => None
      | c :: rest =>
          if (c =? DQUOTE)%N then
            match scanstring [] rest with
            | Some (x, r) => Some (JString x, r)
            | None => None
            end
          else if (c =? 123)%N then
            match skip_ws rest with
            | c1 :: r1 =>
                if (c1 =? 125)%N then Some (JObject [], r1)
                else match object_items f (c1 :: r1) with
                     | Some (m, r2) => Some (JObject m, r2)
                     | None => None
                     end
            | [] => None
            end
          else if (c =? 91)%N then
            match skip_ws rest with
            | c1 :: r1 =>
                if (c1 =? 93)%N then Some (JArray [], r1)
                else match array_items f (c1 :: r1) with
                     | Some (l, r2) => Some (JArray l, r2)
                     | None => None
                     end
            | [] => None
            end
          else if (c =? 110)%N && startswith (lit "null") s
               then match_word "null" JNull s
          else if (c =? 116)%N && startswith (lit "true") s
               then match_word "true" (JBool true) s
          else if (c =? 102)%N && startswith (lit "false") s
               then match_word "false" (JBool false) s
          else
            match match_number s with
            | Some (n, r) => Some (JNumber n, r)
            | None =>
                if (c =? 78)%N && startswith (lit "NaN") s
                then match_word "NaN" (JNumber (lit "NaN")) s
                else if (c =? 73)%N && startswith (lit "Infinity") s
                then match_word "Infinity" (JNumber (lit "Infinity")) s
                else if (c =? 45)%N && startswith (lit "-Infinity") s
                then match_word "-Infinity" (JNumber (lit "-Infinity")) s
                else None
            end
      end
  end

with array_items (fuel : nat) (s : str) : option (list value * str) :=
  match fuel with
  | O => None
  | S f =>
      match scan_once f s with
      | None => None
      | Some (v, r) =>
          match skip_ws r with
          | c :: r1 =>
              if (c =? 93)%N then Some ([v], r1)
              else if (c =? 44)%N then
                match array_items f (skip_ws r1) with
                | Some (vs, r2) => Some (v :: vs, r2)
                | None => None
                end
              else None
          | [] => None
          end
      end
  end

with object_items (fuel : nat) (s : str) : option (list (str * value) * str) :=
  match fuel with
  | O => None
  | S f =>
      match s with
      | q :: r =>
          if (q =? DQUOTE)%N then
            match scanstring [] r with
            | None => None
            | Some (k, r1) =>
                match skip_ws r1 with
                | colon :: r2 =>
                    if (colon =? COLON)%N then
                      match scan_once f (skip_ws r2) with
                      | None => None
                      | Some (v, r3) =>
                          match skip_ws r3 with
                          | c :: r4 =>
                              if (c =? 125)%N then Some ([(k, v)], r4)
                              else if (c =? 44)%N then
                                match object_items f (skip_ws r4) with
                                | Some (m, r5) => Some ((k, v) :: m, r5)
                                | None => None
                                end
                              else None
                          | [] => None
                          end
                      end
                    else None
                | [] => None
                end
            end
          else None
      | [] => None
      end
  end.

(** [json.loads(s)]: [None] stands for the exception it raises.  The
    interpreter's own limits (recursion depth, digits of an integer) are
    not part of the model. *)
Definition loads (s : str) : option value :=
  if startswith [65279%N] s then None
  else
    match scan_once (2 * length s + 2) (skip_ws s) with
    | Some (v, r) =>
        match skip_ws r with
        | [] => Some v
        | _ :: _ => None
        end
    | None => None
    end.

(** [payload[key]] of a decoded object: the last member named [key]. *)
Fixpoint member (key : str) (m : list (str * value)) : option value :=
  match m with
  | [] => None
  | (k, v) :: rest =>
      match member key rest with
      | Some v' => Some v'
      | None => if str_eqb k key then Some v else None
      end
  end.

(** The items of a list whose items are all strings. *)
Fixpoint all_strings (l : list value) : option (list str) :=
  match l with
  | [] => Some []
  | JString x :: rest =>
      match all_strings rest with
      | Some xs => Some (x :: xs)
      | None => None
      end
  | _ :: _ => None
  end.

End Json.

(* ================================================================== *)
(** * The queue and result directories *)
(* ================================================================== *)

Module Files.

Import Text.

(** A directory: file names with the text stored under them. *)
Definition Dir : Type := list (str * str).

Fixpoint dir_lookup (name : str) (d : Dir) : option str :=
  match d with
  | [] => None
  | (n, text) :: rest => if str_eqb n name then Some text else dir_lookup name rest
  end.

Fixpoint dir_remove (name : str) (d : Dir) : Dir :=
  match d with
  | [] => []
  | (n, text) :: rest =>
      if str_eqb n name then dir_remove name rest else (n, text) :: dir_remove name rest
  end.

Definition dir_write (name text : str) (d : Dir) : Dir :=
  (name, text) :: dir_remove name d.

(** Text can be written as UTF-8 when it holds no surrogate. *)
Definition encodable (s : str) : bool := forallb (fun c => negb (is_surrogate c)) s.

(** What [open(path, "r", encoding="utf-8")] reads back from text that
    was written as UTF-8 on a POSIX system, where writing leaves LF as it
    is: reading in text mode translates the newlines. *)
Definition read_text (stored : str) : str := universal_newlines stored.

End Files.

(* ================================================================== *)
(** * The hybrid agent: [local-agent/agent.py] *)
(* ================================================================== *)

Module Agent.

Import Text Shlex Json Files.

Definition MAGIC_HEADER : str := lit "#hybrid-mode".
Definition CMD_SUFFIX : str := lit ".cmd".
Definition RUNNING_SUFFIX : str := lit ".running".
Definition RESULT_SUFFIX : str := lit ".result".

(** [line.strip() == ""]. *)
Definition is_blank (line : str) : bool := negb (truthy (strip line)).

(** The first loop of [parse_cmd_file]: skip the blank lines. *)
Fixpoint skip_blank (lines : list str) : list str :=
  match lines with
  | [] => []
  | line :: rest => if is_blank line then skip_blank rest else lines
  end.

(** The second loop: read header lines up to the first blank line,
    keeping the value of the last SECRET_TOKEN line; the lines after the
    blank one are the payload. *)
Fixpoint parse_headers (secret : option str) (lines : list str)
  : option str * list str :=
  match lines with
  | [] => (secret, [])
  | line :: rest =>
      if is_blank line then (secret, rest)
      else
        let secret :=
          match split_once COLON line with
          | Some (key, val) =>
              if str_eqb (upper (strip key)) (lit "SECRET_TOKEN")
              then Some (strip val) else secret
          | None => secret
          end in
        parse_headers secret rest
  end.

(** [parse_cmd_file(contents)]: (secret_token, command_text, error). *)
Definition parse_cmd_file (contents : str) : option str * option str * option str :=
  match splitlines contents with
  | [] => (None, None, Some (lit "empty file"))
  | (_ :: _) as lines =>
      match skip_blank lines with
      | [] => (None, None, Some (lit "no content"))
      | first :: rest =>
          if negb (startswith MAGIC_HEADER (strip first))
          then (None, None, Some (lit "missing magic header '#hybrid-mode'"))
          else
            let (secret, cmd_lines) := parse_headers None rest in
            let cmd_text := strip (join [LF] cmd_lines) in
            if truthy cmd_text then (secret, Some cmd_text, None)
            else (secret, None, Some (lit "no command payload found"))
      end
  end.

(** The argument list a JSON payload gives, if it gives one: an array of
    strings, or an object whose "command" member is one. *)
Definition command_of_json (cmd_text : str) : option (list str) :=
  match loads cmd_text with
  | Some (JArray items) => all_strings items
  | Some (JObject members) =>
      match member (lit "command") members with
      | Some (JArray items) => all_strings items
      | _ => None
      end
  | _ => None
  end.

(** [build_command(cmd_text)]: (argv_list, error). *)
Definition build_command (cmd_text : str) : option (list str) * option str :=
  match command_of_json cmd_text with
  | Some argv => (Some argv, None)
  | None =>
      match shlex_split cmd_text with
      | inr ((_ :: _) as argv) => (Some argv, None)
      | inr [] => (None, Some (lit "could not parse command payload"))
      | inl e => (None, Some (lit "failed to parse command: " ++ e))
      end
  end.

(** The dictionary written to [<job_id>.result]. *)
Record AgentResult : Type := mkAgentResult {
  exitCode : Z;
  stdout : str;
  stderr : str;
  timestamp : str
}.

(** What the agent acts on: the queue directory, the results directory
    and the commands it has run so far. *)
Record World : Type := mkWorld {
  queue : Dir;
  results : list (str * AgentResult);
  executed : list (list str)
}.

(** [os.path.basename]. *)
Fixpoint basename_from (cur : str) (p : str) : str :=
  match p with
  | [] => cur
  | c :: rest => if (c =? 47)%N then basename_from [] rest
                 else basename_from (cur ++ [c]) rest
  end.

Definition basename (p : str) : str := basename_from [] p.

Definition endswith (suffix s : str) : bool := startswith (rev suffix) (rev s).

(** The job identifier of a queue file: its base name without [.cmd]. *)
Definition job_id_of (fname : str) : str :=
  let b := basename fname in
  if endswith CMD_SUFFIX b then firstn (length b - length CMD_SUFFIX) b else b.

(** [str(x)] for an [Optional[str]]. *)
Definition str_of_opt (o : option str) : str :=
  match o with
  | Some s => s
  | None => lit "None"
  end.


Section LocalAgent.

(** [self.secret], [self.dry_run], [self.max_seconds], [self.max_output]. *)
Variable secret : option str.
Variable dry_run : bool.
Variable max_seconds : Z.
Variable max_output : Z.

(** [run_job(argv, timeout, max_output)]: the subprocess and what it
    returns, (exit_code, stdout, stderr). *)
Variable run_job : list str -> Z -> Z -> Z * str * str.

(** [now_iso()]. *)
Variable now_iso : str.

(** [claim_job]: rename [fname] to [fname.running]; [None] when the file
    is not there any more. *)
Definition claim_job (fname : str) (q : Dir) : option (str * Dir) :=
  match dir_lookup fname q with
  | Some text =>
      let dst := fname ++ RUNNING_SUFFIX in
      Some (dst, dir_write dst text (dir_remove fname q))
  | None => None
  end.

(** [atomic_write_json] writes the result with
    [json.dump(data, f, ensure_ascii=False)] into a file opened with
    [encoding="utf-8"]: the write raises when one of the strings of the
    result holds a surrogate, and then leaves no file behind. *)
Definition result_writable (r : AgentResult) : bool :=
  encodable (stdout r) && encodable (stderr r) && encodable (timestamp r).

(** [complete_job]: publish the result, remove the running file.  A
    write that raises is logged and the result is lost; the running file
    is removed all the same. *)
Definition complete_job (running_path job_id : str) (r : AgentResult) (w : World)
  : World :=
  mkWorld (dir_remove running_path (queue w))
          (if result_writable r then (job_id, r) :: results w else results w)
          (executed w).

(** The secret check of [process_single]:
    [not secret_in_file or secret_in_file != self.secret]. *)
Definition secret_rejected (configured : str) (secret_in_file : option str) : bool :=
  match secret_in_file with
  | Some t => negb (truthy t) || negb (str_eqb t configured)
  | None => true
  end.

Definition process_single (fname : str) (w : World) : World :=
  match claim_job fname (queue w) with
  | None => w
  | Some (claimed, q1) =>
      let w1 := mkWorld q1 (results w) (executed w) in
      let job_id := job_id_of fname in
      match dir_lookup claimed q1 with
      | None =>
          complete_job claimed job_id
            (mkAgentResult (-1) [] (lit "failed to read command file") now_iso) w1
      | Some stored =>
          match parse_cmd_file (read_text stored) with
          | (_, _, Some parse_err) =>
              complete_job claimed job_id
                (mkAgentResult (-1) [] (lit "parse-error: " ++ parse_err) now_iso) w1
          | (secret_in_file, cmd_text, None) =>
              if match secret with
                 | Some configured => secret_rejected configured secret_in_file
                 | None => false
                 end
              then
                complete_job claimed job_id
                  (mkAgentResult 1 [] (lit "SECRET_TOKEN missing or invalid") now_iso) w1
              else
                match build_command (str_of_opt cmd_text) with
                | (Some ((_ :: _) as argv), None) =>
                    if dry_run then
                      complete_job claimed job_id
                        (mkAgentResult 0 (lit "dry-run: " ++ join [SPACE] argv) []
                                       now_iso) w1
                    else
                      let '(exit_code, out, err) := run_job argv max_seconds max_output in
                      complete_job claimed job_id
                        (mkAgentResult exit_code out err now_iso)
                        (mkWorld q1 (results w) (executed w ++ [argv]))
                | (_, build_err) =>
                    complete_job claimed job_id
                      (mkAgentResult (-1) []
                         (lit "command-parse-error: " ++ str_of_opt build_err) now_iso) w1
                end
          end
      end
  end.

End LocalAgent.




End Agent.

(* ================================================================== *)
(** * The worker's hybrid mode: [orchestrator/worker/worker.py] *)
(* ================================================================== *)

Module Worker.

Import Text Shlex Json Files.

(** [time.time()] readings. *)
Definition Time : Type := QArith_base.Q.

Definition time_lt (a b : Time) : bool := negb (QArith_base.Qle_bool b a).

Definition time_add (a : Time) (seconds : Z) : Time :=
  QArith_base.Qplus a (QArith_base.inject_Z seconds).

(** The entries of the claimed job the worker reads. *)
Record Job : Type := mkJob {
  job_id : str;
  command : list str;
  timeout_seconds : option Z
}.

(** What the worker tells the control plane, and the two parts of
    [run_command_and_stream] that are kept abstract here: the report of
    a result the agent produced and the local subprocess fallback. *)
Inductive Action : Type :=
| Append (job : str) (lines : list str)
| Complete (job : str) (exit_code : Z) (success : bool) (message : str)
| ReportResult (job : str) (data : value)
| RunLocally (job : str) (argv : list str).

(** What one turn of the polling loop observes: [stop_event.is_set()],
    [time.time()], and the text of the result file when it exists. *)
Record Observation : Type := mkObservation {
  stop_set : bool;
  clock : Time;
  result_file : option str
}.

(** The text [_write_cmd_file] writes: magic header, optional
    SECRET_TOKEN line, blank separator, the command joined by
    [shlex.join], each line ended by LF. *)
Definition cmd_file_text (hybrid_secret : option str) (cmd : list str) : str :=
  let cmd_str := shlex_join cmd in
  let lines :=
    [lit "#hybrid-mode"]
    ++ match hybrid_secret with
       | Some token => if truthy token then [lit "SECRET_TOKEN: " ++ token] else []
       | None => []
       end
    ++ [[]; cmd_str] in
  join [LF] lines ++ [LF].

(** [_write_cmd_file]: the name of the file and the queue directory
    with it; [None] when [write_text] raises because the text cannot be
    encoded. *)
Definition _write_cmd_file (hybrid_secret : option str) (j : Job) (queue : Dir)
  : option (str * Dir) :=
  let name := job_id j ++ lit ".cmd" in
  let out_text := cmd_file_text hybrid_secret (command j) in
  if encodable out_text then Some (name, dir_write name out_text queue) else None.

(** [_chunk_lines(lines, chunk_size)], the chunks in the order they are
    yielded: [lines[i : i + chunk_size]] for [i] in
    [range(0, len(lines), chunk_size)].  [None] stands for the
    [ValueError] of a zero step; a negative step gives an empty range. *)
Definition _chunk_lines {A : Type} (lines : list A) (chunk_size : Z)
  : option (list (list A)) :=
  if (chunk_size =? 0)%Z then None
  else if (chunk_size <? 0)%Z then Some []
  else
    let n := Z.to_nat chunk_size in
    Some (map (fun i => firstn n (skipn i lines))
              (Py.range_step (length lines) n)).

Section LocalWorker.

(** [self.hybrid_queue], [self.hybrid_results]: the directory paths,
    [None] when hybrid mode is off; [self.hybrid_secret]. *)
Variable hybrid_queue : option str.
Variable hybrid_results : option str.
Variable hybrid_secret : option str.

(** The text of the exception raised on a given input. *)
Variable exception_text : str -> str.

(** What [_poll_for_result] returns for a result file it found: the
    decoded document (Python's [None] for [null]), or an error
    dictionary when reading or decoding fails. *)
Definition read_result (raw : str) : option value :=
  match loads (read_text raw) with
  | Some JNull => None
  | Some data => Some data
  | None =>
      Some (JObject [(lit "error",
                      JString (lit "failed to read/parse result file: "
                               ++ exception_text raw))])
  end.

(** The loop of [_poll_for_result], [turn] counting its iterations and
    [fuel] bounding them; the outer [None] means the bound was reached. *)
Fixpoint poll_loop (fuel : nat) (env : nat -> Observation) (deadline : Time)
         (turn : nat) : option (option value) :=
  match fuel with
  | O => None
  | S f =>
      let o := env turn in
      if stop_set o then Some None
      else if negb (time_lt (clock o) deadline) then Some None
      else
        match result_file o with
        | Some raw => Some (read_result raw)
        | None => poll_loop f env deadline (S turn)
        end
  end.

(** [deadline = time.time() + timeout_seconds + 5], with [started] the
    reading of [time.time()] and 900 seconds for a missing or zero
    timeout. *)
Definition deadline_of (j : Job) (started : Time) : Time :=
  let timeout :=
    match timeout_seconds j with
    | Some t => if (t =? 0)%Z then 900%Z else t
    | None => 900%Z
    end in
  time_add (time_add started timeout) 5.

(** [_poll_for_result]. *)
Definition _poll_for_result (fuel : nat) (j : Job) (started : Time)
           (env : nat -> Observation) : option (option value) :=
  poll_loop fuel env (deadline_of j started) 0.

(** [run_command_and_stream]: the calls made and the queue directory
    afterwards; [None] when the polling bound was reached. *)
Definition run_command_and_stream (fuel : nat) (j : Job) (started : Time)
           (env : nat -> Observation) (queue : Dir)
  : option (list Action * Dir) :=
  match command j with
  | [] => Some ([Complete (job_id j) 1 false (lit "empty command")], queue)
  | _ :: _ =>
      match hybrid_queue, hybrid_results with
      | Some queue_path, Some results_path =>
          let a1 := Append (job_id j) [lit "[hybrid] writing .cmd to " ++ queue_path] in
          match _write_cmd_file hybrid_secret j queue with
          | None =>
              let err := lit "[hybrid] failed to write .cmd file: "
                         ++ exception_text (cmd_file_text hybrid_secret (command j)) in
              Some ([a1; Append (job_id j) [err]; Complete (job_id j) 1 false err],
                    queue)
          | Some (name, queue') =>
              let a2 := Append (job_id j) [lit "[hybrid] command file written: " ++ name] in
              let a3 := Append (job_id j)
                               [lit "[hybrid] waiting for result in " ++ results_path] in
              match _poll_for_result fuel j started env with
              | None => None
              | Some None =>
                  let err := lit "[hybrid] timed out waiting for result" in
                  Some ([a1; a2; a3; Append (job_id j) [err];
                         Complete (job_id j) 124 false err], queue')
              | Some (Some data) =>
                  Some ([a1; a2; a3; ReportResult (job_id j) data], queue')
              end
          end
      | _, _ => Some ([RunLocally (job_id j) (command j)], queue)
      end
  end.

End LocalWorker.

End Worker.

(* ================================================================== *)
(** * Vocabulary of the properties *)
(* ================================================================== *)

Import Api Text Shlex Json Files.

(** ** Control plane *)

(** The first element, in list order, whose key is minimal. *)
Fixpoint first_min {A : Type} (key : A -> string) (l : list A) : option A :=
  match l with
  | [] => None
  | x :: xs =>
      match first_min key xs with
      | None => Some x
      | Some m => if (key x <=? key m) then Some x else Some m
      end
  end.

(** A sample run, used to evaluate the endpoints: a clock that reads
    [t] throughout one call. *)
Definition clock_at (t : string) : Clock := fun _ => t.

Definition sample_request : JobRequest :=
  mkJobRequest "acme/site" "main" "container" ["npm"; "test"] None None None.

Definition t0 : string := "2024-05-01T10:00:00+00:00".
Definition t1 : string := "2024-05-01T10:00:01+00:00".
Definition t2 : string := "2024-05-01T10:00:02+00:00".
Definition t3 : string := "2024-05-01T10:00:03+00:00".

(** One job, enqueued. *)
Definition store_enqueued : Store :=
  snd (enqueue_job sample_request "job-1" (clock_at t0) []).

(** ... then claimed by worker [w]. *)
Definition store_claimed_by (w : string) : Store :=
  snd (worker_claim None (mkClaimRequest w None) None (clock_at t1) store_enqueued).

(** ... then canceled while RUNNING. *)
Definition store_canceled : Store :=
  snd (cancel_job "job-1" (clock_at t2) (store_claimed_by "w1")).

(** The value compared with the configured secret: a missing header
    counts as the empty string. *)
Definition header_value (provided : option string) : string :=
  match provided with
  | Some p => p
  | None => ""
  end.

(** The last [n] entries of a list, all of them when it is shorter. *)
Definition last_n {A : Type} (n : nat) (l : list A) : list A :=
  skipn (length l - n) l.

(** A claimed job with three streamed log lines. *)
Definition store_with_logs : Store :=
  snd (append_job_logs None "job-1"
         (mkAppendLogRequest "w1" ["compiling"; "linking"; "done"])
         None (clock_at t2) (store_claimed_by "w1")).

(** The isolation property read for every worker identifier, the empty
    string included. *)
Definition isolation_for_any_id : Prop :=
  forall (cfg hdr : option string) (now : Clock) (s : Store)
         (jid : string) (j : Job) (A B : string),
    _validate_worker_secret cfg hdr = true ->
    lookup jid s = Some j -> worker_id j = Some A -> B <> A ->
    (forall lines,
        append_job_logs cfg jid (mkAppendLogRequest B lines) hdr now s
        = (inl WorkerMismatch, s)) /\
    (forall code ok msg res,
        complete_job cfg jid (mkCompleteRequest B code ok msg res) hdr now s
        = (inl WorkerMismatch, s)).

(** Eligibility as the specification words it: PENDING, and of the
    preferred runtime whenever a preference is passed. *)
Definition eligible_stated (pref : option string) (j : Job) : bool :=
  JobState_eqb (state j) PENDING &&
  match pref with
  | Some r => (runtime j =? r)
  | None => true
  end.

(** Eligibility with an empty preference counting as no preference. *)
Definition eligible (pref : option string) (j : Job) : bool :=
  JobState_eqb (state j) PENDING &&
  match pref with
  | Some r => if (r =? "") then true else (runtime j =? r)
  | None => true
  end.

(** [j'] is [j] as the claim leaves it. *)
Definition claimed_version (worker : string) (now : Clock) (j j' : Job) : Prop :=
  state j' = CLAIMED /\ worker_id j' = Some worker /\
  claimed_at j' = Some (now 0%nat) /\
  logs j' = logs j ++ [("[" ++ now 1%nat ++ "] CLAIMED by worker " ++ worker)%string] /\
  job_id j' = job_id j /\ created_at j' = created_at j /\ repo j' = repo j /\
  ref j' = ref j /\ runtime j' = runtime j /\ command j' = command j /\
  env j' = env j /\ timeout_seconds j' = timeout_seconds j /\
  resource_limits j' = resource_limits j /\ result j' = result j /\
  started_at j' = started_at j /\ finished_at j' = finished_at j.

(** What a claim does, for a notion [elig] of eligible job: with no
    eligible job it returns none and the store is untouched; otherwise it
    returns the eligible job that no eligible job precedes in time, the
    first such in store order, and rewrites that entry alone. *)
Definition claim_selects (elig : option string -> Job -> bool) : Prop :=
  forall (s : Store) (worker : string) (pref : option string) (now : Clock),
    NoDup (map fst s) ->
    match _atomically_claim_oldest worker pref now s with
    | (None, s') =>
        s' = s /\ (forall jid j, In (jid, j) s -> elig pref j = false)
    | (Some jid, s') =>
        exists pre j post,
          s = pre ++ (jid, j) :: post /\
          elig pref j = true /\
          (forall k j0, In (k, j0) pre -> elig pref j0 = true ->
                        (created_at j0 <=? created_at j) = false) /\
          (forall k j0, In (k, j0) post -> elig pref j0 = true ->
                        (created_at j <=? created_at j0) = true) /\
          exists j', s' = pre ++ (jid, j') :: post /\
                     claimed_version worker now j j'
    end.

(** One caller of [_atomically_claim_oldest]: worker, preference and the
    clock readings of its call. *)
Definition Caller : Type := (string * option string * Clock)%type.

Definition caller_pref (c : Caller) : option string := snd (fst c).

(** The whole body of [_atomically_claim_oldest] runs under [_JOBS_LOCK]
    and awaits nothing inside it, so concurrent calls take effect one
    after the other, in some order [sched] of the callers.  The result
    list gives, in that order, what each caller receives. *)
Fixpoint run_claims (sched : list Caller) (s : Store)
  : list (option string) * Store :=
  match sched with
  | [] => ([], s)
  | (w, pref, now) :: rest =>
      let (r, s1) := _atomically_claim_oldest w pref now s in
      let (rs, s2) := run_claims rest s1 in
      (r :: rs, s2)
  end.

(** The job identifiers handed out. *)
Fixpoint delivered (rs : list (option string)) : list string :=
  match rs with
  | [] => []
  | Some jid :: rest => jid :: delivered rest
  | None :: rest => delivered rest
  end.

(** The one-pending-job property read for any callers, whatever their
    runtime preferences: the job is handed out. *)
Definition one_claim_for_any_callers : Prop :=
  forall (s : Store) (callers sched : list Caller) (jid : string) (j : Job),
    NoDup (map fst s) -> Permutation callers sched ->
    filter is_pending s = [(jid, j)] -> callers <> [] ->
    delivered (fst (run_claims sched s)) = [jid].

(** The identifiers of the PENDING jobs, in store order. *)
Definition pending_ids (s : Store) : list string :=
  map fst (filter is_pending s).

(** Keys are unique and a PENDING job has no worker. *)
Definition store_inv (s : Store) : Prop :=
  NoDup (map fst s) /\
  forall jid j, lookup jid s = Some j -> state j = PENDING -> worker_id j = None.

(** Every worker assignment of [s] is still there in [s']. *)
Definition keeps_workers (s s' : Store) : Prop :=
  forall jid j w,
    lookup jid s = Some j -> worker_id j = Some w ->
    exists j', lookup jid s' = Some j' /\ worker_id j' = Some w.

Definition evolves (s s' : Store) : Prop :=
  store_inv s -> store_inv s' /\ keeps_workers s s'.

(** A rewrite of one job that neither re-enters PENDING nor touches the
    worker of a job that left PENDING. *)
Definition job_update_ok (j j' : Job) : Prop :=
  (state j' = PENDING -> state j = PENDING /\ worker_id j' = worker_id j) /\
  (worker_id j' = worker_id j \/ state j = PENDING).

(** ** Operations and reachable stores *)

Section Operations.

(** The configured [WORKER_SECRET]. *)
Variable cfg : option string.

(** One operation on the store.  [uuid4] hands out an identifier that
    is not yet in use; the claim appears both as the endpoint and as the
    engine alone. *)
Inductive step : Store -> Store -> Prop :=
| step_enqueue req jid now s :
    lookup jid s = None ->
    step s (snd (enqueue_job req jid now s))
| step_claim req hdr now s :
    step s (snd (worker_claim cfg req hdr now s))
| step_claim_oldest w pref now s :
    step s (snd (_atomically_claim_oldest w pref now s))
| step_append jid req hdr now s :
    step s (snd (append_job_logs cfg jid req hdr now s))
| step_complete jid req hdr now s :
    step s (snd (complete_job cfg jid req hdr now s))
| step_cancel jid now s :
    step s (snd (cancel_job jid now s)).

Inductive steps : Store -> Store -> Prop :=
| steps_refl s : steps s s
| steps_step s s1 s2 : step s s1 -> steps s1 s2 -> steps s s2.

Definition reachable (s : Store) : Prop := steps [] s.

End Operations.

(** ** Hybrid file queue *)

(** A character the lexer appends to the current word. *)
Definition word_char (c : N) : bool :=
  negb (is_whitespace c) && negb (is_quote c) && negb (is_escape c).

(** Every line boundary of the text is LF. *)
Definition lf_only (c : N) : bool := negb (is_linebreak c) || (c =? LF)%N.

(** The first character exists and is none of: whitespace, a double
    quote, an opening bracket or brace, a byte-order mark. *)
Definition edge (c : N) : bool :=
  negb (is_space c) && negb (is_ws c) && negb (c =? DQUOTE)%N
  && negb (c =? 91)%N && negb (c =? 123)%N && negb (c =? 65279)%N.

Definition hd_ok (s : str) : bool :=
  match s with
  | c :: _ => edge c
  | [] => false
  end.

Definition last_ok (s : str) : bool := hd_ok (rev s).

(** A command file with a JSON payload:
    the magic header, [SECRET_TOKEN: abc], a blank line and the array
    of "/bin/echo" and "hi". *)
Definition json_cmd_file : str :=
  lit "#hybrid-mode" ++ [LF] ++ lit "SECRET_TOKEN: abc" ++ [LF; LF]
  ++ [91; DQUOTE]%N ++ lit "/bin/echo" ++ [DQUOTE; 44; DQUOTE]%N ++ lit "hi"
  ++ [DQUOTE; 93]%N.

(** The agent's world with that file queued for job [job-7]. *)
Definition json_cmd_queued : Agent.World :=
  Agent.mkWorld [(lit "job-7.cmd", json_cmd_file)] [] [].

(** A subprocess that prints "hi" and exits with 0. *)
Definition echo_hi (argv : list str) (timeout max_output : Z) : Z * str * str :=
  (0%Z, lit "hi" ++ [LF], []).

(** The token the worker writes: none for an absent or empty secret. *)
Definition written_token (hybrid_secret : option str) : option str :=
  match hybrid_secret with
  | Some t => if truthy t then Some t else None
  | None => None
  end.

(** What the agent recovers from the file the worker writes for job [j]
    into an empty queue: the token and the argument list; [None] when
    the file cannot be written, does not parse or does not decode. *)
Definition agent_reads (hybrid_secret : option str) (j : Worker.Job)
  : option (option str * list str) :=
  match Worker._write_cmd_file hybrid_secret j [] with
  | None => None
  | Some (name, queue) =>
      match dir_lookup name queue with
      | None => None
      | Some stored =>
          match Agent.parse_cmd_file (read_text stored) with
          | (token, Some cmd_text, None) =>
              match Agent.build_command cmd_text with
              | (Some argv, None) => Some (token, argv)
              | _ => None
              end
          | _ => None
          end
      end
  end.

(** An argument whose only line boundaries are LF and which holds no
    surrogate. *)
Definition plain_arg (a : str) : bool :=
  forallb (fun c => lf_only c && negb (is_surrogate c)) a.

(** A token without line boundary, surrogate, or whitespace at its ends. *)
Definition plain_token (t : str) : bool :=
  forallb (fun c => negb (is_linebreak c) && negb (is_surrogate c)) t
  && str_eqb (strip t) t.

(** The round trip for every non-empty command and every token. *)
Definition roundtrip_all : Prop :=
  forall (hybrid_secret : option str) (j : Worker.Job),
    Worker.command j <> [] ->
    agent_reads hybrid_secret j
    = Some (written_token hybrid_secret, Worker.command j).



(** ** Further vocabulary *)

(** [j'] differs from [j] at most by a longer log and by the fields the
    lifecycle writes: state, result, worker and the three timestamps. *)
Definition same_identity (j j' : Job) : Prop :=
  job_id j' = job_id j /\ created_at j' = created_at j /\ repo j' = repo j /\
  ref j' = ref j /\ runtime j' = runtime j /\ command j' = command j /\
  env j' = env j /\ timeout_seconds j' = timeout_seconds j /\
  resource_limits j' = resource_limits j /\
  exists more, logs j' = logs j ++ more.

(** A job nobody has touched since it was enqueued. *)
Definition pristine (j : Job) : Prop :=
  worker_id j = None /\ claimed_at j = None /\ started_at j = None /\
  finished_at j = None /\ result j = None.

(** What the operations and the simulated runner may do to a stored
    job: keep its identity and extend its log; leave it untouched as long
    as it stays PENDING; and, once it has left PENDING, keep its worker
    and the time it was claimed. *)
Definition job_evolves (j j' : Job) : Prop :=
  same_identity j j' /\
  (state j' = PENDING ->
   state j = PENDING /\ worker_id j' = worker_id j /\
   claimed_at j' = claimed_at j /\ started_at j' = started_at j /\
   finished_at j' = finished_at j /\ result j' = result j) /\
  (state j <> PENDING ->
   worker_id j' = worker_id j /\ claimed_at j' = claimed_at j).

(** Keys are unique, every job is stored under its own [job_id], and a
    PENDING job is pristine. *)
Definition store_wf (s : Store) : Prop :=
  NoDup (map fst s) /\
  forall jid j, lookup jid s = Some j ->
                job_id j = jid /\ (state j = PENDING -> pristine j).

Definition store_evolves (s s' : Store) : Prop :=
  store_wf s ->
  store_wf s' /\
  forall jid j, lookup jid s = Some j ->
                exists j', lookup jid s' = Some j' /\ job_evolves j j'.

(** The PENDING jobs in the order in which claims without a runtime
    preference take them: by [created_at], oldest first, the earlier
    enqueued first among equals. *)
Definition claim_order (s : Store) : list string :=
  map fst (Py.sort_by (fun item => created_at (snd item)) (filter is_pending s)).

(** A caller that passes no runtime preference: none at all, or the
    empty string. *)
Definition no_preference (c : Caller) : bool :=
  match caller_pref c with
  | Some r => (r =? "")
  | None => true
  end.

(** Two PENDING jobs, the one enqueued second carrying the earlier
    [created_at]. *)
Definition store_two_pending : Store :=
  snd (enqueue_job sample_request "job-2" (clock_at t0)
         (snd (enqueue_job sample_request "job-1" (clock_at t1) []))).

(** A name without a path separator. *)
Definition no_slash (s : str) : bool := forallb (fun c => negb (c =? 47)%N) s.

(** The three errors [parse_cmd_file] returns before it reads any
    header. *)
Definition early_parse_error (e : str) : Prop :=
  e = lit "empty file" \/ e = lit "no content" \/
  e = lit "missing magic header '#hybrid-mode'".

(** A poll that decides nothing: no stop request, the deadline not
    reached, no result file yet. *)
Definition quiet (deadline : Worker.Time) (o : Worker.Observation) : bool :=
  negb (Worker.stop_set o)
  && Worker.time_lt (Worker.clock o) deadline
  && match Worker.result_file o with
     | None => true
     | Some _ => false
     end.

(** The completion the worker reports when the wait ends without a
    result. *)
Definition timed_out (j : Worker.Job) : Worker.Action :=
  Worker.Complete (Worker.job_id j) 124 false
                  (lit "[hybrid] timed out waiting for result").

(** ** The control plane as a whole *)

Section System.

(** The configured [WORKER_SECRET] and the test of the runner on the
    job's ref. *)
Variable cfg : option string.
Variable ref_says_fail : string -> bool.

(** The control plane between two pieces of work: the store, and the
    simulated runs that were scheduled and have not ended, each with the
    job it was scheduled for and the place where it is suspended. *)
Definition Sys : Type := (Store * list (string * SimState))%type.

Definition still_running (jid : string) (st : option SimState)
  : list (string * SimState) :=
  match st with
  | Some st' => [(jid, st')]
  | None => []
  end.

(** One piece of work: a request served, or one of the scheduled runs
    taken from one suspension to the next.  Enqueueing schedules a run
    for the new job.  Whether and when a scheduled run gets its turn is
    left open: every order is allowed, and so is a run that never gets
    one. *)
Inductive sys_step : Sys -> Sys -> Prop :=
| sys_enqueue req jid now s runs :
    lookup jid s = None ->
    sys_step (s, runs) (snd (enqueue_job req jid now s), runs ++ [(jid, SimNew)])
| sys_claim req hdr now s runs :
    sys_step (s, runs) (snd (worker_claim cfg req hdr now s), runs)
| sys_append jid req hdr now s runs :
    sys_step (s, runs) (snd (append_job_logs cfg jid req hdr now s), runs)
| sys_complete jid req hdr now s runs :
    sys_step (s, runs) (snd (complete_job cfg jid req hdr now s), runs)
| sys_cancel jid now s runs :
    sys_step (s, runs) (snd (cancel_job jid now s), runs)
| sys_simulate jid st now s before after :
    sys_step (s, before ++ (jid, st) :: after)
             (fst (_simulate_job_run ref_says_fail jid st now s),
              before
              ++ still_running jid (snd (_simulate_job_run ref_says_fail jid st now s))
              ++ after).

Inductive sys_steps : Sys -> Sys -> Prop :=
| sys_steps_refl y : sys_steps y y
| sys_steps_step y y1 y2 : sys_step y y1 -> sys_steps y1 y2 -> sys_steps y y2.

Definition sys_reachable (y : Sys) : Prop := sys_steps ([], []) y.

End System.

(** The pieces of one simulated run taken one after the other, nothing
    else happening in between, each with its own clock: the store when
    the run has ended or the clocks are used up. *)
Fixpoint simulate_alone (ref_says_fail : string -> bool) (jid : string)
         (st : SimState) (clocks : list Clock) (s : Store) : Store :=
  match clocks with
  | [] => s
  | now :: later =>
      match _simulate_job_run ref_says_fail jid st now s with
      | (s', Some st') => simulate_alone ref_says_fail jid st' later s'
      | (s', None) => s'
      end
  end.

(** The claimed sample job after the first piece of its simulated run. *)
Definition store_simulated : Store :=
  fst (_simulate_job_run (fun _ => false) "job-1" SimNew (clock_at t2)
                         (store_claimed_by "w1")).

(* ================================================================== *)
(** * Properties of the control plane *)
(* ================================================================== *)

(** ** Strings as sort keys *)

Lemma string_compare_refl (s : string) : String.compare s s = Eq.
Proof.
  induction s as [|c s IH]; simpl; [reflexivity|].
  unfold Ascii.compare. rewrite N.compare_refl. exact IH.
Qed.

Lemma string_compare_lt_trans (a b c : string) :
  String.compare a b = Lt -> String.compare b c = Lt -> String.compare a c = Lt.
Proof.
  revert b c.
  induction a as [|x a IH]; intros [|y b] [|z c]; simpl; try discriminate; auto.
  unfold Ascii.compare.
  destruct (N.compare_spec (N_of_ascii x) (N_of_ascii y)) as [Exy|Lxy|Gxy];
    try discriminate;
    destruct (N.compare_spec (N_of_ascii y) (N_of_ascii z)) as [Eyz|Lyz|Gyz];
    try discriminate; intros H1 H2.
  - rewrite Exy, Eyz, N.compare_refl. eauto.
  - rewrite Exy. apply N.compare_lt_iff in Lyz. now rewrite Lyz.
  - rewrite <- Eyz. apply N.compare_lt_iff in Lxy. now rewrite Lxy.
  - assert (L : (N_of_ascii x < N_of_ascii z)%N) by lia.
    apply N.compare_lt_iff in L. now rewrite L.
Qed.

Lemma string_leb_refl (s : string) : (s <=? s) = true.
Proof. unfold String.leb. now rewrite string_compare_refl. Qed.

Lemma string_leb_trans (a b c : string) :
  (a <=? b) = true -> (b <=? c) = true -> (a <=? c) = true.
Proof.
  unfold String.leb.
  destruct (String.compare a b) eqn:Eab; try discriminate;
    destruct (String.compare b c) eqn:Ebc; try discriminate; intros _ _.
  - apply String.compare_eq_iff in Eab, Ebc. subst. now rewrite string_compare_refl.
  - apply String.compare_eq_iff in Eab. subst. now rewrite Ebc.
  - apply String.compare_eq_iff in Ebc. subst. now rewrite Eab.
  - now rewrite (string_compare_lt_trans _ _ _ Eab Ebc).
Qed.

Lemma string_leb_false_flip (a b : string) :
  (a <=? b) = false -> (b <=? a) = true.
Proof.
  intros H. destruct (String.leb_total a b) as [E|E]; congruence.
Qed.

(** ** The head of a stable sort *)

Section SortHead.

Context {A : Type} (key : A -> string).

Lemma hd_insert_by (x : A) (l : list A) :
  hd_error (Py.insert_by key x l) =
  match l with
  | [] => Some x
  | y :: _ => if (key x <=? key y) then Some x else Some y
  end.
Proof. destruct l as [|y ys]; simpl; [reflexivity|]. now destruct (key x <=? key y). Qed.

Lemma hd_sort_by (l : list A) : hd_error (Py.sort_by key l) = first_min key l.
Proof.
  induction l as [|x xs IH]; simpl; [reflexivity|].
  rewrite hd_insert_by, <- IH.
  destruct (Py.sort_by key xs); reflexivity.
Qed.

Lemma first_min_none (l : list A) : first_min key l = None -> l = [].
Proof.
  destruct l as [|x xs]; simpl; [reflexivity|].
  destruct (first_min key xs); [destruct (key x <=? key a)|]; discriminate.
Qed.

Lemma first_min_split (l : list A) (m : A) :
  first_min key l = Some m ->
  exists pre post,
    l = pre ++ m :: post /\
    (forall y, In y pre -> (key y <=? key m) = false) /\
    (forall y, In y post -> (key m <=? key y) = true).
Proof.
  revert m. induction l as [|x xs IH]; simpl; intros m H; [discriminate|].
  destruct (first_min key xs) as [m0|] eqn:E.
  - destruct (IH m0 eq_refl) as (pre & post & -> & Hpre & Hpost).
    destruct (key x <=? key m0) eqn:Le; inversion H; subst; clear H.
    + exists [], (pre ++ m0 :: post). simpl. repeat split; [tauto|].
      intros y Hy. apply in_app_or in Hy. destruct Hy as [Hy|[<-|Hy]]; auto.
      * apply string_leb_trans with (key m0); auto.
        apply string_leb_false_flip; auto.
      * apply string_leb_trans with (key m0); auto.
    + exists (x :: pre), post. simpl. repeat split; auto.
      intros y [<-|Hy]; auto.
  - apply first_min_none in E. subst. inversion H; subst.
    exists [], []. simpl. repeat split; tauto.
Qed.

End SortHead.

(** ** The store as a dictionary *)

Lemma lookup_put_same (jid : string) (j : Job) (s : Store) :
  lookup jid (put jid j s) = Some j.
Proof.
  induction s as [|[k j0] rest IH]; simpl.
  - now rewrite String.eqb_refl.
  - destruct (k =? jid) eqn:E; simpl; rewrite E; auto.
Qed.

Lemma lookup_put_other (k jid : string) (j : Job) (s : Store) :
  k <> jid -> lookup k (put jid j s) = lookup k s.
Proof.
  intros Hne. induction s as [|[k0 j0] rest IH]; simpl.
  - apply String.eqb_neq in Hne. rewrite String.eqb_sym. now rewrite Hne.
  - destruct (k0 =? jid) eqn:E; simpl.
    + apply String.eqb_eq in E. subst k0.
      assert (H : (jid =? k) = false) by (apply String.eqb_neq; congruence).
      now rewrite H.
    + destruct (k0 =? k); auto.
Qed.

Lemma put_keys (jid : string) (j : Job) (s : Store) :
  In jid (map fst s) -> map fst (put jid j s) = map fst s.
Proof.
  induction s as [|[k j0] rest IH]; simpl; [tauto|].
  intros H. destruct (k =? jid) eqn:E; simpl; [reflexivity|].
  f_equal. apply IH. destruct H as [H|H]; auto.
  apply String.eqb_neq in E. congruence.
Qed.

Lemma put_keys_fresh (jid : string) (j : Job) (s : Store) :
  ~ In jid (map fst s) -> map fst (put jid j s) = map fst s ++ [jid].
Proof.
  induction s as [|[k j0] rest IH]; simpl; [reflexivity|].
  intros H. destruct (k =? jid) eqn:E.
  - apply String.eqb_eq in E. tauto.
  - simpl. f_equal. apply IH. tauto.
Qed.

Lemma lookup_some_in (jid : string) (j : Job) (s : Store) :
  lookup jid s = Some j -> In (jid, j) s.
Proof.
  induction s as [|[k j0] rest IH]; simpl; [discriminate|].
  destruct (k =? jid) eqn:E.
  - apply String.eqb_eq in E. intros H. inversion H. subst. now left.
  - auto.
Qed.

Lemma lookup_none_notin (jid : string) (s : Store) :
  lookup jid s = None <-> ~ In jid (map fst s).
Proof.
  induction s as [|[k j0] rest IH]; simpl; [tauto|].
  destruct (k =? jid) eqn:E.
  - apply String.eqb_eq in E. split; [discriminate|tauto].
  - apply String.eqb_neq in E. tauto.
Qed.

Lemma in_lookup (jid : string) (j : Job) (s : Store) :
  NoDup (map fst s) -> In (jid, j) s -> lookup jid s = Some j.
Proof.
  induction s as [|[k j0] rest IH]; simpl; [tauto|].
  intros Hnd [H|H].
  - inversion H. subst. now rewrite String.eqb_refl.
  - inversion Hnd as [|? ? Hnotin Hnd']. subst.
    destruct (k =? jid) eqn:E.
    + apply String.eqb_eq in E. subst k. exfalso. apply Hnotin.
      change jid with (fst (jid, j)). now apply in_map.
    + auto.
Qed.

(** ** Shared-secret validation *)

Lemma or_else_empty (provided : option string) :
  Py.or_else provided "" = header_value provided.
Proof.
  destruct provided as [p|]; simpl; [|reflexivity].
  unfold Py.truthy. destruct (p =? "") eqn:E; simpl; [|reflexivity].
  apply String.eqb_eq in E. now subst.
Qed.

(** C10. Worker-secret validation accepts every request when the
    configured secret is unset or the empty string; with a non-empty
    secret configured, a request is accepted exactly when its header
    value, the empty string for a missing header, equals the secret. *)
Theorem validate_worker_secret_spec
        (configured provided : option string) :
  ((configured = None \/ configured = Some "") ->
   _validate_worker_secret configured provided = true) /\
  (forall secret, configured = Some secret -> secret <> "" ->
     (_validate_worker_secret configured provided = true
      <-> header_value provided = secret)).
Proof.
  split.
  - intros [-> | ->]; reflexivity.
  - intros secret -> Hne. unfold _validate_worker_secret, Py.truthy.
    apply String.eqb_neq in Hne. rewrite Hne. simpl.
    rewrite or_else_empty. apply String.eqb_eq.
Qed.

Lemma validate_worker_secret_spec_witness :
  _validate_worker_secret (Some "") (Some "guess") = true /\
  (_validate_worker_secret (Some "s3cret") None = true <-> "" = "s3cret").
Proof.
  split.
  - apply (proj1 (validate_worker_secret_spec (Some "") (Some "guess"))).
    right. reflexivity.
  - apply (proj2 (validate_worker_secret_spec (Some "s3cret") None) "s3cret").
    + reflexivity.
    + discriminate.
Defined.

(** ** Completion has no terminal-state guard *)

(** What an accepted completion writes, whatever the job's state was. *)
Lemma complete_job_accepted (cfg : option string) (jid : string)
      (req : CompleteRequest) (hdr : option string) (now : Clock)
      (s : Store) (j : Job) :
  _validate_worker_secret cfg hdr = true ->
  lookup jid s = Some j ->
  worker_mismatch j (complete_worker_id req) = false ->
  exists j',
    lookup jid (snd (complete_job cfg jid req hdr now s)) = Some j' /\
    state j' = (if complete_success req then SUCCESS else FAILED) /\
    finished_at j' = Some (now 0%nat) /\
    fst (complete_job cfg jid req hdr now s) = inr (jid, state j').
Proof.
  intros Hv Hl Hm. unfold complete_job, _get_job, _save_job.
  rewrite Hv, Hl, Hm. simpl. rewrite lookup_put_same.
  eexists. split; [reflexivity|]. simpl. auto.
Qed.

(** C1. A job canceled while RUNNING is in the terminal state CANCELED;
    the completion report its worker sends afterwards is accepted and
    rewrites the state to SUCCESS, the result and [finished_at]. *)
Theorem complete_after_cancel_overwrites :
  let req := mkCompleteRequest "w1" 0 true None None in
  let after := complete_job None "job-1" req None (clock_at t3) store_canceled in
  (exists j, lookup "job-1" store_canceled = Some j /\
             state j = CANCELED /\ is_terminal (state j) = true /\
             result j = None /\ finished_at j = Some t2) /\
  fst after = inr ("job-1", SUCCESS) /\
  (exists j', lookup "job-1" (snd after) = Some j' /\
              state j' = SUCCESS /\
              result j' = Some (mkResult 0 "success" None) /\
              finished_at j' = Some t3).
Proof.
  cbv zeta. split; [|split].
  - eexists. split; [vm_compute; reflexivity|]. simpl. auto.
  - vm_compute. reflexivity.
  - eexists. split; [vm_compute; reflexivity|]. simpl. auto.
Qed.

(** ** Reading logs *)

Lemma slice_from_neg_pos {A : Type} (n : Z) (l : list A) :
  (0 < n)%Z -> Py.slice_from (- n) l = last_n (Z.to_nat n) l.
Proof.
  intros Hn. unfold Py.slice_from, last_n.
  assert (E : (- n <? 0)%Z = true) by (apply Z.ltb_lt; lia).
  rewrite E. f_equal. lia.
Qed.

Lemma slice_from_zero {A : Type} (l : list A) : Py.slice_from (- 0) l = l.
Proof. unfold Py.slice_from. simpl. rewrite Z.min_l by lia. reflexivity. Qed.

(** For a count of at least one, the tail read is the last [n] entries. *)
Lemma get_job_logs_positive (jid : string) (n : Z) (s : Store) (j : Job) :
  lookup jid s = Some j -> (0 < n)%Z ->
  get_job_logs jid n s = (inr (last_n (Z.to_nat n) (logs j)), s).
Proof.
  intros Hl Hn. unfold get_job_logs, _get_job. rewrite Hl.
  now rewrite slice_from_neg_pos.
Qed.

(** The details read returns the last 1000 entries and leaves the store
    as it was. *)
Lemma get_job_capped (jid : string) (s : Store) (j : Job) :
  lookup jid s = Some j ->
  exists d, get_job jid s = (inr d, s) /\
            logs d = last_n 1000 (logs j) /\
            (length (logs d) <= 1000)%nat.
Proof.
  intros Hl. unfold get_job, _get_job. rewrite Hl.
  eexists. split; [reflexivity|]. simpl.
  pose proof (slice_from_neg_pos 1000 (logs j) eq_refl) as E.
  change (Z.to_nat 1000) with 1000%nat in E.
  change (- (1000))%Z with (-1000)%Z in E. rewrite E. split; [reflexivity|].
  unfold last_n. rewrite length_skipn. lia.
Qed.

Lemma get_job_logs_zero (jid : string) (s : Store) (j : Job) :
  lookup jid s = Some j -> get_job_logs jid 0 s = (inr (logs j), s).
Proof.
  intros Hl. unfold get_job_logs, _get_job. rewrite Hl.
  now rewrite slice_from_zero.
Qed.

(** C9. With a requested count of 0 the tail read returns every stored
    entry of the job (five here), not the last 0 entries. *)
Theorem get_job_logs_tail_zero_returns_all :
  exists j,
    lookup "job-1" store_with_logs = Some j /\
    length (logs j) = 5%nat /\
    last_n 0 (logs j) = [] /\
    get_job_logs "job-1" 0 store_with_logs = (inr (logs j), store_with_logs).
Proof.
  eexists. split; [vm_compute; reflexivity|].
  split; [reflexivity|]. split; [reflexivity|]. vm_compute. reflexivity.
Qed.

(** ** Worker isolation *)

(** Appending never touches anything but the log. *)
Lemma append_job_logs_accepted (cfg : option string) (jid : string)
      (req : AppendLogRequest) (hdr : option string) (now : Clock)
      (s : Store) (j : Job) :
  _validate_worker_secret cfg hdr = true ->
  lookup jid s = Some j ->
  worker_mismatch j (append_worker_id req) = false ->
  exists j',
    append_job_logs cfg jid req hdr now s = (inr tt, put jid j' s) /\
    lookup jid (put jid j' s) = Some j' /\
    worker_id j' = worker_id j /\ state j' = state j /\ result j' = result j /\
    logs j' = logs j ++
              map (fun line => ("[" ++ now 0%nat ++ "] " ++ append_worker_id req
                                ++ ": " ++ line)%string) (append_lines req).
Proof.
  intros Hv Hl Hm. unfold append_job_logs, _get_job, _save_job.
  rewrite Hv, Hl, Hm. simpl.
  eexists. split; [reflexivity|]. rewrite lookup_put_same. simpl. auto.
Qed.

(** C4, as stated, fails for the job claimed by the worker whose
    identifier is the empty string: worker "B" may append to it and
    complete it. *)
Lemma isolation_for_any_id_fails : ~ isolation_for_any_id.
Proof.
  intros H.
  assert (exists j, lookup "job-1" (store_claimed_by "") = Some j /\
                    worker_id j = Some "") as (j & Hl & Hw).
  { eexists. split; [vm_compute; reflexivity|reflexivity]. }
  destruct (H None None (clock_at t2) (store_claimed_by "") "job-1" j "" "B"
              eq_refl Hl Hw ltac:(discriminate)) as [Ha _].
  specialize (Ha ["x"]). vm_compute in Ha. discriminate Ha.
Qed.

(** C4, amended. For a stored job assigned to a worker with a non-empty
    identifier A, an append or complete call carrying another identifier
    B is rejected and the store is left as it was: with WorkerMismatch
    when the call passes the worker-secret check, and with InvalidSecret,
    which is checked first, when it does not.  For a job with no worker
    assigned, an append that passes the worker-secret check is accepted,
    extends the log and leaves [worker_id] unset; one that does not pass
    it is rejected with InvalidSecret and changes nothing. *)
Theorem worker_isolation
        (cfg hdr : option string) (now : Clock) (s : Store)
        (jid : string) (j : Job) (B : string)
        (Hjob : lookup jid s = Some j) :
  (forall A, worker_id j = Some A -> A <> "" -> B <> A ->
     let rejection :=
       if _validate_worker_secret cfg hdr then WorkerMismatch else InvalidSecret in
     (forall lines,
         append_job_logs cfg jid (mkAppendLogRequest B lines) hdr now s
         = (inl rejection, s)) /\
     (forall code ok msg res,
         complete_job cfg jid (mkCompleteRequest B code ok msg res) hdr now s
         = (inl rejection, s))) /\
  (worker_id j = None ->
   forall lines,
     if _validate_worker_secret cfg hdr
     then
       exists s' j',
         append_job_logs cfg jid (mkAppendLogRequest B lines) hdr now s = (inr tt, s') /\
         lookup jid s' = Some j' /\ worker_id j' = None /\ state j' = state j /\
         logs j' = logs j ++
                   map (fun line => ("[" ++ now 0%nat ++ "] " ++ B ++ ": " ++ line)%string)
                       lines
     else
       append_job_logs cfg jid (mkAppendLogRequest B lines) hdr now s
       = (inl InvalidSecret, s)).
Proof.
  split.
  - intros A HA Hne HB.
    assert (Hm : worker_mismatch j B = true).
    { unfold worker_mismatch, Py.truthy. rewrite HA.
      apply String.eqb_neq in Hne, HB. now rewrite Hne, HB. }
    cbv zeta. unfold append_job_logs, complete_job, _get_job.
    destruct (_validate_worker_secret cfg hdr); simpl; [|split; reflexivity].
    rewrite Hjob, Hm. split; reflexivity.
  - intros HN lines.
    destruct (_validate_worker_secret cfg hdr) eqn:Hsecret.
    + destruct (append_job_logs_accepted cfg jid (mkAppendLogRequest B lines)
                                         hdr now s j Hsecret Hjob)
        as (j' & Heq & Hl & Hw & Hs & _ & Hlog).
      { unfold worker_mismatch. now rewrite HN. }
      exists (put jid j' s), j'. simpl in *. repeat split; auto; congruence.
    + unfold append_job_logs. now rewrite Hsecret.
Qed.

Lemma worker_isolation_witness :
  append_job_logs None "job-1" (mkAppendLogRequest "w2" ["x"]) None (clock_at t2)
                  (store_claimed_by "w1")
  = (inl WorkerMismatch, store_claimed_by "w1") /\
  complete_job (Some "s3cret") "job-1" (mkCompleteRequest "w2" 0 true None None)
               (Some "guess") (clock_at t2) (store_claimed_by "w1")
  = (inl InvalidSecret, store_claimed_by "w1").
Proof.
  split.
  - refine (proj1 (proj1 (worker_isolation None None (clock_at t2)
                            (store_claimed_by "w1") "job-1" _ "w2" eq_refl)
                         "w1" eq_refl _ _) ["x"]);
      discriminate.
  - refine (proj2 (proj1 (worker_isolation (Some "s3cret") (Some "guess") (clock_at t2)
                            (store_claimed_by "w1") "job-1" _ "w2" eq_refl)
                         "w1" eq_refl _ _) 0%Z true None None);
      discriminate.
Defined.

(** ** The claim engine *)

Lemma filter_split {A : Type} (f : A -> bool) (l l1 l2 : list A) (x : A) :
  filter f l = l1 ++ x :: l2 ->
  exists p q, l = p ++ x :: q /\ filter f p = l1 /\ filter f q = l2 /\ f x = true.
Proof.
  revert l1. induction l as [|a l IH]; simpl; intros l1 H.
  - destruct l1; discriminate.
  - destruct (f a) eqn:Fa.
    + destruct l1 as [|b l1]; simpl in H; inversion H; subst.
      * exists [], l. simpl. auto.
      * destruct (IH l1 H2) as (p & q & -> & Hp & Hq & Hx).
        exists (b :: p), q. simpl. rewrite Fa, Hp. auto.
    + destruct (IH l1 H) as (p & q & -> & Hp & Hq & Hx).
      exists (a :: p), q. simpl. rewrite Fa. auto.
Qed.

Lemma pending_for_filter (pref : option string) (s : Store) :
  pending_for pref s = filter (fun item => eligible pref (snd item)) s.
Proof.
  unfold pending_for, eligible, Py.truthy.
  destruct pref as [r|].
  - destruct (r =? "") eqn:E; simpl.
    + apply filter_ext. intros [k j]. unfold is_pending. simpl.
      now rewrite andb_true_r.
    + induction s as [|[k j] rest IH]; simpl; [reflexivity|].
      unfold is_pending at 1. simpl.
      destruct (JobState_eqb (state j) PENDING); simpl; [|exact IH].
      destruct (runtime j =? r); simpl; now rewrite IH.
  - apply filter_ext. intros [k j]. unfold is_pending. simpl.
    now rewrite andb_true_r.
Qed.

Lemma put_split (jid : string) (j j' : Job) (pre post : Store) :
  ~ In jid (map fst pre) ->
  put jid j' (pre ++ (jid, j) :: post) = pre ++ (jid, j') :: post.
Proof.
  induction pre as [|[k j0] pre IH]; simpl; intros H.
  - now rewrite String.eqb_refl.
  - destruct (k =? jid) eqn:E.
    + apply String.eqb_eq in E. tauto.
    + f_equal. apply IH. tauto.
Qed.

Lemma claim_selects_eligible : claim_selects eligible.
Proof.
  intros s worker pref now Hnd. unfold _atomically_claim_oldest.
  destruct (Py.sort_by _ (pending_for pref s)) as [|[jid j] tl] eqn:Es.
  - split; [reflexivity|]. intros jid j Hin.
    pose proof (hd_sort_by (fun item : string * Job => created_at (snd item))
                           (pending_for pref s)) as Hh.
    rewrite Es in Hh. simpl in Hh. symmetry in Hh. apply first_min_none in Hh.
    rewrite pending_for_filter in Hh.
    destruct (eligible pref j) eqn:El; [|reflexivity].
    assert (Hf : In (jid, j) (filter (fun item => eligible pref (snd item)) s))
      by (apply filter_In; auto).
    rewrite Hh in Hf. destruct Hf.
  - pose proof (hd_sort_by (fun item : string * Job => created_at (snd item))
                           (pending_for pref s)) as Hh.
    rewrite Es in Hh. simpl in Hh. symmetry in Hh.
    apply first_min_split in Hh. destruct Hh as (l1 & l2 & Hsplit & Hpre & Hpost).
    rewrite pending_for_filter in Hsplit.
    apply filter_split in Hsplit.
    destruct Hsplit as (pre & post & -> & Hfp & Hfq & Hel). simpl in Hel.
    exists pre, j, post. split; [reflexivity|]. split; [exact Hel|].
    split; [|split].
    + intros k j0 Hin El. apply (Hpre (k, j0)). rewrite <- Hfp.
      apply filter_In. auto.
    + intros k j0 Hin El. apply (Hpost (k, j0)). rewrite <- Hfq.
      apply filter_In. auto.
    + eexists. split.
      * apply put_split. rewrite map_app in Hnd. simpl in Hnd.
        apply NoDup_remove_2 in Hnd. intros Hc. apply Hnd.
        apply in_or_app. now left.
      * unfold claimed_version. simpl. repeat split; reflexivity.
Qed.

Lemma store_enqueued_keys : NoDup (map fst store_enqueued).
Proof. vm_compute. constructor; [intros []|constructor]. Qed.

(** C2, as stated, fails when the preference passed is the empty string:
    the claim then takes the "container" job although its runtime is not
    the one asked for. *)
Lemma claim_selects_stated_fails : ~ claim_selects eligible_stated.
Proof.
  intros H.
  specialize (H store_enqueued "w1" (Some "") (clock_at t1)).
  pose proof store_enqueued_keys as Hnd.
  specialize (H Hnd).
  assert (E : fst (_atomically_claim_oldest "w1" (Some "") (clock_at t1) store_enqueued)
              = Some "job-1") by (vm_compute; reflexivity).
  destruct (_atomically_claim_oldest "w1" (Some "") (clock_at t1) store_enqueued)
    as [[jid|] s']; simpl in E; [|discriminate].
  destruct H as (pre & j & post & Hs & Hel & _).
  destruct pre as [|p pre].
  - vm_compute in Hs. inversion Hs; subst. vm_compute in Hel. discriminate.
  - vm_compute in Hs. inversion Hs as [[Hp Hnil]]. destruct pre; discriminate.
Qed.

(** C2, amended. A claim selects, among the PENDING jobs (restricted to
    the preferred runtime when a non-empty preference is passed; an empty
    preference restricts nothing), the one with the earliest [created_at],
    the first in insertion order among equals; it sets its state to
    CLAIMED, its [worker_id] and its [claimed_at], and appends one log
    line; with no eligible job it returns none and changes nothing. *)
Theorem claim_oldest_selects_eligible : claim_selects eligible.
Proof. exact claim_selects_eligible. Qed.

Lemma claim_oldest_selects_eligible_witness :
  NoDup (map fst store_enqueued) /\
  exists s', _atomically_claim_oldest "w1" (Some "container") (clock_at t1)
                                      store_enqueued = (Some "job-1", s').
Proof.
  pose proof store_enqueued_keys as Hnd.
  split; [exact Hnd|].
  pose proof (claim_oldest_selects_eligible store_enqueued "w1" (Some "container")
                                            (clock_at t1) Hnd) as H.
  destruct (_atomically_claim_oldest "w1" (Some "container") (clock_at t1)
                                     store_enqueued) as [[jid|] s'].
  - destruct H as (pre & j & post & Hs & _). exists s'.
    destruct pre as [|p pre].
    + vm_compute in Hs. inversion Hs. reflexivity.
    + vm_compute in Hs. inversion Hs as [[Hp Hnil]]. destruct pre; discriminate.
  - destruct H as [_ H]. specialize (H "job-1" _ (or_introl eq_refl)).
    vm_compute in H. discriminate.
Defined.

(** ** Concurrent claims *)

Lemma pending_ids_app (a b : Store) :
  pending_ids (a ++ b) = pending_ids a ++ pending_ids b.
Proof. unfold pending_ids. now rewrite filter_app, map_app. Qed.

Lemma eligible_pending (pref : option string) (j : Job) :
  eligible pref j = true -> state j = PENDING.
Proof.
  unfold eligible. intros H. apply andb_true_iff in H. destruct H as [H _].
  destruct (state j); simpl in H; congruence.
Qed.

Lemma pending_ids_incl_keys (s : Store) : incl (pending_ids s) (map fst s).
Proof.
  intros k Hk. unfold pending_ids in Hk. apply in_map_iff in Hk.
  destruct Hk as (x & <- & Hx). apply filter_In in Hx. apply in_map. tauto.
Qed.

Lemma NoDup_pending_ids (s : Store) : NoDup (map fst s) -> NoDup (pending_ids s).
Proof.
  unfold pending_ids. induction s as [|[k j] rest IH]; simpl; intros H.
  - constructor.
  - inversion H as [|? ? Hn Hr]; subst.
    destruct (is_pending (k, j)); simpl; auto.
    constructor; auto. intros Hc. apply Hn.
    apply (pending_ids_incl_keys rest). exact Hc.
Qed.

(** The effect of one claim on the PENDING jobs. *)
Lemma claim_oldest_pending (w : string) (pref : option string) (now : Clock)
      (s : Store) :
  NoDup (map fst s) ->
  match _atomically_claim_oldest w pref now s with
  | (None, s') =>
      s' = s /\ (forall jid j, In (jid, j) s -> eligible pref j = false)
  | (Some jid, s') =>
      map fst s' = map fst s /\
      exists a b, pending_ids s = a ++ jid :: b /\ pending_ids s' = a ++ b
  end.
Proof.
  intros Hnd. pose proof (claim_selects_eligible s w pref now Hnd) as H.
  destruct (_atomically_claim_oldest w pref now s) as [[jid|] s']; [|exact H].
  destruct H as (pre & j & post & -> & Hel & _ & _ & j' & -> & Hc).
  split.
  - rewrite !map_app. reflexivity.
  - exists (pending_ids pre), (pending_ids post).
    rewrite !pending_ids_app.
    apply eligible_pending in Hel. destruct Hc as (Hs & _).
    assert (E1 : pending_ids ((jid, j) :: post) = jid :: pending_ids post).
    { unfold pending_ids. simpl. unfold is_pending at 1. simpl.
      now rewrite Hel. }
    assert (E2 : pending_ids ((jid, j') :: post) = pending_ids post).
    { unfold pending_ids. simpl. unfold is_pending at 1. simpl.
      now rewrite Hs. }
    rewrite E1, E2. auto.
Qed.

Lemma run_claims_delivered (sched : list Caller) (s : Store) :
  NoDup (map fst s) ->
  NoDup (delivered (fst (run_claims sched s))) /\
  incl (delivered (fst (run_claims sched s))) (pending_ids s).
Proof.
  revert s. induction sched as [|[[w pref] now] rest IH]; intros s Hnd; simpl.
  - split; [constructor|intros x []].
  - pose proof (claim_oldest_pending w pref now s Hnd) as H.
    destruct (_atomically_claim_oldest w pref now s) as [[jid|] s1].
    + destruct H as (Hk & a & b & Hs & Hs1).
      assert (Hnd1 : NoDup (map fst s1)) by (rewrite Hk; exact Hnd).
      destruct (IH s1 Hnd1) as [IH1 IH2].
      destruct (run_claims rest s1) as [rs s2]. simpl in *.
      pose proof (NoDup_pending_ids s Hnd) as Hp. rewrite Hs in Hp.
      split.
      * constructor; auto. intros Hc. apply IH2 in Hc. rewrite Hs1 in Hc.
        apply NoDup_remove_2 in Hp. contradiction.
      * intros x [<-|Hx].
        -- rewrite Hs. apply in_or_app. right. now left.
        -- apply IH2 in Hx. rewrite Hs1 in Hx. rewrite Hs.
           apply in_app_or in Hx. apply in_or_app. simpl. tauto.
    + destruct H as [-> _]. destruct (IH s Hnd) as [IH1 IH2].
      destruct (run_claims rest s) as [rs s2]. simpl in *. auto.
Qed.

Lemma run_claims_none_pending (sched : list Caller) (s : Store) :
  NoDup (map fst s) -> pending_ids s = [] ->
  fst (run_claims sched s) = repeat None (length sched).
Proof.
  revert s. induction sched as [|[[w pref] now] rest IH]; intros s Hnd Hp; simpl.
  - reflexivity.
  - pose proof (claim_oldest_pending w pref now s Hnd) as H.
    destruct (_atomically_claim_oldest w pref now s) as [[jid|] s1].
    + destruct H as (_ & a & b & Hs & _). rewrite Hp in Hs.
      destruct a; discriminate.
    + destruct H as [-> _]. specialize (IH s Hnd Hp).
      destruct (run_claims rest s) as [rs s2]. simpl in *. now rewrite IH.
Qed.

Lemma delivered_repeat_none (n : nat) : delivered (repeat None n) = [].
Proof. induction n; simpl; auto. Qed.

Lemma run_claims_length (sched : list Caller) (s : Store) :
  length (fst (run_claims sched s)) = length sched.
Proof.
  revert s. induction sched as [|[[w pref] now] rest IH]; intros s; simpl;
    [reflexivity|].
  destruct (_atomically_claim_oldest w pref now s) as [r s1].
  specialize (IH s1). destruct (run_claims rest s1) as [rs s2]. simpl in *.
  now rewrite IH.
Qed.

Lemma existsb_permutation {A : Type} (f : A -> bool) (l l' : list A) :
  Permutation l l' -> existsb f l = existsb f l'.
Proof.
  intros H. destruct (existsb f l) eqn:E; symmetry.
  - apply existsb_exists in E. destruct E as (x & Hx & Hf).
    apply existsb_exists. exists x. split; [|exact Hf].
    now apply (Permutation_in _ H).
  - destruct (existsb f l') eqn:E'; [|reflexivity].
    apply existsb_exists in E'. destruct E' as (x & Hx & Hf).
    assert (Ht : existsb f l = true).
    { apply existsb_exists. exists x. split; [|exact Hf].
      apply Permutation_sym in H. now apply (Permutation_in _ H). }
    congruence.
Qed.

(** With one PENDING job, the first caller whose preference admits it
    takes it, and nobody else gets anything. *)
Lemma run_claims_one_pending (sched : list Caller) (s : Store)
      (jid : string) (j : Job) :
  NoDup (map fst s) -> filter is_pending s = [(jid, j)] ->
  delivered (fst (run_claims sched s))
  = if existsb (fun c => eligible (caller_pref c) j) sched then [jid] else [].
Proof.
  intros Hnd Hone.
  assert (Hp : pending_ids s = [jid]) by (unfold pending_ids; now rewrite Hone).
  assert (Hin : In (jid, j) s).
  { assert (Hf : In (jid, j) (filter is_pending s)) by (rewrite Hone; now left).
    apply filter_In in Hf. tauto. }
  induction sched as [|[[w pref] now] rest IH]; [reflexivity|].
  cbn [existsb]. unfold caller_pref at 1. cbn [fst snd].
  simpl run_claims.
  pose proof (claim_oldest_pending w pref now s Hnd) as H.
  pose proof (claim_selects_eligible s w pref now Hnd) as Hsel.
  destruct (_atomically_claim_oldest w pref now s) as [[jid'|] s1].
  - destruct H as (Hk & a & b & Hs & Hs1). rewrite Hp in Hs.
    assert (a = [] /\ jid' = jid /\ b = []) as (-> & -> & ->).
    { destruct a as [|x a]; simpl in Hs; inversion Hs; subst; auto.
      destruct a; discriminate. }
    destruct Hsel as (pre & j0 & post & Hsplit & Hel & _).
    assert (Hj0 : j0 = j).
    { assert (Hin0 : In (jid, j0) s)
        by (rewrite Hsplit; apply in_or_app; right; now left).
      pose proof (in_lookup jid j0 s Hnd Hin0) as L0.
      pose proof (in_lookup jid j s Hnd Hin) as L. congruence. }
    subst j0. rewrite Hel. cbn [orb].
    assert (Hnd1 : NoDup (map fst s1)) by (rewrite Hk; exact Hnd).
    pose proof (run_claims_none_pending rest s1 Hnd1 Hs1) as Hr.
    destruct (run_claims rest s1) as [rs s2]. simpl in *.
    now rewrite Hr, delivered_repeat_none.
  - destruct H as [-> Hnone]. rewrite (Hnone jid j Hin). cbn [orb].
    destruct (run_claims rest s) as [rs s2]. simpl in *. exact IH.
Qed.

(** C3, as stated, fails when no caller's runtime preference admits the
    one PENDING job: two callers asking for "wasm" both receive nothing
    while the "container" job stays PENDING. *)
Lemma one_claim_for_any_callers_fails : ~ one_claim_for_any_callers.
Proof.
  intros H.
  specialize (H store_enqueued
                [("w1", Some "wasm", clock_at t1); ("w2", Some "wasm", clock_at t2)]
                [("w1", Some "wasm", clock_at t1); ("w2", Some "wasm", clock_at t2)]
                "job-1"
                (mkJob "job-1" t0 PENDING "acme/site" "main" "container"
                       ["npm"; "test"] [] 900 [("cpu", 1%Z); ("memory_mb", 1024%Z)]
                       [] None None None None None)
                store_enqueued_keys (Permutation_refl _) eq_refl).
  assert (Hne : [("w1", Some "wasm", clock_at t1); ("w2", Some "wasm", clock_at t2)]
                <> @nil Caller) by discriminate.
  specialize (H Hne). vm_compute in H. discriminate H.
Qed.

(** C3, amended. Concurrent claims take effect in some order [sched] of
    the callers.  Whatever the store and the order, no job identifier is
    handed to two callers.  When the store holds exactly one PENDING job
    and the preference of each of the N >= 1 callers admits it (no
    preference, the empty one, or the job's runtime), the caller
    scheduled first receives that job and the other N-1 callers receive
    none.  Whatever the preferences, every caller gets an answer and the
    job is handed out, once, exactly when some caller's preference
    admits it; when none does, all N callers receive none. *)
Theorem at_most_one_claim
        (s : Store) (callers sched : list Caller)
        (Hstore : NoDup (map fst s))
        (Hsched : Permutation callers sched) :
  NoDup (delivered (fst (run_claims sched s))) /\
  (forall jid j,
      filter is_pending s = [(jid, j)] ->
      callers <> [] ->
      (forall c, In c callers -> eligible (caller_pref c) j = true) ->
      fst (run_claims sched s) = Some jid :: repeat None (length callers - 1) /\
      delivered (fst (run_claims sched s)) = [jid]) /\
  (forall jid j,
      filter is_pending s = [(jid, j)] ->
      length (fst (run_claims sched s)) = length callers /\
      delivered (fst (run_claims sched s))
      = if existsb (fun c => eligible (caller_pref c) j) callers then [jid] else []).
Proof.
  split; [apply run_claims_delivered; exact Hstore|]. split.
  2:{ intros jid j Hone. split.
      - rewrite run_claims_length. symmetry. now apply Permutation_length.
      - rewrite (existsb_permutation _ _ _ Hsched).
        now apply run_claims_one_pending. }
  intros jid j Hone Hne Hel.
  assert (Hlen : length sched = length callers)
    by (symmetry; apply Permutation_length; exact Hsched).
  destruct sched as [|[[w pref] now] rest].
  - apply Permutation_sym, Permutation_nil in Hsched. contradiction.
  - assert (Hfirst : eligible pref j = true).
    { apply (Hel (w, pref, now)). apply Permutation_sym in Hsched.
      apply (Permutation_in _ Hsched). now left. }
    assert (Hp : pending_ids s = [jid]) by (unfold pending_ids; now rewrite Hone).
    assert (Hin : In (jid, j) s).
    { assert (Hf : In (jid, j) (filter is_pending s)) by (rewrite Hone; now left).
      apply filter_In in Hf. tauto. }
    simpl. pose proof (claim_oldest_pending w pref now s Hstore) as H.
    destruct (_atomically_claim_oldest w pref now s) as [[jid'|] s1].
    + destruct H as (Hk & a & b & Hs & Hs1). rewrite Hp in Hs.
      assert (a = [] /\ jid' = jid /\ b = []) as (-> & -> & ->).
      { destruct a as [|x a]; simpl in Hs; inversion Hs; subst; auto.
        destruct a; discriminate. }
      assert (Hnd1 : NoDup (map fst s1)) by (rewrite Hk; exact Hstore).
      pose proof (run_claims_none_pending rest s1 Hnd1 Hs1) as Hr.
      destruct (run_claims rest s1) as [rs s2]. simpl in *.
      rewrite Hr. replace (length callers - 1)%nat with (length rest) by lia.
      split; [reflexivity|]. apply f_equal, delivered_repeat_none.
    + destruct H as [_ H]. rewrite (H jid j Hin) in Hfirst. discriminate.
Qed.

Lemma at_most_one_claim_witness :
  fst (run_claims [("w2", Some "container", clock_at t2);
                   ("w1", None, clock_at t1);
                   ("w3", Some "", clock_at t3)] store_enqueued)
  = [Some "job-1"; None; None].
Proof.
  pose proof store_enqueued_keys as Hnd.
  refine (proj1 (proj1 (proj2 (at_most_one_claim store_enqueued
                   [("w1", None, clock_at t1);
                    ("w2", Some "container", clock_at t2);
                    ("w3", Some "", clock_at t3)]
                   [("w2", Some "container", clock_at t2);
                    ("w1", None, clock_at t1);
                    ("w3", Some "", clock_at t3)] Hnd _))
                 "job-1" _ eq_refl _ _)).
  - apply perm_swap.
  - discriminate.
  - intros c [<-|[<-|[<-|[]]]]; reflexivity.
Defined.

(** ** Reachable stores *)

Section Reachability.

Variable cfg : option string.

Lemma evolves_refl (s : Store) : evolves s s.
Proof. intros H. split; [exact H|]. intros jid j w Hl Hw. eauto. Qed.

Lemma evolves_trans (s1 s2 s3 : Store) :
  evolves s1 s2 -> evolves s2 s3 -> evolves s1 s3.
Proof.
  intros H12 H23 H1. destruct (H12 H1) as [H2 K12].
  destruct (H23 H2) as [H3 K23]. split; [exact H3|].
  intros jid j w Hl Hw. destruct (K12 jid j w Hl Hw) as (j2 & Hl2 & Hw2).
  eauto.
Qed.

Lemma lookup_some_key (jid : string) (j : Job) (s : Store) :
  lookup jid s = Some j -> In jid (map fst s).
Proof.
  intros H. apply lookup_some_in in H.
  change jid with (fst (jid, j)). now apply in_map.
Qed.

Lemma evolves_put (jid : string) (j j' : Job) (s : Store) :
  lookup jid s = Some j -> job_update_ok j j' -> evolves s (put jid j' s).
Proof.
  intros Hl [Hp Hw] [Hnd Hinv]. split; [split|].
  - rewrite put_keys; [exact Hnd|]. eapply lookup_some_key; eauto.
  - intros k j0 Hk Hs. destruct (String.eqb_spec k jid) as [->|Hne].
    + rewrite lookup_put_same in Hk. inversion Hk; subst j0.
      destruct (Hp Hs) as [Hs0 ->]. eauto.
    + rewrite lookup_put_other in Hk by exact Hne. eauto.
  - intros k j0 w Hk Hw0. destruct (String.eqb_spec k jid) as [->|Hne].
    + rewrite Hl in Hk. inversion Hk; subst j0.
      exists j'. rewrite lookup_put_same. split; [reflexivity|].
      destruct Hw as [->|Hs]; [exact Hw0|].
      rewrite (Hinv jid j Hl Hs) in Hw0. discriminate.
    + exists j0. rewrite lookup_put_other by exact Hne. auto.
Qed.

Lemma evolves_put_fresh (jid : string) (j' : Job) (s : Store) :
  lookup jid s = None -> state j' = PENDING -> worker_id j' = None ->
  evolves s (put jid j' s).
Proof.
  intros Hl Hs Hw [Hnd Hinv]. split; [split|].
  - apply lookup_none_notin in Hl. rewrite put_keys_fresh by exact Hl.
    apply NoDup_app; [exact Hnd|repeat constructor; intros []|].
    intros x Hx [<-|[]]. contradiction.
  - intros k j0 Hk Hs0. destruct (String.eqb_spec k jid) as [->|Hne].
    + rewrite lookup_put_same in Hk. inversion Hk; subst. exact Hw.
    + rewrite lookup_put_other in Hk by exact Hne. eauto.
  - intros k j0 w Hk Hw0. destruct (String.eqb_spec k jid) as [->|Hne].
    + rewrite Hl in Hk. discriminate.
    + exists j0. rewrite lookup_put_other by exact Hne. auto.
Qed.

(** The claim engine either leaves the store alone or rewrites one
    PENDING job into its claimed version. *)
Lemma claim_oldest_put (w : string) (pref : option string) (now : Clock)
      (s : Store) :
  NoDup (map fst s) ->
  match _atomically_claim_oldest w pref now s with
  | (None, s') => s' = s
  | (Some jid, s') =>
      exists j j', lookup jid s = Some j /\ state j = PENDING /\
                   s' = put jid j' s /\ state j' = CLAIMED /\
                   worker_id j' = Some w
  end.
Proof.
  intros Hnd. pose proof (claim_selects_eligible s w pref now Hnd) as H.
  destruct (_atomically_claim_oldest w pref now s) as [[jid|] s']; [|tauto].
  destruct H as (pre & j & post & -> & Hel & _ & _ & j' & -> & Hc).
  exists j, j'. split; [|split; [|split; [|split]]].
  - apply in_lookup; [exact Hnd|]. apply in_or_app. right. now left.
  - eapply eligible_pending; eauto.
  - symmetry. apply put_split. rewrite map_app in Hnd. simpl in Hnd.
    apply NoDup_remove_2 in Hnd. intros Hc'. apply Hnd.
    apply in_or_app. now left.
  - apply Hc.
  - apply Hc.
Qed.

Lemma claim_oldest_evolves (w : string) (pref : option string) (now : Clock)
      (s : Store) :
  evolves s (snd (_atomically_claim_oldest w pref now s)).
Proof.
  intros Hinv. pose proof (claim_oldest_put w pref now s (proj1 Hinv)) as H.
  destruct (_atomically_claim_oldest w pref now s) as [[jid|] s']; simpl.
  - destruct H as (j & j' & Hl & Hs & -> & Hs' & Hw).
    apply (evolves_put jid j j' s Hl); [|exact Hinv].
    split; [rewrite Hs'; discriminate|auto].
  - subst. now apply evolves_refl.
Qed.

Lemma step_evolves (s s' : Store) : step cfg s s' -> evolves s s'.
Proof.
  intros Hstep. destruct Hstep.
  - (* enqueue *)
    unfold enqueue_job, _save_job. simpl.
    apply evolves_put_fresh; auto.
  - (* worker_claim *)
    unfold worker_claim.
    destruct (negb (_validate_worker_secret cfg hdr)); [apply evolves_refl|].
    pose proof (claim_oldest_evolves (claim_worker_id req)
                  (claim_runtime_pref req) now s) as He.
    destruct (_atomically_claim_oldest (claim_worker_id req)
                (claim_runtime_pref req) now s) as [[jid|] s1]; simpl in *;
      [|exact He].
    destruct (negb (Py.truthy jid)); [exact He|].
    unfold _get_job. destruct (lookup jid s1) as [job|] eqn:Hl; [|exact He].
    simpl. eapply evolves_trans; [exact He|].
    unfold _save_job. eapply evolves_put; [exact Hl|].
    split.
    + destruct (Py.truthy_opt (started_at job)); simpl; discriminate.
    + left. destruct (Py.truthy_opt (started_at job)); reflexivity.
  - (* engine *)
    apply claim_oldest_evolves.
  - (* append *)
    unfold append_job_logs.
    destruct (negb (_validate_worker_secret cfg hdr)); [apply evolves_refl|].
    unfold _get_job. destruct (lookup jid s) as [j|] eqn:Hl; [|apply evolves_refl].
    destruct (worker_mismatch j (append_worker_id req)); [apply evolves_refl|].
    simpl. unfold _save_job. eapply evolves_put; [exact Hl|].
    split; simpl; auto.
  - (* complete *)
    unfold complete_job.
    destruct (negb (_validate_worker_secret cfg hdr)); [apply evolves_refl|].
    unfold _get_job. destruct (lookup jid s) as [j|] eqn:Hl; [|apply evolves_refl].
    destruct (worker_mismatch j (complete_worker_id req)); [apply evolves_refl|].
    simpl. unfold _save_job. eapply evolves_put; [exact Hl|].
    split; simpl; auto. destruct (complete_success req); discriminate.
  - (* cancel *)
    unfold cancel_job, _get_job.
    destruct (lookup jid s) as [j|] eqn:Hl; [|apply evolves_refl].
    destruct (is_terminal (state j)); [apply evolves_refl|].
    simpl. unfold _save_job. eapply evolves_put; [exact Hl|].
    split; simpl; auto. discriminate.
Qed.

Lemma steps_evolves (s s' : Store) : steps cfg s s' -> evolves s s'.
Proof.
  induction 1 as [s|s s1 s2 H1 _ IH].
  - apply evolves_refl.
  - eapply evolves_trans; [apply step_evolves; exact H1|exact IH].
Qed.

Lemma store_inv_empty : store_inv [].
Proof. split; [constructor|]. intros jid j H. discriminate. Qed.

(** C5. In a store reached from the empty one by enqueue, claim,
    append, complete and cancel operations, a job whose [worker_id] is
    set to some worker keeps that very worker through every further
    sequence of operations. *)
Theorem worker_id_never_overwritten
        (s s' : Store) (jid : string) (j : Job) (w : string)
        (Hreach : reachable cfg s)
        (Hlater : steps cfg s s')
        (Hjob : lookup jid s = Some j)
        (Hworker : worker_id j = Some w) :
  exists j', lookup jid s' = Some j' /\ worker_id j' = Some w.
Proof.
  destruct (steps_evolves [] s Hreach store_inv_empty) as [Hinv _].
  destruct (steps_evolves s s' Hlater Hinv) as [_ Hk].
  exact (Hk jid j w Hjob Hworker).
Qed.

End Reachability.

Lemma worker_id_never_overwritten_witness :
  exists j',
    lookup "job-1"
           (snd (complete_job None "job-1" (mkCompleteRequest "w1" 0 true None None)
                              None (clock_at t3) (store_claimed_by "w1")))
    = Some j' /\ worker_id j' = Some "w1".
Proof.
  refine (worker_id_never_overwritten None (store_claimed_by "w1") _ "job-1" _ "w1"
            _ _ eq_refl eq_refl).
  - refine (steps_step None _ _ _ (step_enqueue None sample_request "job-1"
                                                (clock_at t0) [] eq_refl) _).
    refine (steps_step None _ _ _ (step_claim None (mkClaimRequest "w1" None) None
                                              (clock_at t1) _) _).
    apply steps_refl.
  - refine (steps_step None _ _ _ (step_complete None "job-1" _ None (clock_at t3) _) _).
    apply steps_refl.
Defined.

(* ================================================================== *)
(** * Properties of the hybrid file queue *)
(* ================================================================== *)

(** ** Character classes *)

Lemma in_range_spec (lo hi c : N) :
  in_range lo hi c = true <-> (lo <= c <= hi)%N.
Proof.
  unfold in_range. rewrite andb_true_iff, !N.leb_le. tauto.
Qed.

Lemma small_char_check (P : N -> bool) :
  forallb P (map N.of_nat (seq 0 128)) = true ->
  forall c, (c < 128)%N -> P c = true.
Proof.
  intros H c Hc. rewrite forallb_forall in H. apply H.
  apply in_map_iff. exists (N.to_nat c). split; [apply N2Nat.id|].
  apply in_seq. lia.
Qed.

Lemma is_safe_small (c : N) : is_safe c = true -> (c < 128)%N.
Proof.
  unfold is_safe. rewrite !orb_true_iff, !in_range_spec, !N.eqb_eq. lia.
Qed.

(** A property of the safe characters can be checked on the ASCII range. *)
Lemma safe_char_check (Q : N -> bool) :
  forallb (fun c => implb (is_safe c) (Q c)) (map N.of_nat (seq 0 128)) = true ->
  forall c, is_safe c = true -> Q c = true.
Proof.
  intros H c Hc.
  pose proof (small_char_check _ H c (is_safe_small c Hc)) as Hi.
  simpl in Hi. now rewrite Hc in Hi.
Qed.

Lemma is_safe_word_char (c : N) :
  is_safe c = true ->
  is_whitespace c = false /\ is_quote c = false /\ is_escape c = false.
Proof.
  intros H.
  assert (W : word_char c = true)
    by (revert c H; apply safe_char_check; vm_compute; reflexivity).
  unfold word_char in W. rewrite !andb_true_iff, !negb_true_iff in W. tauto.
Qed.

(** ** [shlex.split] undoes [shlex.join] *)

Lemma read_word (a tok r : str) (q : bool) :
  forallb is_safe a = true ->
  read_tokens InWord q tok (a ++ r) = read_tokens InWord q (tok ++ a) r.
Proof.
  revert tok. induction a as [|c a IH]; intros tok H; simpl.
  - now rewrite app_nil_r.
  - simpl in H. apply andb_true_iff in H. destruct H as [Hc Ha].
    destruct (is_safe_word_char c Hc) as (Hw & Hq & He).
    rewrite Hw, Hq, He. rewrite IH by exact Ha.
    now rewrite <- app_assoc.
Qed.

Lemma read_squoted (a tok r : str) (q : bool) :
  read_tokens (InQuotes SQUOTE) q tok (escape_squotes a ++ SQUOTE :: r)
  = read_tokens InWord true (tok ++ a) r.
Proof.
  revert tok q. induction a as [|c a IH]; intros tok q.
  - simpl. now rewrite app_nil_r.
  - unfold escape_squotes. simpl flat_map. fold (escape_squotes a).
    destruct (c =? SQUOTE)%N eqn:E.
    + apply N.eqb_eq in E. subst c.
      change (read_tokens (InQuotes SQUOTE) true (tok ++ [SQUOTE])
                          (escape_squotes a ++ SQUOTE :: r)
              = read_tokens InWord true (tok ++ SQUOTE :: a) r).
      rewrite IH. now rewrite <- app_assoc.
    + simpl. rewrite E. rewrite andb_false_r. rewrite IH.
      now rewrite <- app_assoc.
Qed.

Lemma read_quote_end (a : str) :
  read_tokens InWhitespace false [] (quote a) = inr [a].
Proof.
  unfold quote. destruct a as [|c a]; [reflexivity|].
  destruct (forallb is_safe (c :: a)) eqn:Hs.
  - pose proof Hs as Hs'. simpl in Hs'. apply andb_true_iff in Hs'.
    destruct Hs' as [Hc Ha]. destruct (is_safe_word_char c Hc) as (Hw & Hq & He).
    simpl. rewrite Hw, Hq, He.
    rewrite <- (app_nil_r a) at 1. rewrite read_word by exact Ha. reflexivity.
  - change (read_tokens (InQuotes SQUOTE) false []
                        (escape_squotes (c :: a) ++ [SQUOTE]) = inr [c :: a]).
    rewrite read_squoted. reflexivity.
Qed.

Lemma read_quote_space (a r : str) :
  read_tokens InWhitespace false [] (quote a ++ SPACE :: r)
  = emit a (read_tokens InWhitespace false [] r).
Proof.
  unfold quote. destruct a as [|c a]; [reflexivity|].
  destruct (forallb is_safe (c :: a)) eqn:Hs.
  - pose proof Hs as Hs'. simpl in Hs'. apply andb_true_iff in Hs'.
    destruct Hs' as [Hc Ha]. destruct (is_safe_word_char c Hc) as (Hw & Hq & He).
    simpl. rewrite Hw, Hq, He. rewrite read_word by exact Ha. reflexivity.
  - rewrite <- app_comm_cons, <- app_assoc.
    change (read_tokens (InQuotes SQUOTE) false []
                        (escape_squotes (c :: a) ++ SQUOTE :: SPACE :: r)
            = emit (c :: a) (read_tokens InWhitespace false [] r)).
    rewrite read_squoted. reflexivity.
Qed.

Lemma shlex_split_join (args : list str) :
  shlex_split (shlex_join args) = inr args.
Proof.
  unfold shlex_split, shlex_join.
  induction args as [|a rest IH]; [reflexivity|].
  destruct rest as [|b rest].
  - apply read_quote_end.
  - change (read_tokens InWhitespace false []
                        (quote a ++ SPACE :: join [SPACE] (map quote (b :: rest)))
            = inr (a :: b :: rest)).
    rewrite read_quote_space, IH. reflexivity.
Qed.

(** ** Lines, stripping and joining *)

Lemma str_eqb_eq (a b : str) : str_eqb a b = true <-> a = b.
Proof.
  revert b. induction a as [|x a IH]; intros [|y b]; simpl;
    try (split; [discriminate|discriminate]); try tauto.
  rewrite andb_true_iff, N.eqb_eq, IH. split.
  - intros [-> ->]. reflexivity.
  - intros H. inversion H. auto.
Qed.

Lemma str_eqb_refl (a : str) : str_eqb a a = true.
Proof. now apply str_eqb_eq. Qed.

Lemma universal_newlines_id (s : str) :
  forallb (fun c => negb (c =? CR)%N) s = true -> universal_newlines s = s.
Proof.
  induction s as [|c s IH]; simpl; [reflexivity|].
  intros H. apply andb_true_iff in H. destruct H as [Hc Hs].
  apply negb_true_iff in Hc. rewrite Hc. now rewrite IH.
Qed.

Lemma splitlines_line (l rest cur : str) :
  forallb (fun c => negb (is_linebreak c)) l = true ->
  splitlines_from cur (l ++ LF :: rest) = (cur ++ l) :: splitlines_from [] rest.
Proof.
  revert cur. induction l as [|c l IH]; intros cur H.
  - simpl. now rewrite app_nil_r.
  - simpl in H. apply andb_true_iff in H. destruct H as [Hc Hl].
    apply negb_true_iff in Hc. simpl. rewrite Hc.
    rewrite IH by exact Hl. now rewrite <- app_assoc.
Qed.

Lemma splitlines_lf_nonempty (cur s : str) :
  splitlines_from cur (s ++ [LF]) <> [].
Proof.
  revert cur. induction s as [|c s IH]; intros cur; simpl.
  - discriminate.
  - destruct (is_linebreak c); [|apply IH].
    destruct (c =? CR)%N; [|discriminate].
    destruct (s ++ [LF]) as [|c2 r]; [discriminate|].
    destruct (c2 =? LF)%N; discriminate.
Qed.

Lemma join_cons (sep x : str) (l : list str) :
  l <> [] -> join sep (x :: l) = x ++ sep ++ join sep l.
Proof. destruct l; [congruence|reflexivity]. Qed.

Lemma join_splitlines_lf (cur s : str) :
  forallb lf_only s = true ->
  join [LF] (splitlines_from cur (s ++ [LF])) = cur ++ s.
Proof.
  revert cur. induction s as [|c s IH]; intros cur H.
  - simpl. now rewrite app_nil_r.
  - simpl in H. apply andb_true_iff in H. destruct H as [Hc Hs].
    unfold lf_only in Hc. simpl.
    destruct (is_linebreak c) eqn:Hb.
    + simpl in Hc. apply N.eqb_eq in Hc. subst c.
      change (LF =? CR)%N with false. cbv iota.
      rewrite join_cons by apply splitlines_lf_nonempty.
      rewrite IH by exact Hs. reflexivity.
    + rewrite IH by exact Hs. now rewrite <- app_assoc.
Qed.

Lemma is_safe_edge (c : N) : is_safe c = true -> edge c = true.
Proof. apply safe_char_check. vm_compute. reflexivity. Qed.

Lemma hd_ok_app (a b : str) : hd_ok a = true -> hd_ok (a ++ b) = true.
Proof. destruct a; simpl; [discriminate|auto]. Qed.

Lemma last_ok_app (a b : str) : last_ok b = true -> last_ok (a ++ b) = true.
Proof. unfold last_ok. rewrite rev_app_distr. apply hd_ok_app. Qed.

Lemma last_ok_cons (c : N) (b : str) : last_ok b = true -> last_ok (c :: b) = true.
Proof. apply (last_ok_app [c] b). Qed.

Lemma edge_not_space (c : N) : edge c = true -> is_space c = false.
Proof.
  unfold edge. rewrite !andb_true_iff, !negb_true_iff. tauto.
Qed.

Lemma lstrip_hd_ok (s : str) : hd_ok s = true -> lstrip s = s.
Proof.
  destruct s as [|c s]; simpl; [discriminate|].
  intros H. now rewrite (edge_not_space c H).
Qed.

Lemma hd_ok_nonempty (s : str) : hd_ok s = true -> truthy s = true.
Proof. destruct s; simpl; [discriminate|reflexivity]. Qed.

Lemma strip_edges (s : str) : hd_ok s = true -> last_ok s = true -> strip s = s.
Proof.
  intros H1 H2. unfold strip, rstrip. rewrite (lstrip_hd_ok s H1).
  unfold last_ok in H2. rewrite (lstrip_hd_ok _ H2). apply rev_involutive.
Qed.

Lemma lstrip_length (s : str) : (length (lstrip s) <= length s)%nat.
Proof.
  induction s as [|c s IH]; simpl; [lia|]. destruct (is_space c); simpl; lia.
Qed.

Lemma lstrip_same_length (s : str) :
  length (lstrip s) = length s -> lstrip s = s.
Proof.
  destruct s as [|c s]; simpl; [reflexivity|].
  destruct (is_space c); [|reflexivity].
  pose proof (lstrip_length s). lia.
Qed.

(** A text equal to its own [strip()] has no whitespace at either end. *)
Lemma strip_fixed (s : str) :
  strip s = s -> lstrip s = s /\ lstrip (rev s) = rev s.
Proof.
  intros H. unfold strip, rstrip in H.
  assert (L : length (lstrip s) = length s).
  { pose proof (lstrip_length s). pose proof (lstrip_length (rev (lstrip s))) as L2.
    rewrite length_rev in L2. apply (f_equal (@length N)) in H.
    rewrite length_rev in H. lia. }
  apply lstrip_same_length in L. split; [exact L|].
  rewrite L in H. apply (f_equal (@rev N)) in H.
  now rewrite rev_involutive in H.
Qed.

Lemma lstrip_keeps (c : N) (s : str) :
  In c s -> is_space c = false -> lstrip s <> [].
Proof.
  induction s as [|x s IH]; simpl; [tauto|].
  intros [->|Hin] Hc.
  - rewrite Hc. discriminate.
  - destruct (is_space x); [auto|discriminate].
Qed.

Lemma hd_ok_not_blank (s : str) : hd_ok s = true -> Agent.is_blank s = false.
Proof.
  intros H. unfold Agent.is_blank, strip, rstrip. rewrite (lstrip_hd_ok s H).
  destruct s as [|c s]; [discriminate|]. simpl in H.
  assert (Hne : lstrip (rev (c :: s)) <> []).
  { apply (lstrip_keeps c); [|now apply edge_not_space].
    apply in_rev. rewrite rev_involutive. now left. }
  destruct (lstrip (rev (c :: s))) as [|y l] eqn:E; [congruence|].
  simpl. destruct (rev l ++ [y]) eqn:E2; [|reflexivity].
  destruct (rev l); discriminate.
Qed.

(** ** Character-wise properties of the written command *)

Lemma forallb_escape_squotes (P : N -> bool) (a : str) :
  P SQUOTE = true -> P DQUOTE = true ->
  forallb P a = true -> forallb P (escape_squotes a) = true.
Proof.
  intros Hs Hd. unfold escape_squotes.
  induction a as [|x l IH]; simpl; intros Ha; [reflexivity|].
  apply andb_true_iff in Ha. destruct Ha as [Hx Hl].
  rewrite forallb_app, (IH Hl), andb_true_r.
  destruct (x =? SQUOTE)%N; simpl; now rewrite ?Hs, ?Hd, ?Hx.
Qed.

Lemma forallb_quote (P : N -> bool) (a : str) :
  P SQUOTE = true -> P DQUOTE = true ->
  forallb P a = true -> forallb P (quote a) = true.
Proof.
  intros Hs Hd Ha. unfold quote. destruct a as [|c a].
  - simpl. now rewrite Hs.
  - destruct (forallb is_safe (c :: a)); [exact Ha|].
    change (forallb P ([SQUOTE] ++ escape_squotes (c :: a) ++ [SQUOTE]) = true).
    rewrite !forallb_app, forallb_escape_squotes by assumption.
    simpl. now rewrite Hs.
Qed.

Lemma forallb_join (P : N -> bool) (sep : str) (l : list str) :
  forallb P sep = true ->
  forallb (forallb P) l = true -> forallb P (join sep l) = true.
Proof.
  intros Hsep. induction l as [|x l IH]; intros H; [reflexivity|].
  simpl in H. apply andb_true_iff in H. destruct H as [Hx Hl].
  destruct l as [|y l]; [exact Hx|].
  rewrite join_cons by discriminate.
  rewrite !forallb_app, Hx, Hsep. simpl. apply IH. exact Hl.
Qed.

Lemma forallb_shlex_join (P : N -> bool) (args : list str) :
  P SQUOTE = true -> P DQUOTE = true -> P SPACE = true ->
  forallb (forallb P) args = true -> forallb P (shlex_join args) = true.
Proof.
  intros Hs Hd Hsp H. unfold shlex_join. apply forallb_join.
  - simpl. now rewrite Hsp.
  - induction args as [|a l IH]; [reflexivity|].
    simpl in *. apply andb_true_iff in H. destruct H as [Ha Hl].
    rewrite forallb_quote by assumption. simpl. auto.
Qed.

Lemma hd_ok_quote (a : str) : hd_ok (quote a) = true.
Proof.
  unfold quote. destruct a as [|c a]; [reflexivity|].
  destruct (forallb is_safe (c :: a)) eqn:E; [|reflexivity].
  simpl in *. apply andb_true_iff in E. apply is_safe_edge. tauto.
Qed.

Lemma last_ok_quote (a : str) : last_ok (quote a) = true.
Proof.
  unfold quote. destruct a as [|c a]; [reflexivity|].
  destruct (forallb is_safe (c :: a)) eqn:E.
  - unfold last_ok.
    assert (Hr : forallb is_safe (rev (c :: a)) = true).
    { rewrite forallb_forall in *. intros x Hx. apply E. now apply in_rev. }
    destruct (rev (c :: a)) as [|d l] eqn:Er.
    + simpl in Er. destruct (rev a); discriminate.
    + simpl in *. apply andb_true_iff in Hr. apply is_safe_edge. tauto.
  - apply last_ok_cons. apply last_ok_app. reflexivity.
Qed.

Lemma shlex_join_edges (a : str) (rest : list str) :
  hd_ok (shlex_join (a :: rest)) = true /\ last_ok (shlex_join (a :: rest)) = true.
Proof.
  unfold shlex_join. split.
  - destruct rest as [|b rest]; simpl map.
    + apply hd_ok_quote.
    + rewrite join_cons by discriminate. apply hd_ok_app, hd_ok_quote.
  - revert a. induction rest as [|b rest IH]; intros a; simpl map.
    + apply last_ok_quote.
    + rewrite join_cons by discriminate. apply last_ok_app, last_ok_cons.
      apply (IH b).
Qed.

(** ** A shell-quoted command is never taken for JSON *)

Lemma scan_once_scalar (fuel : nat) (c : N) (r : str) :
  (c =? DQUOTE)%N = false -> (c =? 123)%N = false -> (c =? 91)%N = false ->
  match scan_once fuel (c :: r) with
  | Some (JArray _, _) | Some (JObject _, _) => False
  | _ => True
  end.
Proof.
  intros H1 H2 H3. destruct fuel as [|f]; simpl; [exact I|].
  rewrite H1, H2, H3. unfold match_word.
  repeat match goal with
         | |- context [if ?b then _ else _] => destruct b
         end; try exact I.
  all: destruct (match_number (c :: r)) as [[n r']|]; try exact I.
  all: repeat match goal with
              | |- context [if ?b then _ else _] => destruct b
              end; exact I.
Qed.

Lemma command_of_json_quoted (s : str) :
  hd_ok s = true -> Agent.command_of_json s = None.
Proof.
  destruct s as [|c r]; simpl; [discriminate|]. intros H.
  unfold edge in H. rewrite !andb_true_iff, !negb_true_iff in H.
  destruct H as (((((_ & Hws) & Hq) & Hb) & Hc) & Hbom).
  unfold Agent.command_of_json, loads.
  assert (E : startswith [65279%N] (c :: r) = false).
  { unfold startswith. rewrite N.eqb_sym, Hbom. reflexivity. }
  rewrite E. simpl skip_ws. rewrite Hws.
  pose proof (scan_once_scalar (2 * length (c :: r) + 2) c r Hq Hc Hb) as Hs.
  destruct (scan_once (2 * length (c :: r) + 2) (c :: r)) as [[v r']|];
    [|reflexivity].
  destruct v; try contradiction; destruct (skip_ws r'); reflexivity.
Qed.

(** ** Parsing what the worker wrote *)

Lemma parse_cmd_file_plain (contents hdr : str) (payload : list str) :
  splitlines contents = hdr :: [] :: payload ->
  Agent.is_blank hdr = false ->
  startswith Agent.MAGIC_HEADER (strip hdr) = true ->
  truthy (strip (join [LF] payload)) = true ->
  Agent.parse_cmd_file contents = (None, Some (strip (join [LF] payload)), None).
Proof.
  intros Hl Hb Hm Ht. unfold Agent.parse_cmd_file. rewrite Hl.
  simpl Agent.skip_blank. rewrite Hb, Hm. simpl. now rewrite Ht.
Qed.

Lemma parse_cmd_file_token (contents hdr line key val : str) (payload : list str) :
  splitlines contents = hdr :: line :: [] :: payload ->
  Agent.is_blank hdr = false ->
  startswith Agent.MAGIC_HEADER (strip hdr) = true ->
  Agent.is_blank line = false ->
  split_once COLON line = Some (key, val) ->
  str_eqb (upper (strip key)) (lit "SECRET_TOKEN") = true ->
  truthy (strip (join [LF] payload)) = true ->
  Agent.parse_cmd_file contents
  = (Some (strip val), Some (strip (join [LF] payload)), None).
Proof.
  intros Hl Hb Hm Hbl Hsp Hk Ht. unfold Agent.parse_cmd_file. rewrite Hl.
  simpl Agent.skip_blank. rewrite Hb, Hm.
  simpl negb. cbv iota. simpl Agent.parse_headers.
  rewrite Hbl, Hsp, Hk. simpl. now rewrite Ht.
Qed.

Lemma cmd_file_text_plain (cmd : list str) :
  Worker.cmd_file_text None cmd
  = lit "#hybrid-mode" ++ LF :: LF :: shlex_join cmd ++ [LF].
Proof. reflexivity. Qed.

Lemma cmd_file_text_token (t : str) (cmd : list str) :
  truthy t = true ->
  Worker.cmd_file_text (Some t) cmd
  = lit "#hybrid-mode" ++ LF :: (lit "SECRET_TOKEN: " ++ t)
                       ++ LF :: LF :: shlex_join cmd ++ [LF].
Proof.
  intros H. unfold Worker.cmd_file_text. rewrite H.
  cbn [app join].
  repeat (rewrite <- app_assoc || rewrite <- app_comm_cons). reflexivity.
Qed.

(** ** The command file round trip *)

Lemma forallb_weaken {A : Type} (P Q : A -> bool) (l : list A) :
  (forall x, P x = true -> Q x = true) ->
  forallb P l = true -> forallb Q l = true.
Proof.
  intros H. rewrite !forallb_forall. auto.
Qed.

Lemma lf_only_not_cr (c : N) : lf_only c = true -> negb (c =? CR)%N = true.
Proof.
  intros H. destruct (c =? CR)%N eqn:E; [|reflexivity].
  apply N.eqb_eq in E. subst c. discriminate H.
Qed.

Lemma not_linebreak_lf_only (c : N) :
  negb (is_linebreak c) = true -> lf_only c = true.
Proof. unfold lf_only. intros ->. reflexivity. Qed.

Lemma build_command_quoted (cmd : list str) :
  cmd <> [] -> Agent.build_command (shlex_join cmd) = (Some cmd, None).
Proof.
  intros Hne. destruct cmd as [|a rest]; [congruence|].
  unfold Agent.build_command.
  rewrite command_of_json_quoted by apply shlex_join_edges.
  now rewrite shlex_split_join.
Qed.

Lemma agent_reads_text (hybrid_secret : option str) (j : Worker.Job)
      (token : option str) (cmd_text : str) (argv : list str) :
  encodable (Worker.cmd_file_text hybrid_secret (Worker.command j)) = true ->
  Agent.parse_cmd_file
    (read_text (Worker.cmd_file_text hybrid_secret (Worker.command j)))
  = (token, Some cmd_text, None) ->
  Agent.build_command cmd_text = (Some argv, None) ->
  agent_reads hybrid_secret j = Some (token, argv).
Proof.
  intros He Hp Hb. unfold agent_reads, Worker._write_cmd_file.
  rewrite He. unfold dir_write. simpl dir_remove. simpl dir_lookup.
  rewrite str_eqb_refl. now rewrite Hp, Hb.
Qed.

(** A character-wise property of the whole file follows from the same
    property of its parts. *)
Lemma forallb_cmd_file_text (P : N -> bool) (hybrid_secret : option str)
      (cmd : list str) :
  forallb P (lit "#hybrid-mode" ++ LF :: lit "SECRET_TOKEN: ") = true ->
  match hybrid_secret with
  | Some t => forallb P t = true
  | None => True
  end ->
  forallb P (shlex_join cmd) = true ->
  forallb P (Worker.cmd_file_text hybrid_secret cmd) = true.
Proof.
  intros Hfix Ht Hc.
  rewrite forallb_app in Hfix. apply andb_true_iff in Hfix.
  destruct Hfix as [Hh Hfix].
  change (forallb P ([LF] ++ lit "SECRET_TOKEN: ") = true) in Hfix.
  rewrite forallb_app in Hfix. apply andb_true_iff in Hfix.
  destruct Hfix as [Hlf Hs].
  assert (Hplain : forallb P (lit "#hybrid-mode" ++ LF :: LF :: shlex_join cmd ++ [LF])
                   = true).
  { change (forallb P (lit "#hybrid-mode" ++ [LF] ++ [LF] ++ shlex_join cmd ++ [LF])
            = true).
    now rewrite !forallb_app, Hh, Hlf, Hc. }
  destruct hybrid_secret as [t|]; [|exact Hplain].
  destruct (truthy t) eqn:E.
  - rewrite cmd_file_text_token by exact E.
    change (forallb P (lit "#hybrid-mode" ++ [LF] ++ (lit "SECRET_TOKEN: " ++ t)
                           ++ [LF] ++ [LF] ++ shlex_join cmd ++ [LF]) = true).
    now rewrite !forallb_app, Hh, Hlf, Hs, Ht, Hc.
  - unfold Worker.cmd_file_text. rewrite E. exact Hplain.
Qed.

Lemma token_line_parts (t : str) :
  hd_ok (lit "SECRET_TOKEN: " ++ t) = true /\
  split_once COLON (lit "SECRET_TOKEN: " ++ t)
  = Some (lit "SECRET_TOKEN", SPACE :: t) /\
  str_eqb (upper (strip (lit "SECRET_TOKEN"))) (lit "SECRET_TOKEN") = true.
Proof. repeat split; reflexivity. Qed.

(** C6, as stated, fails for an argument that holds a carriage return:
    the agent reads it back as a line feed. *)
Lemma roundtrip_all_fails : ~ roundtrip_all.
Proof.
  intros H.
  specialize (H None (Worker.mkJob (lit "job-1") [lit "printf"; [97; 13; 98]%N] None)).
  assert (Hne : Worker.command
                  (Worker.mkJob (lit "job-1") [lit "printf"; [97; 13; 98]%N] None) <> [])
    by discriminate.
  specialize (H Hne). vm_compute in H. discriminate H.
Qed.

(** C6, amended. For every job whose command is a non-empty list of
    arguments holding no line boundary other than LF and no surrogate,
    and every secret token that is absent, empty, or free of line
    boundaries, surrogates and whitespace at its ends, the agent's parser
    recovers from the file the worker writes exactly the token written
    (none for an absent or empty one) and, after command decoding,
    exactly the original argument list. *)
Theorem cmd_file_roundtrip
        (hybrid_secret : option str) (j : Worker.Job)
        (Hcommand : Worker.command j <> [])
        (Hargs : forallb plain_arg (Worker.command j) = true)
        (Htoken : match hybrid_secret with
                  | Some t => plain_token t = true
                  | None => True
                  end) :
  agent_reads hybrid_secret j = Some (written_token hybrid_secret, Worker.command j).
Proof.
  rename Hcommand into Hne, Htoken into Htok.
  set (cmd := Worker.command j) in *.
  set (cs := shlex_join cmd).
  assert (Hlf : forallb lf_only cs = true).
  { apply forallb_shlex_join; try reflexivity.
    eapply forallb_weaken; [|exact Hargs]. intros a Ha.
    eapply forallb_weaken; [|exact Ha]. intros c Hc.
    apply andb_true_iff in Hc. tauto. }
  assert (Hsur : forallb (fun c => negb (is_surrogate c)) cs = true).
  { apply forallb_shlex_join; try reflexivity.
    eapply forallb_weaken; [|exact Hargs]. intros a Ha.
    eapply forallb_weaken; [|exact Ha]. intros c Hc.
    apply andb_true_iff in Hc. tauto. }
  assert (Hedges : hd_ok cs = true /\ last_ok cs = true).
  { unfold cs. destruct cmd as [|a rest]; [congruence|]. apply shlex_join_edges. }
  destruct Hedges as [Hhd Hlast].
  assert (Hstrip : strip cs = cs) by (apply strip_edges; assumption).
  assert (Htoklf : match hybrid_secret with
                   | Some t => forallb lf_only t = true
                   | None => True
                   end).
  { destruct hybrid_secret as [t|]; [|exact I].
    apply andb_true_iff in Htok. destruct Htok as [Htok _].
    eapply forallb_weaken; [|exact Htok]. intros c Hc.
    apply andb_true_iff in Hc. apply not_linebreak_lf_only. tauto. }
  assert (Htoksur : match hybrid_secret with
                    | Some t => forallb (fun c => negb (is_surrogate c)) t = true
                    | None => True
                    end).
  { destruct hybrid_secret as [t|]; [|exact I].
    apply andb_true_iff in Htok. destruct Htok as [Htok _].
    eapply forallb_weaken; [|exact Htok]. intros c Hc.
    apply andb_true_iff in Hc. tauto. }
  assert (Henc : encodable (Worker.cmd_file_text hybrid_secret cmd) = true).
  { unfold encodable. apply forallb_cmd_file_text; [reflexivity|exact Htoksur|exact Hsur]. }
  assert (Hread : read_text (Worker.cmd_file_text hybrid_secret cmd)
                  = Worker.cmd_file_text hybrid_secret cmd).
  { unfold read_text. apply universal_newlines_id.
    apply forallb_cmd_file_text; [reflexivity| |].
    - destruct hybrid_secret as [t|]; [|exact I].
      eapply forallb_weaken; [|exact Htoklf]. apply lf_only_not_cr.
    - eapply forallb_weaken; [|exact Hlf]. apply lf_only_not_cr. }
  apply (agent_reads_text hybrid_secret j _ cs); [exact Henc| |].
  2:{ apply build_command_quoted. exact Hne. }
  fold cmd. rewrite Hread.
  assert (Hpayload : join [LF] (splitlines_from [] (cs ++ [LF])) = cs)
    by (apply (join_splitlines_lf [] cs Hlf)).
  assert (Hplain : Agent.parse_cmd_file
                     (lit "#hybrid-mode" ++ LF :: LF :: cs ++ [LF])
                   = (None, Some cs, None)).
  { replace (@None str, Some cs, @None str)
      with (@None str,
            Some (strip (join [LF] (splitlines_from [] (cs ++ [LF])))), @None str)
      by (rewrite Hpayload, Hstrip; reflexivity).
    apply (parse_cmd_file_plain _ (lit "#hybrid-mode")).
    - unfold splitlines.
      rewrite (splitlines_line (lit "#hybrid-mode") (LF :: cs ++ [LF]) [])
        by reflexivity.
      change (splitlines_from [] (LF :: cs ++ [LF]))
        with (splitlines_from [] ([] ++ LF :: cs ++ [LF])).
      rewrite (splitlines_line [] (cs ++ [LF]) []) by reflexivity. reflexivity.
    - reflexivity.
    - reflexivity.
    - rewrite Hpayload, Hstrip. now apply hd_ok_nonempty. }
  destruct hybrid_secret as [t|]; [|exact Hplain].
  destruct (truthy t) eqn:Et.
  - simpl written_token. rewrite Et.
    rewrite cmd_file_text_token by exact Et. fold cs.
    apply andb_true_iff in Htok. destruct Htok as [Hchars Hfix].
    apply str_eqb_eq in Hfix. apply strip_fixed in Hfix.
    destruct Hfix as [Hl Hr].
    destruct (token_line_parts t) as (Hline & Hsplit & Hkey).
    assert (Hval : strip (SPACE :: t) = t).
    { unfold strip, rstrip. change (lstrip (SPACE :: t)) with (lstrip t).
      rewrite Hl, Hr. apply rev_involutive. }
    replace (Some t, Some cs, @None str)
      with (Some (strip (SPACE :: t)),
            Some (strip (join [LF] (splitlines_from [] (cs ++ [LF])))), @None str)
      by (rewrite Hval, Hpayload, Hstrip; reflexivity).
    apply (parse_cmd_file_token _ (lit "#hybrid-mode") (lit "SECRET_TOKEN: " ++ t)
                                (lit "SECRET_TOKEN") (SPACE :: t)).
    + unfold splitlines.
      rewrite (splitlines_line (lit "#hybrid-mode")
                               ((lit "SECRET_TOKEN: " ++ t) ++ LF :: LF :: cs ++ [LF]) [])
        by reflexivity.
      rewrite (splitlines_line (lit "SECRET_TOKEN: " ++ t) (LF :: cs ++ [LF]) []).
      * change (splitlines_from [] (LF :: cs ++ [LF]))
          with (splitlines_from [] ([] ++ LF :: cs ++ [LF])).
        rewrite (splitlines_line [] (cs ++ [LF]) []) by reflexivity. reflexivity.
      * rewrite forallb_app. rewrite andb_true_iff. split; [reflexivity|].
        eapply forallb_weaken; [|exact Hchars]. intros c Hc.
        apply andb_true_iff in Hc. tauto.
    + reflexivity.
    + reflexivity.
    + apply hd_ok_not_blank. exact Hline.
    + exact Hsplit.
    + exact Hkey.
    + rewrite Hpayload, Hstrip. now apply hd_ok_nonempty.
  - simpl written_token. rewrite Et.
    unfold Worker.cmd_file_text. rewrite Et. exact Hplain.
Qed.

Lemma cmd_file_roundtrip_witness :
  agent_reads (Some (lit "abc"))
              (Worker.mkJob (lit "job-1") [lit "/bin/echo"; lit "it's"; lit "a b"; []] None)
  = Some (Some (lit "abc"), [lit "/bin/echo"; lit "it's"; lit "a b"; []]).
Proof.
  apply (cmd_file_roundtrip (Some (lit "abc"))
           (Worker.mkJob (lit "job-1") [lit "/bin/echo"; lit "it's"; lit "a b"; []] None)).
  - discriminate.
  - reflexivity.
  - reflexivity.
Defined.

(** ** A JSON command file *)

Example json_cmd_file_parses :
  Agent.parse_cmd_file json_cmd_file
  = (Some (lit "abc"),
     Some ([91; DQUOTE]%N ++ lit "/bin/echo" ++ [DQUOTE; 44; DQUOTE]%N ++ lit "hi"
           ++ [DQUOTE; 93]%N),
     None).
Proof. vm_compute. reflexivity. Qed.

Example json_cmd_file_runs :
  Agent.process_single (Some (lit "abc")) false 300 200000 echo_hi
                       (lit "2024-05-01T10:00:00Z") (lit "job-7.cmd") json_cmd_queued
  = Agent.mkWorld []
      [(lit "job-7",
        Agent.mkAgentResult 0 (lit "hi" ++ [LF]) [] (lit "2024-05-01T10:00:00Z"))]
      [[lit "/bin/echo"; lit "hi"]].
Proof. vm_compute. reflexivity. Qed.

Example json_cmd_file_rejected :
  Agent.process_single (Some (lit "xyz")) false 300 200000 echo_hi
                       (lit "2024-05-01T10:00:00Z") (lit "job-7.cmd") json_cmd_queued
  = Agent.mkWorld []
      [(lit "job-7",
        Agent.mkAgentResult 1 [] (lit "SECRET_TOKEN missing or invalid")
                            (lit "2024-05-01T10:00:00Z"))]
      [].
Proof. vm_compute. reflexivity. Qed.

(** ** Secret validation by the agent *)

Lemma dir_lookup_written (name text : str) (d : Dir) :
  dir_lookup name (dir_write name text d) = Some text.
Proof. unfold dir_write. simpl. now rewrite str_eqb_refl. Qed.

Lemma encodable_lit (t : string) : encodable (lit t) = true.
Proof.
  unfold encodable, lit. apply forallb_forall. intros c Hc.
  apply in_map_iff in Hc. destruct Hc as (a & <- & _).
  pose proof (N_ascii_bounded a) as Hb.
  unfold is_surrogate, in_range.
  assert (H : (55296 <=? N_of_ascii a)%N = false) by (apply N.leb_gt; lia).
  now rewrite H.
Qed.

Lemma encodable_app (a b : str) :
  encodable (a ++ b) = encodable a && encodable b.
Proof. unfold encodable. apply forallb_app. Qed.

(** The messages of [parse_cmd_file] are ASCII. *)
Lemma parse_error_encodable (contents e : str) :
  snd (Agent.parse_cmd_file contents) = Some e -> encodable e = true.
Proof.
  unfold Agent.parse_cmd_file.
  destruct (splitlines contents) as [|l ls];
    [intros H; inversion H; apply encodable_lit|].
  destruct (Agent.skip_blank (l :: ls)) as [|first rest];
    [intros H; inversion H; apply encodable_lit|].
  destruct (negb (startswith Agent.MAGIC_HEADER (strip first)));
    [intros H; inversion H; apply encodable_lit|].
  destruct (Agent.parse_headers None rest) as [secret cmd_lines].
  destruct (truthy (strip (join [LF] cmd_lines)));
    [discriminate|intros H; inversion H; apply encodable_lit].
Qed.




(** ** Waiting for the agent's result *)

Lemma poll_loop_times_out (env : nat -> Worker.Observation) (deadline : Worker.Time)
      (exception_text : str -> str) (k : nat) :
  (forall turn, Worker.time_lt (Worker.clock (env turn)) deadline = true ->
                Worker.result_file (env turn) = None) ->
  forall turn fuel,
    Worker.time_lt (Worker.clock (env (turn + k)%nat)) deadline = false ->
    (k < fuel)%nat ->
    Worker.poll_loop exception_text fuel env deadline turn = Some None.
Proof.
  intros Hnone. induction k as [|k IH]; intros turn fuel Hk Hf.
  - destruct fuel as [|f]; [lia|]. simpl.
    rewrite Nat.add_0_r in Hk. rewrite Hk.
    destruct (Worker.stop_set (env turn)); reflexivity.
  - destruct fuel as [|f]; [lia|]. simpl.
    destruct (Worker.stop_set (env turn)); [reflexivity|].
    destruct (Worker.time_lt (Worker.clock (env turn)) deadline) eqn:Et;
      [|reflexivity].
    simpl. rewrite (Hnone turn Et). apply IH; [|lia].
    now replace (S turn + k)%nat with (turn + S k)%nat by lia.
Qed.

(** C8. In hybrid mode, once the command file is written, if no result
    file is seen at any poll made before the deadline (the start time
    plus [timeout_seconds] plus 5) and the clock reaches that deadline,
    the wait ends after finitely many polls and the worker reports a
    failed completion with exit code 124. *)
Theorem hybrid_timeout_synthesized
        (queue_path results_path : str) (hybrid_secret : option str)
        (exception_text : str -> str)
        (j : Worker.Job) (started : Worker.Time)
        (env : nat -> Worker.Observation) (queue queue' : Dir) (name : str)
        (Hcommand : Worker.command j <> [])
        (Hwritten : Worker._write_cmd_file hybrid_secret j queue = Some (name, queue'))
        (Hnofile : forall turn,
            Worker.time_lt (Worker.clock (env turn)) (Worker.deadline_of j started) = true ->
            Worker.result_file (env turn) = None)
        (Hclock : exists turn,
            Worker.time_lt (Worker.clock (env turn)) (Worker.deadline_of j started) = false) :
  exists polls, forall fuel, (polls < fuel)%nat ->
    exists calls,
      Worker.run_command_and_stream (Some queue_path) (Some results_path)
                                    hybrid_secret exception_text fuel j started env queue
      = Some (calls ++ [Worker.Complete (Worker.job_id j) 124 false
                          (lit "[hybrid] timed out waiting for result")],
              queue').
Proof.
  destruct Hclock as [k Hk]. exists k. intros fuel Hf.
  unfold Worker.run_command_and_stream.
  destruct (Worker.command j) as [|a rest] eqn:Ec; [congruence|].
  rewrite Hwritten. unfold Worker._poll_for_result.
  rewrite (poll_loop_times_out env (Worker.deadline_of j started) exception_text k
             Hnofile 0%nat fuel Hk Hf).
  eexists [_; _; _; _]. reflexivity.
Qed.

Lemma hybrid_timeout_synthesized_witness :
  exists polls, forall fuel, (polls < fuel)%nat ->
    exists calls,
      Worker.run_command_and_stream
        (Some (lit "hybrid-queue")) (Some (lit "hybrid-results")) None (fun _ => [])
        fuel (Worker.mkJob (lit "job-1") [lit "sleep"; lit "60"] (Some 1%Z))
        (QArith_base.inject_Z 0)
        (fun turn => Worker.mkObservation false
                       (QArith_base.inject_Z (Z.of_nat turn)) None)
        []
      = Some (calls ++ [Worker.Complete (lit "job-1") 124 false
                          (lit "[hybrid] timed out waiting for result")],
              [(lit "job-1.cmd", Worker.cmd_file_text None [lit "sleep"; lit "60"])]).
Proof.
  apply (hybrid_timeout_synthesized
           (lit "hybrid-queue") (lit "hybrid-results") None (fun _ => [])
           (Worker.mkJob (lit "job-1") [lit "sleep"; lit "60"] (Some 1%Z))
           (QArith_base.inject_Z 0)
           (fun turn => Worker.mkObservation false
                          (QArith_base.inject_Z (Z.of_nat turn)) None)
           [] _ (lit "job-1.cmd")).
  - discriminate.
  - reflexivity.
  - intros turn _. reflexivity.
  - exists 6%nat. vm_compute. reflexivity.
Defined.

(* ================================================================== *)
(** * Further properties of the control plane *)
(* ================================================================== *)

(** ** Enqueue, cancel and the read paths *)

Lemma put_fresh (jid : string) (j : Job) (s : Store) :
  lookup jid s = None -> put jid j s = s ++ [(jid, j)].
Proof.
  induction s as [|[k j0] rest IH]; simpl; [reflexivity|].
  destruct (k =? jid); [discriminate|]. intros H. now rewrite IH.
Qed.

(** X1. Enqueueing under an identifier not yet in use keeps every stored
    job and their order and adds the new job last: PENDING, untouched by
    any worker, with an empty log, the request's repo, ref, runtime and
    command, and a timeout that is never 0: the request's own when that
    is given and not 0, and 900 when it is 0 or missing. *)
Theorem enqueue_job_appends_pending
        (req : JobRequest) (jid : string) (now : Clock) (s : Store)
        (Hfresh : lookup jid s = None) :
  exists j,
    snd (enqueue_job req jid now s) = s ++ [(jid, j)] /\
    lookup jid (snd (enqueue_job req jid now s)) = Some j /\
    job_id j = jid /\ state j = PENDING /\ created_at j = now 0%nat /\
    pristine j /\ logs j = [] /\
    repo j = req_repo req /\ ref j = req_ref req /\
    runtime j = req_runtime req /\ command j = req_command req /\
    timeout_seconds j <> 0%Z /\
    (forall t, req_timeout_seconds req = Some t -> t <> 0%Z ->
               timeout_seconds j = t) /\
    (req_timeout_seconds req = None \/ req_timeout_seconds req = Some 0%Z ->
     timeout_seconds j = 900%Z) /\
    sum_job_id (fst (enqueue_job req jid now s)) = jid /\
    sum_state (fst (enqueue_job req jid now s)) = PENDING.
Proof.
  unfold enqueue_job, _save_job. simpl. eexists. split.
  - apply put_fresh. exact Hfresh.
  - rewrite lookup_put_same. split; [reflexivity|]. simpl.
    repeat split; try reflexivity.
    + destruct (req_timeout_seconds req) as [t|]; [|discriminate].
      destruct (t =? 0)%Z eqn:E; [discriminate|]. now apply Z.eqb_neq.
    + intros t Ht Hne. rewrite Ht. apply Z.eqb_neq in Hne. now rewrite Hne.
    + intros [Ht|Ht]; rewrite Ht; reflexivity.
Qed.

Lemma enqueue_job_appends_pending_witness :
  exists j,
    snd (enqueue_job sample_request "job-2" (clock_at t1) store_enqueued)
    = store_enqueued ++ [("job-2", j)] /\ state j = PENDING.
Proof.
  destruct (enqueue_job_appends_pending sample_request "job-2" (clock_at t1)
              store_enqueued eq_refl) as (j & H1 & _ & _ & H2 & _).
  exists j. split; assumption.
Defined.

(** X2. Canceling is idempotent: a second cancel of the same job, at
    whatever time, gives the same answer as the first and leaves the
    store exactly as the first left it. *)
Theorem cancel_job_idempotent
        (jid : string) (now now' : Clock) (s : Store) :
  cancel_job jid now' (snd (cancel_job jid now s))
  = (fst (cancel_job jid now s), snd (cancel_job jid now s)).
Proof.
  unfold cancel_job, _get_job, _save_job.
  destruct (lookup jid s) as [j|] eqn:Hl; simpl.
  - destruct (is_terminal (state j)) eqn:Ht; simpl.
    + now rewrite Hl, Ht.
    + rewrite lookup_put_same. reflexivity.
  - now rewrite Hl.
Qed.

(** X3. An endpoint that answers with an error has changed nothing: for
    the claim, append, complete, cancel and both read endpoints, an
    error response comes with the store as it was. *)
Theorem rejected_calls_leave_store
        (cfg hdr : option string) (now : Clock) (s : Store) (jid : string) :
  (forall req e, fst (worker_claim cfg req hdr now s) = inl e ->
                 snd (worker_claim cfg req hdr now s) = s) /\
  (forall req e, fst (append_job_logs cfg jid req hdr now s) = inl e ->
                 snd (append_job_logs cfg jid req hdr now s) = s) /\
  (forall req e, fst (complete_job cfg jid req hdr now s) = inl e ->
                 snd (complete_job cfg jid req hdr now s) = s) /\
  (forall e, fst (cancel_job jid now s) = inl e ->
             snd (cancel_job jid now s) = s) /\
  (forall n, snd (get_job_logs jid n s) = s) /\
  snd (get_job jid s) = s.
Proof.
  repeat split.
  - intros req e. unfold worker_claim.
    destruct (negb (_validate_worker_secret cfg hdr)); [reflexivity|].
    unfold _atomically_claim_oldest.
    destruct (Py.sort_by _ _) as [|[k job] tl]; [discriminate|].
    destruct (negb (Py.truthy k)); [discriminate|].
    unfold _get_job. rewrite lookup_put_same. discriminate.
  - intros req e. unfold append_job_logs, _get_job.
    destruct (negb (_validate_worker_secret cfg hdr)); [reflexivity|].
    destruct (lookup jid s); [|reflexivity].
    destruct (worker_mismatch _ _); [reflexivity|discriminate].
  - intros req e. unfold complete_job, _get_job.
    destruct (negb (_validate_worker_secret cfg hdr)); [reflexivity|].
    destruct (lookup jid s); [|reflexivity].
    destruct (worker_mismatch _ _); [reflexivity|discriminate].
  - intros e. unfold cancel_job, _get_job.
    destruct (lookup jid s) as [j|]; [|reflexivity].
    destruct (is_terminal (state j)); discriminate.
  - intros n. unfold get_job_logs, _get_job. destruct (lookup jid s); reflexivity.
  - unfold get_job, _get_job. destruct (lookup jid s); reflexivity.
Qed.

Lemma rejected_calls_leave_store_witness :
  snd (complete_job (Some "s3cret") "job-1"
                    (mkCompleteRequest "w1" 0 true None None)
                    (Some "guess") (clock_at t3) (store_claimed_by "w1"))
  = store_claimed_by "w1".
Proof.
  refine (proj1 (proj2 (proj2 (rejected_calls_leave_store
                                 (Some "s3cret") (Some "guess") (clock_at t3)
                                 (store_claimed_by "w1") "job-1")))
                _ InvalidSecret _).
  reflexivity.
Defined.

(** X4. The tail read of a stored job, for every count: a positive [n]
    gives the last [n] entries (all of them when there are fewer), in
    order; [n <= 0] gives the log without its first [-n] entries, hence
    the whole log for 0.  The store is left as it was. *)
Theorem get_job_logs_tail
        (jid : string) (n : Z) (s : Store) (j : Job)
        (Hjob : lookup jid s = Some j) :
  get_job_logs jid n s
  = (inr (if (0 <? n)%Z then last_n (Z.to_nat n) (logs j)
          else skipn (Z.to_nat (- n)) (logs j)), s).
Proof.
  unfold get_job_logs, _get_job. rewrite Hjob.
  destruct (0 <? n)%Z eqn:E.
  - apply Z.ltb_lt in E. now rewrite slice_from_neg_pos.
  - apply Z.ltb_ge in E. unfold Py.slice_from.
    assert (H : (- n <? 0)%Z = false) by (apply Z.ltb_ge; lia).
    rewrite H. do 2 f_equal.
    destruct (Z.le_gt_cases (- n) (Z.of_nat (length (logs j)))) as [L|G].
    + rewrite Z.min_l by lia. reflexivity.
    + rewrite Z.min_r by lia. rewrite Nat2Z.id.
      rewrite !skipn_all2; [reflexivity|lia|lia].
Qed.

Lemma get_job_logs_tail_witness :
  get_job_logs "job-1" 2 store_with_logs
  = (inr ["[" ++ t2 ++ "] w1: linking"; "[" ++ t2 ++ "] w1: done"]%string,
     store_with_logs).
Proof.
  assert (H : exists j, lookup "job-1" store_with_logs = Some j)
    by (eexists; vm_compute; reflexivity).
  destruct H as [j Hj].
  rewrite (get_job_logs_tail "job-1" 2 store_with_logs j Hj).
  vm_compute in Hj. inversion Hj. reflexivity.
Defined.

(** ** A successful claim *)

(** X5. When the claim engine picks a job with a non-empty identifier,
    the claim endpoint answers with that job's own repo, ref, runtime,
    command, env, timeout and limits, and leaves it RUNNING, assigned to
    the requesting worker, with [started_at] set; nothing but that job is
    rewritten. *)
Theorem worker_claim_starts_job
        (cfg hdr : option string) (req : ClaimRequest) (now : Clock)
        (s s1 : Store) (jid : string)
        (Hsecret : _validate_worker_secret cfg hdr = true)
        (Hengine : _atomically_claim_oldest (claim_worker_id req)
                                            (claim_runtime_pref req) now s
                   = (Some jid, s1))
        (Hid : jid <> "") :
  exists j1 j2,
    lookup jid s1 = Some j1 /\
    fst (worker_claim cfg req hdr now s)
    = inr (Some (mkClaimResponse jid (repo j1) (ref j1) (runtime j1) (command j1)
                                 (env j1) (timeout_seconds j1)
                                 (resource_limits j1))) /\
    snd (worker_claim cfg req hdr now s) = put jid j2 s1 /\
    state j2 = RUNNING /\
    worker_id j2 = Some (claim_worker_id req) /\
    claimed_at j2 = Some (now 0%nat) /\
    started_at j2 = (if Py.truthy_opt (started_at j1) then started_at j1
                     else Some (now 2%nat)) /\
    same_identity j1 j2.
Proof.
  unfold worker_claim. rewrite Hsecret, Hengine. simpl negb. cbv iota.
  assert (Ht : Py.truthy jid = true).
  { unfold Py.truthy. apply String.eqb_neq in Hid. now rewrite Hid. }
  rewrite Ht. simpl negb. cbv iota.
  unfold _atomically_claim_oldest in Hengine.
  destruct (Py.sort_by _ _) as [|[k job] tl]; [discriminate|].
  inversion Hengine; subst jid s1. clear Hengine.
  unfold _get_job. rewrite lookup_put_same.
  eexists; eexists. split; [reflexivity|].
  unfold _save_job. cbn [fst snd].
  split; [|split; [reflexivity|]].
  - cbn. destruct (Py.truthy_opt (started_at job)); reflexivity.
  - cbn. destruct (Py.truthy_opt (started_at job)); cbn;
      repeat split; eexists; reflexivity.
Qed.

Lemma worker_claim_starts_job_witness :
  exists j2,
    snd (worker_claim None (mkClaimRequest "w1" None) None (clock_at t1) store_enqueued)
    = put "job-1" j2 (snd (_atomically_claim_oldest "w1" None (clock_at t1)
                                                     store_enqueued)) /\
    state j2 = RUNNING /\ worker_id j2 = Some "w1".
Proof.
  destruct (worker_claim_starts_job None None (mkClaimRequest "w1" None) (clock_at t1)
              store_enqueued
              (snd (_atomically_claim_oldest "w1" None (clock_at t1) store_enqueued))
              "job-1" eq_refl eq_refl ltac:(discriminate))
    as (j1 & j2 & _ & _ & Hs & Hst & Hw & _).
  exists j2. auto.
Defined.


(** ** What every piece of work preserves *)

Lemma same_identity_refl (j : Job) : same_identity j j.
Proof.
  unfold same_identity. repeat split. exists []. now rewrite app_nil_r.
Qed.

Lemma same_identity_trans (a b c : Job) :
  same_identity a b -> same_identity b c -> same_identity a c.
Proof.
  unfold same_identity.
  intros (A1 & A2 & A3 & A4 & A5 & A6 & A7 & A8 & A9 & m1 & A10)
         (B1 & B2 & B3 & B4 & B5 & B6 & B7 & B8 & B9 & m2 & B10).
  repeat split; try congruence.
  exists (m1 ++ m2). rewrite B10, A10. now rewrite app_assoc.
Qed.

Lemma job_evolves_refl (j : Job) : job_evolves j j.
Proof.
  split; [apply same_identity_refl|]. split; intros; repeat split; auto.
Qed.

Lemma job_evolves_trans (a b c : Job) :
  job_evolves a b -> job_evolves b c -> job_evolves a c.
Proof.
  intros (I1 & P1 & N1) (I2 & P2 & N2).
  split; [eapply same_identity_trans; eauto|]. split.
  - intros Hc. destruct (P2 Hc) as (Hb & W & C & S & F & R).
    destruct (P1 Hb) as (Ha & W' & C' & S' & F' & R').
    repeat split; congruence.
  - intros Ha.
    assert (Hb : state b <> PENDING).
    { intros Hb. destruct (P1 Hb) as [Ha' _]. contradiction. }
    destruct (N1 Ha) as (W & C). destruct (N2 Hb) as (W' & C').
    repeat split; congruence.
Qed.

Lemma store_evolves_refl (s : Store) : store_evolves s s.
Proof.
  intros H. split; [exact H|]. intros jid j Hl. exists j.
  split; [exact Hl|apply job_evolves_refl].
Qed.

Lemma store_evolves_trans (s1 s2 s3 : Store) :
  store_evolves s1 s2 -> store_evolves s2 s3 -> store_evolves s1 s3.
Proof.
  intros H12 H23 H1. destruct (H12 H1) as [H2 K12].
  destruct (H23 H2) as [H3 K23]. split; [exact H3|].
  intros jid j Hl. destruct (K12 jid j Hl) as (j2 & Hl2 & E12).
  destruct (K23 jid j2 Hl2) as (j3 & Hl3 & E23).
  exists j3. split; [exact Hl3|]. eapply job_evolves_trans; eauto.
Qed.

Lemma store_evolves_put (jid : string) (j j' : Job) (s : Store) :
  lookup jid s = Some j -> job_evolves j j' -> store_evolves s (put jid j' s).
Proof.
  intros Hl He [Hnd Hwf]. split; [split|].
  - rewrite put_keys; [exact Hnd|]. eapply lookup_some_key; eauto.
  - intros k j0 Hk. destruct (String.eqb_spec k jid) as [->|Hne].
    + rewrite lookup_put_same in Hk. inversion Hk; subst j0.
      destruct (Hwf jid j Hl) as [Hid Hp].
      destruct He as (I & P & _). split.
      * destruct I as (I1 & _). congruence.
      * intros Hs. destruct (P Hs) as (Hs0 & W & C & S & F & R).
        destruct (Hp Hs0) as (W0 & C0 & S0 & F0 & R0).
        unfold pristine. repeat split; congruence.
    + rewrite lookup_put_other in Hk by exact Hne. eauto.
  - intros k j0 Hk. destruct (String.eqb_spec k jid) as [->|Hne].
    + rewrite Hl in Hk. inversion Hk; subst j0.
      exists j'. now rewrite lookup_put_same.
    + exists j0. rewrite lookup_put_other by exact Hne.
      split; [exact Hk|apply job_evolves_refl].
Qed.

Lemma store_evolves_put_fresh (jid : string) (j' : Job) (s : Store) :
  lookup jid s = None -> job_id j' = jid -> pristine j' ->
  store_evolves s (put jid j' s).
Proof.
  intros Hl Hid Hp [Hnd Hwf]. split; [split|].
  - apply lookup_none_notin in Hl. rewrite put_keys_fresh by exact Hl.
    apply NoDup_app; [exact Hnd|repeat constructor; intros []|].
    intros x Hx [<-|[]]. contradiction.
  - intros k j0 Hk. destruct (String.eqb_spec k jid) as [->|Hne].
    + rewrite lookup_put_same in Hk. inversion Hk; subst. auto.
    + rewrite lookup_put_other in Hk by exact Hne. eauto.
  - intros k j0 Hk. destruct (String.eqb_spec k jid) as [->|Hne].
    + rewrite Hl in Hk. discriminate.
    + exists j0. rewrite lookup_put_other by exact Hne.
      split; [exact Hk|apply job_evolves_refl].
Qed.

Lemma put_put (jid : string) (a b : Job) (s : Store) :
  put jid b (put jid a s) = put jid b s.
Proof.
  induction s as [|[k j0] rest IH]; simpl.
  - now rewrite String.eqb_refl.
  - destruct (k =? jid) eqn:E; simpl; rewrite E; [reflexivity|]. now rewrite IH.
Qed.

(** A job that leaves PENDING in the same rewrite may change anything
    but its identity. *)
Lemma job_evolves_from_pending (j j' : Job) :
  state j = PENDING -> state j' <> PENDING -> same_identity j j' ->
  job_evolves j j'.
Proof.
  intros Hs Hs' Hi. split; [exact Hi|]. split; intros; contradiction.
Qed.

(** A rewrite that does not end in PENDING and keeps the worker and the
    claim time. *)
Lemma job_evolves_kept (j j' : Job) :
  state j' <> PENDING -> same_identity j j' ->
  worker_id j' = worker_id j -> claimed_at j' = claimed_at j ->
  job_evolves j j'.
Proof.
  intros Hs Hi Hw Hc. split; [exact Hi|]. split; [intros; contradiction|auto].
Qed.

Lemma same_identity_log (line : string) (j : Job) : same_identity j (log_append line j).
Proof. unfold same_identity. simpl. repeat split. eexists. reflexivity. Qed.

(** Two rewrites of the same entry, the first one read back in
    between. *)
Lemma store_evolves_put_twice (jid : string) (j j1 j2 : Job) (s : Store) :
  lookup jid s = Some j -> job_evolves j j1 -> job_evolves j1 j2 ->
  store_evolves s (put jid j2 (put jid j1 s)).
Proof.
  intros Hl H1 H2. rewrite put_put. eapply store_evolves_put; [exact Hl|].
  eapply job_evolves_trans; eauto.
Qed.

Section Preservation.

Variable cfg : option string.
Variable ref_says_fail : string -> bool.

Lemma claim_oldest_store_evolves (w : string) (pref : option string)
      (now : Clock) (s : Store) :
  store_evolves s (snd (_atomically_claim_oldest w pref now s)).
Proof.
  intros Hwf.
  pose proof (claim_selects_eligible s w pref now (proj1 Hwf)) as H.
  destruct (_atomically_claim_oldest w pref now s) as [[jid|] s'] eqn:E; simpl.
  - destruct H as (pre & j & post & Hs & Hel & _ & _ & j' & Hs' & Hc).
    assert (Hl : lookup jid s = Some j).
    { apply in_lookup; [exact (proj1 Hwf)|]. rewrite Hs.
      apply in_or_app. right. now left. }
    assert (Hput : s' = put jid j' s).
    { rewrite Hs', Hs. symmetry. apply put_split.
      pose proof (proj1 Hwf) as Hnd. rewrite Hs, map_app in Hnd. simpl in Hnd.
      apply NoDup_remove_2 in Hnd. intros Hc'. apply Hnd.
      apply in_or_app. now left. }
    rewrite Hput. apply (store_evolves_put jid j j' s Hl); [|exact Hwf].
    unfold claimed_version in Hc.
    destruct Hc as (C1 & C2 & C3 & C4 & C5 & C6 & C7 & C8 & C9 & C10 & C11
                    & C12 & C13 & C14 & C15 & C16).
    apply job_evolves_from_pending.
    + eapply eligible_pending; eauto.
    + rewrite C1. discriminate.
    + unfold same_identity. repeat split; auto. eexists. exact C4.
  - destruct H as [-> _]. now apply store_evolves_refl.
Qed.

Lemma worker_claim_store_evolves (req : ClaimRequest) (hdr : option string)
      (now : Clock) (s : Store) :
  store_evolves s (snd (worker_claim cfg req hdr now s)).
Proof.
  intros Hwf.
  pose proof (claim_oldest_store_evolves (claim_worker_id req)
                (claim_runtime_pref req) now s Hwf) as He.
  pose proof (claim_oldest_put (claim_worker_id req) (claim_runtime_pref req)
                now s (proj1 Hwf)) as Hp.
  unfold worker_claim.
  destruct (negb (_validate_worker_secret cfg hdr));
    [apply store_evolves_refl; exact Hwf|].
  destruct (_atomically_claim_oldest (claim_worker_id req)
              (claim_runtime_pref req) now s) as [[jid|] s1]; simpl in *;
    [|exact He].
  destruct (negb (Py.truthy jid)); [exact He|].
  destruct Hp as (j & j1 & Hl & Hs & -> & Hs1 & Hw1).
  unfold _get_job. rewrite lookup_put_same. simpl. unfold _save_job.
  rewrite put_put.
  destruct He as [_ He]. destruct (He jid j Hl) as (j1' & Hl1 & (Hi & _)).
  rewrite lookup_put_same in Hl1. inversion Hl1; subst j1'.
  apply (store_evolves_put jid j _ s Hl); [|exact Hwf].
  apply job_evolves_from_pending; [exact Hs| |].
  - destruct (Py.truthy_opt (started_at j1)); simpl; discriminate.
  - eapply same_identity_trans; [exact Hi|].
    destruct (Py.truthy_opt (started_at j1)); unfold same_identity; simpl;
      repeat split; eexists; reflexivity.
Qed.

Lemma append_job_logs_store_evolves (jid : string) (req : AppendLogRequest)
      (hdr : option string) (now : Clock) (s : Store) :
  store_evolves s (snd (append_job_logs cfg jid req hdr now s)).
Proof.
  unfold append_job_logs.
  destruct (negb (_validate_worker_secret cfg hdr)); [apply store_evolves_refl|].
  unfold _get_job. destruct (lookup jid s) as [j|] eqn:Hl;
    [|apply store_evolves_refl].
  destruct (worker_mismatch j (append_worker_id req)); [apply store_evolves_refl|].
  simpl. unfold _save_job. eapply store_evolves_put; [exact Hl|].
  unfold job_evolves, same_identity. simpl.
  repeat split; auto. eexists. reflexivity.
Qed.

Lemma complete_job_store_evolves (jid : string) (req : CompleteRequest)
      (hdr : option string) (now : Clock) (s : Store) :
  store_evolves s (snd (complete_job cfg jid req hdr now s)).
Proof.
  unfold complete_job.
  destruct (negb (_validate_worker_secret cfg hdr)); [apply store_evolves_refl|].
  unfold _get_job. destruct (lookup jid s) as [j|] eqn:Hl;
    [|apply store_evolves_refl].
  destruct (worker_mismatch j (complete_worker_id req)); [apply store_evolves_refl|].
  simpl. unfold _save_job. eapply store_evolves_put; [exact Hl|].
  apply job_evolves_kept; try reflexivity.
  - simpl. destruct (complete_success req); discriminate.
  - unfold same_identity. simpl. repeat split. eexists. reflexivity.
Qed.

Lemma cancel_job_store_evolves (jid : string) (now : Clock) (s : Store) :
  store_evolves s (snd (cancel_job jid now s)).
Proof.
  unfold cancel_job, _get_job.
  destruct (lookup jid s) as [j|] eqn:Hl; [|apply store_evolves_refl].
  destruct (is_terminal (state j)); [apply store_evolves_refl|].
  simpl. unfold _save_job. eapply store_evolves_put; [exact Hl|].
  apply job_evolves_kept; try reflexivity.
  - simpl. discriminate.
  - unfold same_identity. simpl. repeat split. eexists. reflexivity.
Qed.

Lemma enqueue_job_store_evolves (req : JobRequest) (jid : string) (now : Clock)
      (s : Store) :
  lookup jid s = None -> store_evolves s (snd (enqueue_job req jid now s)).
Proof.
  intros Hfresh. unfold enqueue_job, _save_job. simpl.
  apply store_evolves_put_fresh; auto. unfold pristine. simpl. auto.
Qed.

Lemma sim_finish_store_evolves (jid : string) (now : Clock) (k : nat) (s : Store) :
  store_evolves s (sim_finish ref_says_fail jid now k s).
Proof.
  unfold sim_finish. destruct (lookup jid s) as [j|] eqn:Hl;
    [|apply store_evolves_refl].
  unfold _save_job. eapply store_evolves_put; [exact Hl|].
  destruct (ref_says_fail (ref j)); apply job_evolves_kept; try reflexivity;
    try (simpl; discriminate);
    unfold same_identity; simpl; repeat split; eexists; reflexivity.
Qed.

Lemma sim_resume_store_evolves (jid : string) (todo : list string) (now : Clock)
      (k : nat) (s : Store) :
  store_evolves s (fst (sim_resume ref_says_fail jid todo now k s)).
Proof.
  unfold sim_resume. destruct todo as [|step rest];
    [apply sim_finish_store_evolves|].
  destruct (lookup jid s) as [j|] eqn:Hl; [|apply store_evolves_refl].
  destruct (JobState_eqb (state j) CANCELED) eqn:Ec; cbn [fst]; unfold _save_job;
    (eapply store_evolves_put; [exact Hl|]).
  - apply job_evolves_kept; try reflexivity; [|apply same_identity_log].
    simpl. destruct (state j); simpl in Ec; congruence.
  - unfold job_evolves. split; [apply same_identity_log|].
    simpl. split; intros; repeat split; auto.
Qed.

Lemma simulate_store_evolves (jid : string) (st : SimState) (now : Clock) (s : Store) :
  store_evolves s (fst (_simulate_job_run ref_says_fail jid st now s)).
Proof.
  unfold _simulate_job_run. destruct st as [|todo];
    [|apply sim_resume_store_evolves].
  destruct (lookup jid s) as [j|] eqn:Hl; [|apply store_evolves_refl].
  destruct (JobState_eqb (state j) CANCELED); [apply store_evolves_refl|].
  eapply store_evolves_trans; [|apply sim_resume_store_evolves].
  unfold _save_job. eapply store_evolves_put; [exact Hl|].
  unfold job_evolves, same_identity. simpl.
  repeat split; try discriminate; auto. eexists. reflexivity.
Qed.

Lemma sys_step_store_evolves (y y' : Sys) :
  sys_step cfg ref_says_fail y y' -> store_evolves (fst y) (fst y').
Proof.
  intros H. destruct H; cbn [fst].
  - now apply enqueue_job_store_evolves.
  - apply worker_claim_store_evolves.
  - apply append_job_logs_store_evolves.
  - apply complete_job_store_evolves.
  - apply cancel_job_store_evolves.
  - apply simulate_store_evolves.
Qed.

Lemma sys_steps_store_evolves (y y' : Sys) :
  sys_steps cfg ref_says_fail y y' -> store_evolves (fst y) (fst y').
Proof.
  induction 1 as [y|y y1 y2 H1 _ IH].
  - apply store_evolves_refl.
  - eapply store_evolves_trans; [eapply sys_step_store_evolves; exact H1|exact IH].
Qed.

Lemma store_wf_empty : store_wf [].
Proof. split; [constructor|]. intros jid j H. discriminate. Qed.

Lemma sys_reachable_wf (y : Sys) :
  sys_reachable cfg ref_says_fail y -> store_wf (fst y).
Proof. intros H. exact (proj1 (sys_steps_store_evolves _ _ H store_wf_empty)). Qed.

(** X6. However requests and the pieces of the simulated runs follow
    one another, the store keeps its keys unique and every job under its
    own [job_id], and a PENDING job is pristine: no worker, no result,
    and none of [claimed_at], [started_at], [finished_at]. *)
Theorem reachable_store_wf
        (s : Store) (runs : list (string * SimState))
        (Hreach : sys_reachable cfg ref_says_fail (s, runs)) :
  NoDup (map fst s) /\
  forall jid j, lookup jid s = Some j ->
                job_id j = jid /\ (state j = PENDING -> pristine j).
Proof. exact (sys_reachable_wf (s, runs) Hreach). Qed.

(** X7. Whatever requests and pieces of simulated runs follow, a stored
    job is never removed, it keeps its [job_id], [created_at], repo, ref,
    runtime, command, env, timeout and limits, and its log only grows at
    the end: the entries it had are still there, first and in the same
    order. *)
Theorem logs_append_only
        (s s' : Store) (runs runs' : list (string * SimState))
        (jid : string) (j : Job)
        (Hreach : sys_reachable cfg ref_says_fail (s, runs))
        (Hlater : sys_steps cfg ref_says_fail (s, runs) (s', runs'))
        (Hjob : lookup jid s = Some j) :
  exists j', lookup jid s' = Some j' /\ same_identity j j'.
Proof.
  destruct (sys_steps_store_evolves _ _ Hlater (sys_reachable_wf _ Hreach)) as [_ H].
  destruct (H jid j Hjob) as (j' & Hl & Hi & _). eauto.
Qed.

(** X8. Whatever requests and pieces of simulated runs follow, a job
    that has left PENDING never returns to it, and its [claimed_at] and
    its worker, once set, keep their value: a job is claimed at most
    once, and the simulated runner never takes a job from its worker. *)
Theorem claimed_once
        (s s' : Store) (runs runs' : list (string * SimState))
        (jid : string) (j : Job)
        (Hreach : sys_reachable cfg ref_says_fail (s, runs))
        (Hlater : sys_steps cfg ref_says_fail (s, runs) (s', runs'))
        (Hjob : lookup jid s = Some j) :
  exists j',
    lookup jid s' = Some j' /\
    (state j <> PENDING -> state j' <> PENDING) /\
    (forall t, claimed_at j = Some t -> claimed_at j' = Some t) /\
    (forall w, worker_id j = Some w -> worker_id j' = Some w).
Proof.
  pose proof (sys_reachable_wf _ Hreach) as Hwf.
  destruct (sys_steps_store_evolves _ _ Hlater Hwf) as [_ H].
  destruct (H jid j Hjob) as (j' & Hl & _ & P & N).
  destruct (proj2 Hwf jid j Hjob) as [_ Hp].
  exists j'. split; [exact Hl|]. split; [|split].
  - intros Hs Hs'. destruct (P Hs') as [Hs0 _]. contradiction.
  - intros t Ht. destruct (state j) eqn:Es;
      try (destruct N as (_ & C); [discriminate|congruence]).
    destruct (Hp eq_refl) as (_ & C & _). congruence.
  - intros w Hw. destruct (state j) eqn:Es;
      try (destruct N as (W & _); [discriminate|congruence]).
    destruct (Hp eq_refl) as (W & _). congruence.
Qed.

End Preservation.

Lemma sys_claimed_reachable :
  sys_reachable None (fun _ => false) (store_claimed_by "w1", [("job-1", SimNew)]).
Proof.
  refine (sys_steps_step None _ _ _ _
            (sys_enqueue None _ sample_request "job-1" (clock_at t0) [] [] eq_refl) _).
  refine (sys_steps_step None _ _ _ _
            (sys_claim None _ (mkClaimRequest "w1" None) None (clock_at t1) _ _) _).
  apply sys_steps_refl.
Qed.

Lemma sys_claimed_then_simulated :
  exists runs',
    sys_steps None (fun _ => false)
              (store_claimed_by "w1", [("job-1", SimNew)]) (store_simulated, runs').
Proof.
  eexists. unfold store_simulated.
  refine (sys_steps_step None _ _ _ _
            (sys_simulate None _ "job-1" SimNew (clock_at t2)
                          (store_claimed_by "w1") [] []) _).
  apply sys_steps_refl.
Qed.

Lemma reachable_store_wf_witness :
  NoDup (map fst (store_claimed_by "w1")).
Proof.
  exact (proj1 (reachable_store_wf None (fun _ => false) (store_claimed_by "w1")
                                   [("job-1", SimNew)] sys_claimed_reachable)).
Defined.

Lemma logs_append_only_witness :
  exists j j', lookup "job-1" (store_claimed_by "w1") = Some j /\
               lookup "job-1" store_simulated = Some j' /\ same_identity j j'.
Proof.
  assert (H : exists j, lookup "job-1" (store_claimed_by "w1") = Some j)
    by (eexists; vm_compute; reflexivity).
  destruct H as [j Hj]. destruct sys_claimed_then_simulated as [runs' Hlater].
  destruct (logs_append_only None (fun _ => false) (store_claimed_by "w1")
              store_simulated [("job-1", SimNew)] runs' "job-1" j
              sys_claimed_reachable Hlater Hj)
    as (j' & Hl & Hi).
  exists j, j'. auto.
Defined.

Lemma claimed_once_witness :
  exists j', lookup "job-1" store_simulated = Some j' /\ worker_id j' = Some "w1".
Proof.
  assert (H : exists j, lookup "job-1" (store_claimed_by "w1") = Some j /\
                        worker_id j = Some "w1")
    by (eexists; split; vm_compute; reflexivity).
  destruct H as (j & Hj & Hw). destruct sys_claimed_then_simulated as [runs' Hlater].
  destruct (claimed_once None (fun _ => false) (store_claimed_by "w1")
              store_simulated [("job-1", SimNew)] runs' "job-1" j
              sys_claimed_reachable Hlater Hj)
    as (j' & Hl & _ & _ & Hkeep).
  exists j'. auto.
Defined.

(** ** The simulated runner *)

Section Runner.

Variable ref_says_fail : string -> bool.

Lemma sim_resume_step (jid step : string) (rest : list string) (now : Clock)
      (k : nat) (s : Store) (j : Job) :
  lookup jid s = Some j -> state j <> CANCELED ->
  sim_resume ref_says_fail jid (step :: rest) now k s
  = (put jid (log_append ("[" ++ now k ++ "] " ++ step ++ " ...") j) s,
     Some (SimLoop rest)).
Proof.
  intros Hl Hs. unfold sim_resume. rewrite Hl.
  destruct (JobState_eqb (state j) CANCELED) eqn:E; [|reflexivity].
  destruct (state j); simpl in E; congruence.
Qed.

(** X9. A simulated run left alone goes through to the end whatever
    state other than CANCELED it finds the job in, be it PENDING, held
    by a worker or already finished by one: after its seven pieces the
    job is FAILED when the ref says fail and SUCCESS otherwise, with the
    simulated result in place of any earlier one; [started_at] and
    [finished_at] are the runner's own readings of the clock; eight
    lines are added to the log; the worker and [claimed_at] are as they
    were, and no other job is touched. *)
Theorem simulated_run_alone
        (jid : string) (j : Job) (s : Store) (c1 c2 c3 c4 c5 c6 c7 : Clock)
        (Hjob : lookup jid s = Some j)
        (Hstate : state j <> CANCELED) :
  exists j',
    simulate_alone ref_says_fail jid SimNew [c1; c2; c3; c4; c5; c6; c7] s
    = put jid j' s /\
    state j' = (if ref_says_fail (ref j) then FAILED else SUCCESS) /\
    result j' = Some (if ref_says_fail (ref j)
                      then mkResult 1 "Simulated failure" None
                      else mkResult 0 "Simulated success" None) /\
    started_at j' = Some (c1 0%nat) /\
    finished_at j' = Some (c7 1%nat) /\
    worker_id j' = worker_id j /\ claimed_at j' = claimed_at j /\
    (exists added, logs j' = logs j ++ added /\ length added = 8%nat) /\
    same_identity j j'.
Proof.
  assert (Hrun : forall (j0 : Job), state j0 = RUNNING -> state j0 <> CANCELED)
    by (intros j0 H; rewrite H; discriminate).
  cbn [simulate_alone]. unfold _simulate_job_run at 1. rewrite Hjob.
  destruct (JobState_eqb (state j) CANCELED) eqn:E;
    [destruct (state j); simpl in E; congruence|].
  unfold _save_job, sim_steps.
  rewrite (sim_resume_step _ _ _ _ _ _ _ (lookup_put_same _ _ _))
    by (apply Hrun; reflexivity).
  rewrite put_put.
  do 5 (cbn [_simulate_job_run];
        rewrite (sim_resume_step _ _ _ _ _ _ _ (lookup_put_same _ _ _))
          by (apply Hrun; reflexivity);
        rewrite put_put).
  cbn [_simulate_job_run sim_resume]. unfold sim_finish.
  rewrite lookup_put_same. unfold _save_job. rewrite put_put.
  eexists. split; [reflexivity|].
  cbn [ref log_append set_logs set_state set_started_at].
  destruct (ref_says_fail (ref j)); cbn;
    (repeat (split; [reflexivity|]); split;
     [eexists; split; [rewrite <- !app_assoc; reflexivity|reflexivity]
     |unfold same_identity; cbn; repeat (split; [reflexivity|]);
      eexists; rewrite <- !app_assoc; reflexivity]).
Qed.

(** X10. Cancel and the simulated run.  After an accepted cancel of a
    job that was not finished, a run that has not started ends at once
    and changes nothing; a run asleep in its loop with steps still to
    take logs that it was aborted, ends, and leaves the job CANCELED;
    but a run asleep after its last step does not look at the state any
    more: it finishes the job as SUCCESS or FAILED, in place of
    CANCELED. *)
Theorem cancel_and_simulated_run
        (jid : string) (j : Job) (s : Store) (now now' : Clock)
        (Hjob : lookup jid s = Some j)
        (Hopen : is_terminal (state j) = false) :
  let s1 := snd (cancel_job jid now s) in
  _simulate_job_run ref_says_fail jid SimNew now' s1 = (s1, None) /\
  (forall step rest,
      exists j',
        _simulate_job_run ref_says_fail jid (SimLoop (step :: rest)) now' s1
        = (put jid j' s1, None) /\
        state j' = CANCELED /\
        logs j' = logs j ++ [("[" ++ now 0%nat ++ "] CANCELED by request")%string;
                             ("[" ++ now' 0%nat
                              ++ "] state=CANCELED: run aborted")%string]) /\
  (exists j',
      _simulate_job_run ref_says_fail jid (SimLoop []) now' s1 = (put jid j' s1, None) /\
      state j' = (if ref_says_fail (ref j) then FAILED else SUCCESS) /\
      finished_at j' = Some (now' 1%nat)).
Proof.
  cbv zeta. unfold cancel_job, _get_job. rewrite Hjob, Hopen. cbn [snd].
  unfold _save_job. split; [|split].
  - unfold _simulate_job_run. rewrite lookup_put_same. reflexivity.
  - intros step rest. unfold _simulate_job_run, sim_resume.
    rewrite lookup_put_same. cbn [state set_finished_at log_append set_logs set_state
                                  JobState_eqb].
    eexists. split; [reflexivity|]. split; [reflexivity|].
    cbn. now rewrite <- app_assoc.
  - unfold _simulate_job_run, sim_resume, sim_finish. rewrite lookup_put_same.
    eexists. split; [reflexivity|].
    cbn [ref set_finished_at log_append set_logs set_state].
    destruct (ref_says_fail (ref j)); split; reflexivity.
Qed.

End Runner.

Lemma simulated_run_alone_witness :
  exists j',
    simulate_alone (fun _ => false) "job-1" SimNew
                   [clock_at t2; clock_at t2; clock_at t2; clock_at t2;
                    clock_at t2; clock_at t2; clock_at t3] (store_claimed_by "w1")
    = put "job-1" j' (store_claimed_by "w1") /\
    state j' = SUCCESS /\ worker_id j' = Some "w1".
Proof.
  assert (H : exists j, lookup "job-1" (store_claimed_by "w1") = Some j /\
                        state j <> CANCELED /\ worker_id j = Some "w1").
  { eexists. split; [vm_compute; reflexivity|]. split; [discriminate|reflexivity]. }
  destruct H as (j & Hj & Hs & Hw).
  destruct (simulated_run_alone (fun _ => false) "job-1" j (store_claimed_by "w1")
              (clock_at t2) (clock_at t2) (clock_at t2) (clock_at t2)
              (clock_at t2) (clock_at t2) (clock_at t3) Hj Hs)
    as (j' & Hrun & Hst & _ & _ & _ & Hw' & _).
  exists j'. split; [exact Hrun|]. split; [exact Hst|congruence].
Defined.

Lemma cancel_and_simulated_run_witness :
  exists j',
    _simulate_job_run (fun _ => false) "job-1" (SimLoop []) (clock_at t3) store_canceled
    = (put "job-1" j' store_canceled, None) /\
    state j' = SUCCESS.
Proof.
  assert (H : exists j, lookup "job-1" (store_claimed_by "w1") = Some j /\
                        is_terminal (state j) = false)
    by (eexists; split; vm_compute; reflexivity).
  destruct H as (j & Hj & Hs).
  destruct (cancel_and_simulated_run (fun _ => false) "job-1" j
              (store_claimed_by "w1") (clock_at t2) (clock_at t3) Hj Hs)
    as (_ & _ & j' & Hrun & Hst & _).
  exists j'. split; [exact Hrun|exact Hst].
Defined.

(** ** Claims and the other operations *)

Lemma pending_ids_lookup (s : Store) (jid : string) :
  NoDup (map fst s) -> In jid (pending_ids s) ->
  exists j, lookup jid s = Some j /\ state j = PENDING.
Proof.
  intros Hnd H. unfold pending_ids in H. apply in_map_iff in H.
  destruct H as ([k j] & Hk & Hin). simpl in Hk. subst k.
  apply filter_In in Hin. destruct Hin as [Hin Hp].
  exists j. split; [now apply in_lookup|].
  unfold is_pending in Hp. simpl in Hp. destruct (state j); simpl in Hp; congruence.
Qed.

Lemma cancel_job_keys (jid : string) (now : Clock) (s : Store) :
  map fst (snd (cancel_job jid now s)) = map fst s.
Proof.
  unfold cancel_job, _get_job. destruct (lookup jid s) as [j|] eqn:Hl; [|reflexivity].
  destruct (is_terminal (state j)); [reflexivity|]. simpl. unfold _save_job.
  apply put_keys. eapply lookup_some_key; eauto.
Qed.

Lemma cancel_job_not_pending (jid : string) (now : Clock) (s : Store) (j : Job) :
  lookup jid (snd (cancel_job jid now s)) = Some j -> state j <> PENDING.
Proof.
  unfold cancel_job, _get_job. destruct (lookup jid s) as [j0|] eqn:Hl.
  - destruct (is_terminal (state j0)) eqn:Ht; simpl.
    + rewrite Hl. intros H. inversion H; subst.
      destruct (state j); simpl in Ht; congruence.
    + unfold _save_job. rewrite lookup_put_same. intros H. inversion H; subst.
      simpl. discriminate.
  - simpl. congruence.
Qed.

(** X11. Claims hand out only jobs that are PENDING when the claims
    start; so once [cancel_job] has been called for a job, whatever it
    answered, no sequence of claims hands that job out. *)
Theorem canceled_job_never_claimed
        (s : Store) (jid : string) (now : Clock) (sched : list Caller)
        (Hstore : NoDup (map fst s)) :
  (forall k, In k (delivered (fst (run_claims sched s))) ->
             exists j, lookup k s = Some j /\ state j = PENDING) /\
  ~ In jid (delivered (fst (run_claims sched (snd (cancel_job jid now s))))).
Proof.
  split.
  - intros k Hk. apply pending_ids_lookup; [exact Hstore|].
    now apply (proj2 (run_claims_delivered sched s Hstore)).
  - intros Hin.
    assert (Hnd : NoDup (map fst (snd (cancel_job jid now s))))
      by (rewrite cancel_job_keys; exact Hstore).
    apply (proj2 (run_claims_delivered sched _ Hnd)) in Hin.
    apply pending_ids_lookup in Hin; [|exact Hnd].
    destruct Hin as (j & Hl & Hs).
    exact (cancel_job_not_pending jid now s j Hl Hs).
Qed.

Lemma canceled_job_never_claimed_witness :
  ~ In "job-1"
       (delivered (fst (run_claims [("w2", None, clock_at t3)]
                                   (snd (cancel_job "job-1" (clock_at t2)
                                                    store_enqueued))))).
Proof.
  refine (proj2 (canceled_job_never_claimed store_enqueued "job-1" (clock_at t2)
                   [("w2", None, clock_at t3)] _)).
  vm_compute. repeat constructor. intros [].
Defined.

(** ** Draining the queue *)

Section SortExtract.

Context {A : Type} (key : A -> string).

Lemma sort_by_in (l : list A) (y : A) : In y (Py.sort_by key l) <-> In y l.
Proof.
  assert (Hi : forall x l0, In y (Py.insert_by key x l0) <-> y = x \/ In y l0).
  { intros x l0. induction l0 as [|z zs IH]; simpl.
    - intuition.
    - destruct (key x <=? key z); simpl; [intuition|]. rewrite IH. intuition. }
  induction l as [|x xs IH]; simpl; [tauto|].
  rewrite Hi, IH. intuition.
Qed.

Lemma insert_min (m : A) (l : list A) :
  (forall y, In y l -> (key m <=? key y) = true) ->
  Py.insert_by key m l = m :: l.
Proof.
  intros H. destruct l as [|y ys]; [reflexivity|].
  cbn [Py.insert_by]. now rewrite (H y (or_introl eq_refl)).
Qed.

(** The stable sort puts first the first of the minimal elements and
    sorts the others as if it were not there. *)
Lemma sort_by_extract (pre post : list A) (m : A) :
  (forall y, In y pre -> (key y <=? key m) = false) ->
  (forall y, In y post -> (key m <=? key y) = true) ->
  Py.sort_by key (pre ++ m :: post) = m :: Py.sort_by key (pre ++ post).
Proof.
  intros Hpre Hpost. induction pre as [|x pre IH].
  - cbn [app Py.sort_by]. apply insert_min. intros y Hy. apply Hpost.
    exact (proj1 (sort_by_in post y) Hy).
  - cbn [app Py.sort_by]. rewrite IH by (intros y Hy; apply Hpre; now right).
    cbn [Py.insert_by]. now rewrite (Hpre x (or_introl eq_refl)).
Qed.

End SortExtract.

Lemma eligible_no_preference (c : Caller) (j : Job) :
  no_preference c = true ->
  eligible (caller_pref c) j = JobState_eqb (state j) PENDING.
Proof.
  unfold no_preference, eligible. destruct (caller_pref c) as [r|].
  - intros ->. apply andb_true_r.
  - intros _. apply andb_true_r.
Qed.

Lemma filter_pending_in (s : Store) (k : string) (j : Job) :
  In (k, j) (filter is_pending s) <-> In (k, j) s /\ JobState_eqb (state j) PENDING = true.
Proof. rewrite filter_In. reflexivity. Qed.

(** One claim without preference takes the head of [claim_order] and
    leaves its tail. *)
Lemma claim_order_step (w : string) (pref : option string) (now : Clock) (s : Store) :
  NoDup (map fst s) -> no_preference (w, pref, now) = true ->
  match _atomically_claim_oldest w pref now s with
  | (None, s') => s' = s /\ claim_order s = []
  | (Some jid, s') =>
      NoDup (map fst s') /\ claim_order s = jid :: claim_order s'
  end.
Proof.
  intros Hnd Hno.
  pose proof (claim_selects_eligible s w pref now Hnd) as H.
  assert (El : forall j, eligible pref j = JobState_eqb (state j) PENDING)
    by (intros j; exact (eligible_no_preference (w, pref, now) j Hno)).
  destruct (_atomically_claim_oldest w pref now s) as [[jid|] s'].
  - destruct H as (pre & j & post & -> & Hel & Hpre & Hpost & j' & -> & Hc).
    split.
    + rewrite map_app in *. simpl in *. exact Hnd.
    + unfold claim_order. rewrite !filter_app. simpl.
      rewrite El in Hel. destruct Hc as (Hc & _).
      assert (Hj : is_pending (jid, j) = true) by exact Hel.
      assert (Hj' : is_pending (jid, j') = false)
        by (unfold is_pending; simpl; now rewrite Hc).
      rewrite Hj, Hj'.
      rewrite sort_by_extract; [reflexivity| |].
      * intros [k j0] Hy. apply filter_pending_in in Hy. destruct Hy as [Hy Hs].
        simpl. apply (Hpre k j0 Hy). now rewrite El.
      * intros [k j0] Hy. apply filter_pending_in in Hy. destruct Hy as [Hy Hs].
        simpl. apply (Hpost k j0 Hy). now rewrite El.
  - destruct H as [-> Hnone]. split; [reflexivity|].
    unfold claim_order.
    destruct (filter is_pending s) as [|[k j] tl] eqn:Ef; [reflexivity|].
    assert (Hin : In (k, j) (filter is_pending s)) by (rewrite Ef; now left).
    apply filter_pending_in in Hin. destruct Hin as [Hin Hs].
    specialize (Hnone k j Hin). rewrite El in Hnone. congruence.
Qed.

(** X12. Claims without a runtime preference drain the queue oldest
    first: taking effect one after the other, they receive the PENDING
    jobs in the order of [created_at], the earlier enqueued first among
    equal times, and every claim made after the queue is empty receives
    nothing. *)
Theorem claims_drain_oldest_first
        (s : Store) (callers : list Caller)
        (Hstore : NoDup (map fst s))
        (Hpref : forall c, In c callers -> no_preference c = true) :
  fst (run_claims callers s)
  = map Some (firstn (length callers) (claim_order s))
    ++ repeat None (length callers - length (claim_order s)).
Proof.
  revert s Hstore. induction callers as [|[[w pref] now] rest IH]; intros s Hnd.
  - reflexivity.
  - pose proof (claim_order_step w pref now s Hnd
                  (Hpref _ (or_introl eq_refl))) as H.
    simpl run_claims.
    destruct (_atomically_claim_oldest w pref now s) as [[jid|] s1].
    + destruct H as [Hnd1 Ho].
      specialize (IH (fun c Hc => Hpref c (or_intror Hc)) s1 Hnd1).
      destruct (run_claims rest s1) as [rs s2]. simpl in *.
      rewrite Ho. simpl. now rewrite IH.
    + destruct H as [-> Ho].
      specialize (IH (fun c Hc => Hpref c (or_intror Hc)) s Hnd).
      destruct (run_claims rest s) as [rs s2]. simpl in *.
      rewrite IH, Ho. simpl. now rewrite firstn_nil, Nat.sub_0_r.
Qed.

Lemma claims_drain_oldest_first_witness :
  fst (run_claims [("w1", None, clock_at t2); ("w2", Some "", clock_at t2);
                   ("w3", None, clock_at t3)] store_two_pending)
  = [Some "job-2"; Some "job-1"; None].
Proof.
  refine (eq_trans (claims_drain_oldest_first store_two_pending _ _ _) _).
  - vm_compute. repeat constructor; simpl; intuition discriminate.
  - intros c [<-|[<-|[<-|[]]]]; reflexivity.
  - vm_compute. reflexivity.
Defined.

(* ================================================================== *)
(** * Further properties of the hybrid agent *)
(* ================================================================== *)

(** ** The queue directory *)

Lemma str_eqb_neq (a b : str) : str_eqb a b = false <-> a <> b.
Proof.
  split.
  - intros H E. apply str_eqb_eq in E. congruence.
  - intros H. destruct (str_eqb a b) eqn:E; [|reflexivity].
    apply str_eqb_eq in E. contradiction.
Qed.

Lemma dir_lookup_removed (name : str) (d : Dir) :
  dir_lookup name (dir_remove name d) = None.
Proof.
  induction d as [|[n text] rest IH]; simpl; [reflexivity|].
  destruct (str_eqb n name) eqn:E; [exact IH|]. simpl. now rewrite E.
Qed.

Lemma dir_lookup_remove_other (name other : str) (d : Dir) :
  other <> name -> dir_lookup other (dir_remove name d) = dir_lookup other d.
Proof.
  intros Hne. induction d as [|[n text] rest IH]; simpl; [reflexivity|].
  destruct (str_eqb n name) eqn:E.
  - apply str_eqb_eq in E. subst n.
    assert (H : str_eqb name other = false) by (apply str_eqb_neq; congruence).
    now rewrite H.
  - simpl. now rewrite IH.
Qed.

Lemma dir_lookup_write_other (name other text : str) (d : Dir) :
  other <> name -> dir_lookup other (dir_write name text d) = dir_lookup other d.
Proof.
  intros Hne. unfold dir_write. simpl.
  assert (H : str_eqb name other = false) by (apply str_eqb_neq; congruence).
  rewrite H. now apply dir_lookup_remove_other.
Qed.

Lemma dir_remove_written (name text : str) (d : Dir) :
  dir_remove name (dir_write name text d) = dir_remove name d.
Proof.
  unfold dir_write. simpl. rewrite str_eqb_refl.
  induction d as [|[n t] rest IH]; simpl; [reflexivity|].
  destruct (str_eqb n name) eqn:E; [exact IH|]. simpl. now rewrite E, IH.
Qed.

Lemma running_name_differs (fname : str) : fname <> fname ++ Agent.RUNNING_SUFFIX.
Proof.
  intros H. apply (f_equal (@length N)) in H. rewrite length_app in H.
  simpl in H. lia.
Qed.

(** ** One pass over a queue file *)

(** The messages of [shlex.split] and of [build_command] are ASCII. *)
Lemma read_tokens_error (s : str) :
  forall (st : lex_state) (quoted : bool) (tok e : str),
    read_tokens st quoted tok s = inl e -> encodable e = true.
Proof.
  assert (Hemit : forall tok r e, (forall e', r = inl e' -> encodable e' = true) ->
                                  emit tok r = inl e -> encodable e = true).
  { intros tok [e'|l] e Hr H; simpl in H; [|discriminate].
    inversion H; subst. now apply Hr. }
  induction s as [|c rest IH]; intros st quoted tok e.
  - simpl. destruct st; try (destruct (truthy tok || quoted); discriminate);
      intros H; inversion H; apply encodable_lit.
  - simpl. destruct st as [| |q|back].
    + destruct (is_whitespace c).
      * destruct (truthy tok || quoted); [|apply IH].
        apply Hemit. intros e'. apply IH.
      * destruct (is_escape c); [apply IH|].
        destruct (is_quote c); apply IH.
    + destruct (is_whitespace c).
      * destruct (truthy tok || quoted); [|apply IH].
        apply Hemit. intros e'. apply IH.
      * destruct (is_quote c); [apply IH|].
        destruct (is_escape c); apply IH.
    + destruct (c =? q)%N; [apply IH|].
      destruct (is_escape c && is_escapedquote q); apply IH.
    + apply IH.
Qed.

Lemma build_error_encodable (cmd_text e : str) :
  snd (Agent.build_command cmd_text) = Some e -> encodable e = true.
Proof.
  unfold Agent.build_command.
  destruct (Agent.command_of_json cmd_text); [discriminate|].
  destruct (shlex_split cmd_text) as [msg|[|a l]] eqn:Es; cbn [snd]; intros H;
    try discriminate H.
  - assert (He : e = lit "failed to parse command: " ++ msg)
      by (injection H; intros <-; reflexivity).
    rewrite He, encodable_app, encodable_lit. cbn [andb].
    eapply read_tokens_error. exact Es.
  - assert (He : e = lit "could not parse command payload")
      by (injection H; intros <-; reflexivity).
    rewrite He. apply encodable_lit.
Qed.

Lemma build_error_text_encodable (cmd_text : str) :
  encodable (Agent.str_of_opt (snd (Agent.build_command cmd_text))) = true.
Proof.
  destruct (snd (Agent.build_command cmd_text)) as [e|] eqn:E.
  - exact (build_error_encodable cmd_text e E).
  - apply encodable_lit.
Qed.

Section ProcessSingle.

Variable secret : option str.
Variable dry_run : bool.
Variable max_seconds max_output : Z.
Variable run_job : list str -> Z -> Z -> Z * str * str.
Variable now_iso : str.

Local Notation "'process'" :=
  (Agent.process_single secret dry_run max_seconds max_output run_job now_iso)
  (only parsing).

(** Whatever the file holds, processing ends in [complete_job] on the
    claimed file. *)
Lemma process_single_completes (fname stored : str) (w : Agent.World) :
  dir_lookup fname (Agent.queue w) = Some stored ->
  exists r ex,
    process fname w
    = Agent.complete_job (fname ++ Agent.RUNNING_SUFFIX) (Agent.job_id_of fname) r
        (Agent.mkWorld (dir_write (fname ++ Agent.RUNNING_SUFFIX) stored
                                  (dir_remove fname (Agent.queue w)))
                       (Agent.results w) ex) /\
    Agent.timestamp r = now_iso /\
    (ex = Agent.executed w /\
     (Agent.stdout r = [] -> encodable now_iso = true ->
      Agent.result_writable r = true) \/
     dry_run = false /\
     exists argv, argv <> [] /\ ex = Agent.executed w ++ [argv] /\
                  (Agent.exitCode r, Agent.stdout r, Agent.stderr r)
                  = run_job argv max_seconds max_output /\
                  exists tok text,
                    Agent.parse_cmd_file (read_text stored) = (tok, text, None) /\
                    Agent.build_command (Agent.str_of_opt text) = (Some argv, None) /\
                    match secret with
                    | Some configured => Agent.secret_rejected configured tok = false
                    | None => True
                    end).
Proof.
  intros Hfile. unfold Agent.process_single, Agent.claim_job.
  rewrite Hfile, dir_lookup_written.
  assert (Hlit : forall (code : Z) (msg : str),
             encodable msg = true ->
             encodable now_iso = true ->
             Agent.result_writable (Agent.mkAgentResult code [] msg now_iso) = true).
  { intros code msg Hm Hn. unfold Agent.result_writable. simpl. now rewrite Hm, Hn. }
  destruct (Agent.parse_cmd_file (read_text stored)) as [[tok text] [e|]] eqn:Ep.
  - eexists _, _. split; [reflexivity|]. split; [reflexivity|]. left.
    split; [reflexivity|]. intros _. apply Hlit.
    rewrite encodable_app, encodable_lit. simpl.
    apply (parse_error_encodable (read_text stored)). now rewrite Ep.
  - destruct (match secret with
              | Some configured => Agent.secret_rejected configured tok
              | None => false
              end) eqn:Es.
    + eexists _, _. split; [reflexivity|]. split; [reflexivity|]. left.
      split; [reflexivity|]. intros _. apply Hlit. apply encodable_lit.
    + pose proof (build_error_text_encodable (Agent.str_of_opt text)) as Hbe.
      destruct (Agent.build_command (Agent.str_of_opt text)) as [[[|a argv]|] be] eqn:Eb.
      * eexists _, _. split; [destruct be; reflexivity|].
        split; [reflexivity|]. left. split; [reflexivity|]. intros _. apply Hlit.
        rewrite encodable_app, encodable_lit. exact Hbe.
      * destruct be as [be|].
        { eexists _, _. split; [reflexivity|]. split; [reflexivity|]. left.
          split; [reflexivity|]. intros _. apply Hlit.
          rewrite encodable_app, encodable_lit. exact Hbe. }
        destruct dry_run eqn:Ed.
        { eexists _, _. split; [reflexivity|]. split; [reflexivity|]. left.
          split; [reflexivity|]. intros H. discriminate H. }
        destruct (run_job (a :: argv) max_seconds max_output) as [[code out] err] eqn:Er.
        eexists _, _. split; [reflexivity|]. split; [reflexivity|]. right.
        split; [reflexivity|]. exists (a :: argv).
        split; [discriminate|]. split; [reflexivity|].
        split; [simpl; symmetry; exact Er|].
        exists tok, text. split; [first [reflexivity|exact Ep]|].
        split; [first [reflexivity|exact Eb]|].
        destruct secret; [exact Es|exact I].
      * eexists _, _. split; [destruct be; reflexivity|].
        split; [reflexivity|]. left. split; [reflexivity|]. intros _. apply Hlit.
        rewrite encodable_app, encodable_lit. exact Hbe.
Qed.

Lemma process_single_absent (fname : str) (w : Agent.World) :
  dir_lookup fname (Agent.queue w) = None -> process fname w = w.
Proof.
  intros H. unfold Agent.process_single, Agent.claim_job. now rewrite H.
Qed.

Lemma process_single_queue (fname stored : str) (w : Agent.World) :
  dir_lookup fname (Agent.queue w) = Some stored ->
  Agent.queue (process fname w)
  = dir_remove (fname ++ Agent.RUNNING_SUFFIX) (dir_remove fname (Agent.queue w)).
Proof.
  intros H. destruct (process_single_completes fname stored w H) as (r & ex & -> & _).
  unfold Agent.complete_job. simpl. apply dir_remove_written.
Qed.

Lemma process_single_gone (fname : str) (w : Agent.World) :
  dir_lookup fname (Agent.queue (process fname w)) = None.
Proof.
  destruct (dir_lookup fname (Agent.queue w)) as [stored|] eqn:H.
  - rewrite (process_single_queue fname stored w H).
    rewrite dir_lookup_remove_other by apply running_name_differs.
    apply dir_lookup_removed.
  - now rewrite process_single_absent.
Qed.

End ProcessSingle.




(** X14. A queue file is processed once: after one agent has processed
    it, a second pass over the same name, by the same or by another
    agent, finds nothing to claim and changes nothing. *)
Theorem process_single_once
        (secret secret' : option str) (dry_run dry_run' : bool)
        (max_seconds max_output max_seconds' max_output' : Z)
        (run_job run_job' : list str -> Z -> Z -> Z * str * str)
        (now_iso now_iso' : str) (fname : str) (w : Agent.World) :
  let w' := Agent.process_single secret dry_run max_seconds max_output
                                 run_job now_iso fname w in
  Agent.process_single secret' dry_run' max_seconds' max_output'
                       run_job' now_iso' fname w' = w'.
Proof.
  cbv zeta. apply process_single_absent. apply process_single_gone.
Qed.

(** X15. One pass executes at most one command.  It executes one only
    when the agent is not in dry-run mode, the file parses without
    error, the payload decodes to a non-empty argument list and, with a
    secret configured, the file's token passes the check; the command is
    then that argument list, run with the agent's limits, and its exit
    code and outputs, with the current time, are what the result
    carries: the result that is published when it can be written as
    UTF-8, and lost otherwise. *)
Theorem process_single_executes
        (secret : option str) (dry_run : bool) (max_seconds max_output : Z)
        (run_job : list str -> Z -> Z -> Z * str * str) (now_iso : str)
        (fname : str) (w : Agent.World) :
  let w' := Agent.process_single secret dry_run max_seconds max_output
                                 run_job now_iso fname w in
  Agent.executed w' = Agent.executed w \/
  exists stored tok text argv r,
    dry_run = false /\
    dir_lookup fname (Agent.queue w) = Some stored /\
    Agent.parse_cmd_file (read_text stored) = (tok, text, None) /\
    match secret with
    | Some configured => tok = Some configured /\ configured <> []
    | None => True
    end /\
    Agent.build_command (Agent.str_of_opt text) = (Some argv, None) /\
    argv <> [] /\
    Agent.executed w' = Agent.executed w ++ [argv] /\
    Agent.results w'
    = (if Agent.result_writable r
       then (Agent.job_id_of fname, r) :: Agent.results w
       else Agent.results w) /\
    (Agent.exitCode r, Agent.stdout r, Agent.stderr r)
    = run_job argv max_seconds max_output /\
    Agent.timestamp r = now_iso.
Proof.
  cbv zeta. destruct (dir_lookup fname (Agent.queue w)) as [stored|] eqn:Hf.
  - destruct (process_single_completes secret dry_run max_seconds max_output
                run_job now_iso fname stored w Hf)
      as (r & ex & -> & Ht
          & [[-> _]|(Hd & argv & Hne & -> & Hr & tok & text & Hp & Hb & Hs)]).
    + now left.
    + right. exists stored, tok, text, argv, r.
      repeat split; auto.
      destruct secret as [c|]; [|exact I].
      unfold Agent.secret_rejected in Hs. destruct tok as [t|]; [|discriminate].
      apply orb_false_iff in Hs. destruct Hs as [H1 H2].
      apply negb_false_iff in H1, H2. apply str_eqb_eq in H2. subst t.
      split; [reflexivity|]. destruct c; [discriminate|discriminate].
  - left. now rewrite process_single_absent.
Qed.

(** ** Decoding the payload *)

(** X16. [build_command] inverts [shlex.join]: from the text the worker
    makes of a non-empty argument list, whatever characters the
    arguments hold, it returns exactly that list and no error. *)
Theorem build_command_inverts_join (cmd : list str) (Hcommand : cmd <> []) :
  shlex_split (shlex_join cmd) = inr cmd /\
  Agent.build_command (shlex_join cmd) = (Some cmd, None).
Proof.
  split; [apply shlex_split_join|apply build_command_quoted; exact Hcommand].
Qed.

Lemma build_command_inverts_join_witness :
  Agent.build_command (shlex_join [lit "printf"; lit "a b"; lit "it's"; [10; 9]%N; []])
  = (Some [lit "printf"; lit "a b"; lit "it's"; [10; 9]%N; []], None).
Proof.
  refine (proj2 (build_command_inverts_join
                   [lit "printf"; lit "a b"; lit "it's"; [10; 9]%N; []] _)).
  discriminate.
Defined.

(** ** The shape of a parse *)

Lemma lstrip_head (s : str) (c : N) (t : str) :
  lstrip s = c :: t -> is_space c = false.
Proof.
  induction s as [|x s IH]; simpl; [discriminate|].
  destruct (is_space x) eqn:E; [exact IH|]. intros H. inversion H. now subst.
Qed.

Lemma lstrip_lstrip (s : str) : lstrip (lstrip s) = lstrip s.
Proof.
  destruct (lstrip s) as [|c t] eqn:E; [reflexivity|].
  simpl. now rewrite (lstrip_head s c t E).
Qed.

Lemma lstrip_app_last (a : str) (c : N) :
  is_space c = false -> exists l, lstrip (a ++ [c]) = l ++ [c].
Proof.
  intros Hc. induction a as [|x a IH]; simpl.
  - rewrite Hc. now exists [].
  - destruct (is_space x); [exact IH|]. now exists (x :: a).
Qed.

Lemma strip_lstrip (s : str) : lstrip (strip s) = strip s.
Proof.
  unfold strip, rstrip. destruct (lstrip s) as [|c t] eqn:E; [reflexivity|].
  pose proof (lstrip_head s c t E) as Hc.
  simpl rev. destruct (lstrip_app_last (rev t) c Hc) as [l ->].
  rewrite rev_app_distr. simpl. now rewrite Hc.
Qed.

Lemma strip_strip (s : str) : strip (strip s) = strip s.
Proof.
  unfold strip at 1. rewrite strip_lstrip.
  unfold strip, rstrip. now rewrite rev_involutive, lstrip_lstrip.
Qed.

Lemma parse_cmd_file_cases (contents : str) :
  match Agent.parse_cmd_file contents with
  | (secret, Some cmd_text, None) =>
      cmd_text <> [] /\ strip cmd_text = cmd_text
  | (secret, None, Some e) =>
      e = lit "no command payload found" \/ (secret = None /\ early_parse_error e)
  | _ => False
  end.
Proof.
  unfold Agent.parse_cmd_file, early_parse_error.
  destruct (splitlines contents) as [|l ls]; [auto|].
  destruct (Agent.skip_blank (l :: ls)) as [|first rest]; [auto|].
  destruct (negb (startswith Agent.MAGIC_HEADER (strip first))); [auto 6|].
  destruct (Agent.parse_headers None rest) as [secret cmd_lines].
  destruct (truthy (strip (join [LF] cmd_lines))) eqn:E; [|auto].
  split; [|apply strip_strip].
  intros H. rewrite H in E. discriminate.
Qed.

(** X17. [parse_cmd_file] returns either a command text and no error,
    or an error and no command text.  A command text it returns is never
    empty and has no whitespace at either end.  An error is one of four
    messages, and a secret token comes with an error only when the error
    is the missing payload. *)
Theorem parse_cmd_file_shape (contents : str) :
  match Agent.parse_cmd_file contents with
  | (secret, Some cmd_text, None) =>
      cmd_text <> [] /\ strip cmd_text = cmd_text
  | (secret, None, Some e) =>
      e = lit "no command payload found" \/ (secret = None /\ early_parse_error e)
  | _ => False
  end.
Proof. exact (parse_cmd_file_cases contents). Qed.

(** Once the header block has started, only a blank line ends it. *)
Lemma parse_headers_no_blank (secret : option str) (lines : list str) :
  forallb (fun l => negb (Agent.is_blank l)) lines = true ->
  snd (Agent.parse_headers secret lines) = [].
Proof.
  revert secret. induction lines as [|l rest IH]; intros secret H; [reflexivity|].
  simpl in H. apply andb_true_iff in H. destruct H as [Hl Hr].
  apply negb_true_iff in Hl. simpl. rewrite Hl. apply IH. exact Hr.
Qed.

(** X18. The blank line after the headers is required: a file whose
    first line carries the magic header and whose other lines are all
    non-blank has every one of them read as a header, and is rejected
    for want of a payload. *)
Theorem blank_separator_required
        (contents first : str) (rest : list str)
        (Hlines : splitlines contents = first :: rest)
        (Hmagic : startswith Agent.MAGIC_HEADER (strip first) = true)
        (Hrest : forallb (fun l => negb (Agent.is_blank l)) rest = true) :
  snd (Agent.parse_cmd_file contents) = Some (lit "no command payload found") /\
  snd (fst (Agent.parse_cmd_file contents)) = None.
Proof.
  unfold Agent.parse_cmd_file. rewrite Hlines.
  assert (Hb : Agent.is_blank first = false).
  { unfold Agent.is_blank. destruct (strip first); [discriminate Hmagic|reflexivity]. }
  cbn [Agent.skip_blank]. rewrite Hb, Hmagic. cbn [negb].
  pose proof (parse_headers_no_blank None rest Hrest) as Hp.
  destruct (Agent.parse_headers None rest) as [secret cmd_lines].
  simpl in Hp. subst cmd_lines. split; reflexivity.
Qed.

Lemma blank_separator_required_witness :
  snd (Agent.parse_cmd_file (lit "#hybrid-mode" ++ [LF] ++ lit "echo hi" ++ [LF]))
  = Some (lit "no command payload found").
Proof.
  refine (proj1 (blank_separator_required
                   (lit "#hybrid-mode" ++ [LF] ++ lit "echo hi" ++ [LF])
                   (lit "#hybrid-mode") [lit "echo hi"] _ _ _));
    vm_compute; reflexivity.
Defined.

(** ** Truncated outputs *)





(* ================================================================== *)
(** * From the worker to the agent *)
(* ================================================================== *)

(** What the agent's parser makes of the text the worker writes. *)
Lemma cmd_file_text_parses (hybrid_secret : option str) (cmd : list str) :
  cmd <> [] ->
  forallb plain_arg cmd = true ->
  match hybrid_secret with
  | Some t => plain_token t = true
  | None => True
  end ->
  encodable (Worker.cmd_file_text hybrid_secret cmd) = true /\
  Agent.parse_cmd_file (read_text (Worker.cmd_file_text hybrid_secret cmd))
  = (written_token hybrid_secret, Some (shlex_join cmd), None).
Proof.
  intros Hne Hargs Htok.
  set (cs := shlex_join cmd).
  assert (Hlf : forallb lf_only cs = true).
  { apply forallb_shlex_join; try reflexivity.
    eapply forallb_weaken; [|exact Hargs]. intros a Ha.
    eapply forallb_weaken; [|exact Ha]. intros c Hc.
    apply andb_true_iff in Hc. tauto. }
  assert (Hsur : forallb (fun c => negb (is_surrogate c)) cs = true).
  { apply forallb_shlex_join; try reflexivity.
    eapply forallb_weaken; [|exact Hargs]. intros a Ha.
    eapply forallb_weaken; [|exact Ha]. intros c Hc.
    apply andb_true_iff in Hc. tauto. }
  assert (Hedges : hd_ok cs = true /\ last_ok cs = true).
  { unfold cs. destruct cmd as [|a rest]; [congruence|]. apply shlex_join_edges. }
  destruct Hedges as [Hhd Hlast].
  assert (Hstrip : strip cs = cs) by (apply strip_edges; assumption).
  assert (Htoklf : match hybrid_secret with
                   | Some t => forallb lf_only t = true
                   | None => True
                   end).
  { destruct hybrid_secret as [t|]; [|exact I].
    apply andb_true_iff in Htok. destruct Htok as [Htok _].
    eapply forallb_weaken; [|exact Htok]. intros c Hc.
    apply andb_true_iff in Hc. apply not_linebreak_lf_only. tauto. }
  assert (Htoksur : match hybrid_secret with
                    | Some t => forallb (fun c => negb (is_surrogate c)) t = true
                    | None => True
                    end).
  { destruct hybrid_secret as [t|]; [|exact I].
    apply andb_true_iff in Htok. destruct Htok as [Htok _].
    eapply forallb_weaken; [|exact Htok]. intros c Hc.
    apply andb_true_iff in Hc. tauto. }
  split.
  { unfold encodable.
    apply forallb_cmd_file_text; [reflexivity|exact Htoksur|exact Hsur]. }
  assert (Hread : read_text (Worker.cmd_file_text hybrid_secret cmd)
                  = Worker.cmd_file_text hybrid_secret cmd).
  { unfold read_text. apply universal_newlines_id.
    apply forallb_cmd_file_text; [reflexivity| |].
    - destruct hybrid_secret as [t|]; [|exact I].
      eapply forallb_weaken; [|exact Htoklf]. apply lf_only_not_cr.
    - eapply forallb_weaken; [|exact Hlf]. apply lf_only_not_cr. }
  rewrite Hread.
  assert (Hpayload : join [LF] (splitlines_from [] (cs ++ [LF])) = cs)
    by (apply (join_splitlines_lf [] cs Hlf)).
  assert (Hplain : Agent.parse_cmd_file
                     (lit "#hybrid-mode" ++ LF :: LF :: cs ++ [LF])
                   = (None, Some cs, None)).
  { replace (@None str, Some cs, @None str)
      with (@None str,
            Some (strip (join [LF] (splitlines_from [] (cs ++ [LF])))), @None str)
      by (rewrite Hpayload, Hstrip; reflexivity).
    apply (parse_cmd_file_plain _ (lit "#hybrid-mode")).
    - unfold splitlines.
      rewrite (splitlines_line (lit "#hybrid-mode") (LF :: cs ++ [LF]) [])
        by reflexivity.
      change (splitlines_from [] (LF :: cs ++ [LF]))
        with (splitlines_from [] ([] ++ LF :: cs ++ [LF])).
      rewrite (splitlines_line [] (cs ++ [LF]) []) by reflexivity. reflexivity.
    - reflexivity.
    - reflexivity.
    - rewrite Hpayload, Hstrip. now apply hd_ok_nonempty. }
  destruct hybrid_secret as [t|]; [|exact Hplain].
  destruct (truthy t) eqn:Et.
  - simpl written_token. rewrite Et.
    rewrite cmd_file_text_token by exact Et. fold cs.
    apply andb_true_iff in Htok. destruct Htok as [Hchars Hfix].
    apply str_eqb_eq in Hfix. apply strip_fixed in Hfix.
    destruct Hfix as [Hl Hr].
    destruct (token_line_parts t) as (Hline & Hsplit & Hkey).
    assert (Hval : strip (SPACE :: t) = t).
    { unfold strip, rstrip. change (lstrip (SPACE :: t)) with (lstrip t).
      rewrite Hl, Hr. apply rev_involutive. }
    replace (Some t, Some cs, @None str)
      with (Some (strip (SPACE :: t)),
            Some (strip (join [LF] (splitlines_from [] (cs ++ [LF])))), @None str)
      by (rewrite Hval, Hpayload, Hstrip; reflexivity).
    apply (parse_cmd_file_token _ (lit "#hybrid-mode") (lit "SECRET_TOKEN: " ++ t)
                                (lit "SECRET_TOKEN") (SPACE :: t)).
    + unfold splitlines.
      rewrite (splitlines_line (lit "#hybrid-mode")
                               ((lit "SECRET_TOKEN: " ++ t) ++ LF :: LF :: cs ++ [LF]) [])
        by reflexivity.
      rewrite (splitlines_line (lit "SECRET_TOKEN: " ++ t) (LF :: cs ++ [LF]) []).
      * change (splitlines_from [] (LF :: cs ++ [LF]))
          with (splitlines_from [] ([] ++ LF :: cs ++ [LF])).
        rewrite (splitlines_line [] (cs ++ [LF]) []) by reflexivity. reflexivity.
      * rewrite forallb_app. rewrite andb_true_iff. split; [reflexivity|].
        eapply forallb_weaken; [|exact Hchars]. intros c Hc.
        apply andb_true_iff in Hc. tauto.
    + reflexivity.
    + reflexivity.
    + apply hd_ok_not_blank. exact Hline.
    + exact Hsplit.
    + exact Hkey.
    + rewrite Hpayload, Hstrip. now apply hd_ok_nonempty.
  - simpl written_token. rewrite Et.
    unfold Worker.cmd_file_text. rewrite Et. exact Hplain.
Qed.

Lemma basename_from_no_slash (cur p : str) :
  no_slash p = true -> Agent.basename_from cur p = cur ++ p.
Proof.
  revert cur. induction p as [|c p IH]; intros cur H; simpl.
  - now rewrite app_nil_r.
  - simpl in H. apply andb_true_iff in H. destruct H as [Hc Hp].
    apply negb_true_iff in Hc. rewrite Hc, IH by exact Hp.
    now rewrite <- app_assoc.
Qed.

Lemma startswith_app (p s : str) : startswith p (p ++ s) = true.
Proof. induction p as [|c p IH]; simpl; [reflexivity|]. now rewrite N.eqb_refl. Qed.

Lemma job_id_of_cmd (jid : str) :
  no_slash jid = true -> Agent.job_id_of (jid ++ Agent.CMD_SUFFIX) = jid.
Proof.
  intros H. unfold Agent.job_id_of, Agent.basename.
  rewrite basename_from_no_slash.
  2:{ unfold no_slash in *. rewrite forallb_app, H. reflexivity. }
  cbn [app]. unfold Agent.endswith. rewrite rev_app_distr, startswith_app.
  rewrite length_app, Nat.add_sub. rewrite firstn_app, Nat.sub_diag, firstn_all.
  cbn [firstn]. apply app_nil_r.
Qed.

(** X20. The hand-off end to end.  The worker writes the command file
    of a job into the queue and an agent that is not in dry-run mode,
    and whose secret, if it has one, is the token written, processes
    that file.  For a job identifier without a path separator and a
    command and token within the round trip's domain, the agent runs
    exactly the job's command, once, and builds the result from the
    exit code and the outputs of that run and the current time; the
    result is published under the job's identifier when it can be
    written as UTF-8, and lost otherwise; the command file is gone from
    the queue. *)
Theorem hybrid_handoff
        (hybrid_secret secret : option str) (j : Worker.Job)
        (max_seconds max_output : Z)
        (run_job : list str -> Z -> Z -> Z * str * str) (now_iso : str)
        (q : Dir) (rs : list (str * Agent.AgentResult)) (ex : list (list str))
        (Hcommand : Worker.command j <> [])
        (Hargs : forallb plain_arg (Worker.command j) = true)
        (Htoken : match hybrid_secret with
                  | Some t => plain_token t = true
                  | None => True
                  end)
        (Hsecret : match secret with
                   | Some configured => written_token hybrid_secret = Some configured
                   | None => True
                   end)
        (Hid : no_slash (Worker.job_id j) = true) :
  exists name q',
    Worker._write_cmd_file hybrid_secret j q = Some (name, q') /\
    let w' := Agent.process_single secret false max_seconds max_output run_job
                                   now_iso name (Agent.mkWorld q' rs ex) in
    Agent.executed w' = ex ++ [Worker.command j] /\
    (exists r, Agent.results w'
               = (if Agent.result_writable r then (Worker.job_id j, r) :: rs else rs) /\
               (Agent.exitCode r, Agent.stdout r, Agent.stderr r)
               = run_job (Worker.command j) max_seconds max_output /\
               Agent.timestamp r = now_iso) /\
    dir_lookup name (Agent.queue w') = None.
Proof.
  destruct (cmd_file_text_parses hybrid_secret (Worker.command j) Hcommand Hargs Htoken)
    as [Henc Hparse].
  unfold Worker._write_cmd_file. rewrite Henc.
  eexists _, _. split; [reflexivity|]. cbv zeta.
  split; [|split]; [| |apply process_single_gone].
  - unfold Agent.process_single, Agent.claim_job. cbn [Agent.queue].
    rewrite dir_lookup_written, dir_lookup_written, Hparse.
    assert (Hs : match secret with
                 | Some configured =>
                     Agent.secret_rejected configured (written_token hybrid_secret)
                 | None => false
                 end = false).
    { destruct secret as [c|]; [|reflexivity]. rewrite Hsecret.
      unfold Agent.secret_rejected. rewrite str_eqb_refl.
      unfold written_token in Hsecret. destruct hybrid_secret as [t|]; [|discriminate].
      destruct (truthy t) eqn:Et; [|discriminate]. inversion Hsecret; subst.
      now rewrite Et. }
    rewrite Hs. cbn [Agent.str_of_opt].
    rewrite (build_command_quoted _ Hcommand).
    destruct (Worker.command j) as [|a rest]; [congruence|].
    destruct (run_job (a :: rest) max_seconds max_output) as [[code out] err].
    reflexivity.
  - unfold Agent.process_single, Agent.claim_job. cbn [Agent.queue].
    rewrite dir_lookup_written, dir_lookup_written, Hparse.
    assert (Hs : match secret with
                 | Some configured =>
                     Agent.secret_rejected configured (written_token hybrid_secret)
                 | None => false
                 end = false).
    { destruct secret as [c|]; [|reflexivity]. rewrite Hsecret.
      unfold Agent.secret_rejected. rewrite str_eqb_refl.
      unfold written_token in Hsecret. destruct hybrid_secret as [t|]; [|discriminate].
      destruct (truthy t) eqn:Et; [|discriminate]. inversion Hsecret; subst.
      now rewrite Et. }
    rewrite Hs. cbn [Agent.str_of_opt].
    rewrite (build_command_quoted _ Hcommand).
    change (lit ".cmd") with Agent.CMD_SUFFIX. rewrite (job_id_of_cmd _ Hid).
    destruct (Worker.command j) as [|a rest] eqn:Ec; [congruence|].
    destruct (run_job (a :: rest) max_seconds max_output) as [[code out] err] eqn:Er.
    eexists. split; [reflexivity|]. split; reflexivity.
Qed.

Lemma hybrid_handoff_witness :
  exists name q',
    Worker._write_cmd_file (Some (lit "abc"))
      (Worker.mkJob (lit "job-1") [lit "/bin/echo"; lit "it's"; lit "a b"] None) []
    = Some (name, q') /\
    Agent.executed
      (Agent.process_single (Some (lit "abc")) false 300 200000 echo_hi
         (lit "2024-05-01T10:00:00Z") name (Agent.mkWorld q' [] []))
    = [[lit "/bin/echo"; lit "it's"; lit "a b"]].
Proof.
  destruct (hybrid_handoff (Some (lit "abc")) (Some (lit "abc"))
              (Worker.mkJob (lit "job-1") [lit "/bin/echo"; lit "it's"; lit "a b"] None)
              300 200000 echo_hi (lit "2024-05-01T10:00:00Z") [] [] [])
    as (name & q' & Hw & He & _); try reflexivity; try discriminate.
  exists name, q'. split; [exact Hw|exact He].
Defined.

(* ================================================================== *)
(** * Further properties of the worker *)
(* ================================================================== *)

(** ** Log chunks *)

Section Chunks.

Context {A : Type}.

Variable n : nat.
Hypothesis n_pos : (0 < n)%nat.

Local Notation "'chunks_of' l" :=
  (map (fun i => firstn n (skipn i l)) (Py.range_step (length l) n))
  (at level 10, l at level 9, only parsing).

Lemma range_step_zero : Py.range_step 0 n = [].
Proof.
  unfold Py.range_step. replace ((0 + n - 1) / n)%nat with 0%nat; [reflexivity|].
  symmetry. apply Nat.div_small. lia.
Qed.

Lemma range_step_pos (len : nat) :
  (0 < len)%nat ->
  Py.range_step len n = 0%nat :: map (fun i => n + i)%nat (Py.range_step (len - n) n).
Proof.
  intros Hlen. unfold Py.range_step.
  assert (Hq : ((len + n - 1) / n = S ((len - n + n - 1) / n))%nat).
  { destruct (Nat.le_gt_cases n len) as [Hge|Hlt].
    - replace (len + n - 1)%nat with ((len - n + n - 1) + 1 * n)%nat by lia.
      rewrite Nat.div_add by lia. lia.
    - replace (len - n + n - 1)%nat with (n - 1)%nat by lia.
      rewrite (Nat.div_small (n - 1) n) by lia.
      symmetry. apply (Nat.div_unique (len + n - 1) n 1 (len - 1)); lia. }
  rewrite Hq. cbn [seq map]. f_equal.
  rewrite <- seq_shift, !map_map. apply map_ext. intros k. lia.
Qed.

Lemma chunks_nil : chunks_of (@nil A) = [].
Proof. cbn [length]. now rewrite range_step_zero. Qed.

Lemma chunks_cons (l : list A) :
  l <> [] -> chunks_of l = firstn n l :: chunks_of (skipn n l).
Proof.
  intros Hne. assert (Hlen : (0 < length l)%nat) by (destruct l; simpl; [congruence|lia]).
  rewrite (range_step_pos _ Hlen). cbn [map skipn]. f_equal.
  rewrite length_skipn, map_map. apply map_ext. intros k.
  now rewrite skipn_skipn, Nat.add_comm.
Qed.

Lemma chunks_spec (m : nat) (l : list A) :
  (length l <= m)%nat ->
  concat (chunks_of l) = l /\
  Forall (fun c => c <> [] /\ (length c <= n)%nat) (chunks_of l) /\
  Forall (fun c => length c = n) (removelast (chunks_of l)).
Proof.
  revert l. induction m as [|m IH]; intros l Hl.
  - destruct l; [|simpl in Hl; lia]. rewrite chunks_nil. simpl. auto.
  - destruct l as [|x l]; [rewrite chunks_nil; simpl; auto|].
    rewrite chunks_cons by discriminate.
    assert (Hs : (length (skipn n (x :: l)) <= m)%nat)
      by (rewrite length_skipn; cbn [length] in *; lia).
    destruct (IH _ Hs) as (Hc & Hf & Hr).
    split; [|split].
    + cbn [concat]. rewrite Hc. apply firstn_skipn.
    + constructor; [|exact Hf]. split.
      * destruct n; [lia|]. discriminate.
      * rewrite length_firstn. lia.
    + destruct (skipn n (x :: l)) as [|y rest] eqn:Ek.
      * rewrite chunks_nil. constructor.
      * rewrite <- Ek in *. rewrite chunks_cons in * by (rewrite Ek; discriminate).
        cbn [removelast]. constructor; [|exact Hr].
        rewrite length_firstn.
        assert (Hlen : (0 < length (skipn n (x :: l)))%nat) by (rewrite Ek; simpl; lia).
        rewrite length_skipn in Hlen. lia.
Qed.

End Chunks.

(** X21. For a positive chunk size, [_chunk_lines] cuts the lines into
    consecutive chunks that put together give the lines back, in order
    and with nothing lost or repeated; no chunk is empty or longer than
    the size, and all but the last have exactly that size. *)
Theorem chunk_lines_partition
        {A : Type} (lines : list A) (chunk_size : Z)
        (Hsize : (0 < chunk_size)%Z) :
  exists chunks,
    Worker._chunk_lines lines chunk_size = Some chunks /\
    concat chunks = lines /\
    Forall (fun c => c <> [] /\ (Z.of_nat (length c) <= chunk_size)%Z) chunks /\
    Forall (fun c => Z.of_nat (length c) = chunk_size) (removelast chunks).
Proof.
  unfold Worker._chunk_lines.
  destruct (chunk_size =? 0)%Z eqn:E0; [apply Z.eqb_eq in E0; lia|].
  destruct (chunk_size <? 0)%Z eqn:E1; [apply Z.ltb_lt in E1; lia|].
  eexists. split; [reflexivity|].
  assert (Hn : (0 < Z.to_nat chunk_size)%nat) by lia.
  destruct (chunks_spec (Z.to_nat chunk_size) Hn (length lines) lines (le_n _))
    as (Hc & Hf & Hr).
  split; [exact Hc|]. split.
  - eapply Forall_impl; [|exact Hf]. cbv beta. intros c [H1 H2]. split; [exact H1|lia].
  - eapply Forall_impl; [|exact Hr]. cbv beta. intros c H. lia.
Qed.

Lemma chunk_lines_partition_witness :
  exists chunks,
    Worker._chunk_lines [1; 2; 3; 4; 5]%nat 2 = Some chunks /\
    concat chunks = [1; 2; 3; 4; 5]%nat.
Proof.
  assert (Hsize : (0 < 2)%Z) by lia.
  destruct (chunk_lines_partition [1; 2; 3; 4; 5]%nat 2 Hsize) as (chunks & H1 & H2 & _).
  exists chunks. split; [exact H1|exact H2].
Defined.

(** ** The wait for a result *)

(** The loop returns what the first poll that is not quiet decides. *)
Lemma poll_loop_first_decisive (exception_text : str -> str)
      (env : nat -> Worker.Observation) (deadline : Worker.Time) (k : nat) :
  forall turn fuel,
    (forall i, (i < k)%nat -> quiet deadline (env (turn + i)%nat) = true) ->
    (k < fuel)%nat ->
    Worker.poll_loop exception_text fuel env deadline turn
    = Worker.poll_loop exception_text (fuel - k) env deadline (turn + k).
Proof.
  induction k as [|k IH]; intros turn fuel Hq Hf.
  - now rewrite Nat.sub_0_r, Nat.add_0_r.
  - destruct fuel as [|f]; [lia|]. cbn [Worker.poll_loop].
    pose proof (Hq 0%nat ltac:(lia)) as H0. rewrite Nat.add_0_r in H0.
    unfold quiet in H0. apply andb_true_iff in H0. destruct H0 as [H0 Hfile].
    apply andb_true_iff in H0. destruct H0 as [Hstop Hlt].
    apply negb_true_iff in Hstop. rewrite Hstop, Hlt. cbn [negb].
    destruct (Worker.result_file (env turn)); [discriminate|].
    rewrite IH; [|intros i Hi; replace (S turn + i)%nat with (turn + S i)%nat by lia;
                  apply Hq; lia|lia].
    now replace (S turn + k)%nat with (turn + S k)%nat by lia.
Qed.

Lemma poll_for_result_decides
        (exception_text : str -> str) (j : Worker.Job) (started : Worker.Time)
        (env : nat -> Worker.Observation) (k fuel : nat)
        (Hquiet : forall i, (i < k)%nat ->
                            quiet (Worker.deadline_of j started) (env i) = true)
        (Hfuel : (k < fuel)%nat) :
  (Worker.stop_set (env k) = true \/
   Worker.time_lt (Worker.clock (env k)) (Worker.deadline_of j started) = false ->
   Worker._poll_for_result exception_text fuel j started env = Some None) /\
  (forall raw,
      Worker.stop_set (env k) = false ->
      Worker.time_lt (Worker.clock (env k)) (Worker.deadline_of j started) = true ->
      Worker.result_file (env k) = Some raw ->
      Worker._poll_for_result exception_text fuel j started env
      = Some (Worker.read_result exception_text raw)).
Proof.
  unfold Worker._poll_for_result.
  rewrite (poll_loop_first_decisive exception_text env _ k 0 fuel Hquiet Hfuel).
  destruct (fuel - k)%nat as [|f] eqn:Ef; [lia|]. cbn [Worker.poll_loop plus].
  split.
  - intros [Hs|Ht].
    + now rewrite Hs.
    + rewrite Ht. destruct (Worker.stop_set (env k)); reflexivity.
  - intros raw Hs Ht Hr. now rewrite Hs, Ht, Hr.
Qed.

(** X22. [_poll_for_result] returns what the first poll that is not
    quiet decides, and it decides in this order: a stop request or a
    reached deadline ends the wait without a result, even when the
    result file is there at that poll; otherwise the file is read, and
    the answer is its decoded document, or an error dictionary when
    decoding fails, or nothing when the document is [null]. *)
Theorem poll_for_result_first_decisive
        (exception_text : str -> str) (j : Worker.Job) (started : Worker.Time)
        (env : nat -> Worker.Observation) (k fuel : nat)
        (Hquiet : forall i, (i < k)%nat ->
                            quiet (Worker.deadline_of j started) (env i) = true)
        (Hfuel : (k < fuel)%nat) :
  (Worker.stop_set (env k) = true \/
   Worker.time_lt (Worker.clock (env k)) (Worker.deadline_of j started) = false ->
   Worker._poll_for_result exception_text fuel j started env = Some None) /\
  (forall raw,
      Worker.stop_set (env k) = false ->
      Worker.time_lt (Worker.clock (env k)) (Worker.deadline_of j started) = true ->
      Worker.result_file (env k) = Some raw ->
      Worker._poll_for_result exception_text fuel j started env
      = Some (Worker.read_result exception_text raw)).
Proof.
  exact (poll_for_result_decides exception_text j started env k fuel Hquiet Hfuel).
Qed.

Lemma poll_for_result_first_decisive_witness :
  Worker._poll_for_result (fun _ => []) 5
    (Worker.mkJob (lit "job-1") [lit "sleep"; lit "60"] (Some 1%Z))
    (QArith_base.inject_Z 0)
    (fun turn => Worker.mkObservation (Nat.leb 2 turn)
                   (QArith_base.inject_Z (Z.of_nat turn))
                   (if Nat.leb 2 turn then Some (lit "{}") else None))
  = Some None.
Proof.
  refine (proj1 (poll_for_result_first_decisive (fun _ => []) _ _ _ 2 5 _ _) _).
  - intros [|[|i]] Hi; [reflexivity|reflexivity|lia].
  - lia.
  - left. reflexivity.
Defined.

(** X23. In hybrid mode, once the command file is written, the run ends
    as the first poll that is not quiet decides.  A stop request is
    reported like a reached deadline, as a failed completion with exit
    code 124, and so is a result file that holds [null]; any other
    result read is handed on.  The worker makes log calls before that
    and nothing else, and it leaves the queue as the write left it. *)
Theorem hybrid_run_outcome
        (queue_path results_path : str) (hybrid_secret : option str)
        (exception_text : str -> str)
        (j : Worker.Job) (started : Worker.Time)
        (env : nat -> Worker.Observation) (queue queue' : Dir) (name : str)
        (k fuel : nat)
        (Hcommand : Worker.command j <> [])
        (Hwritten : Worker._write_cmd_file hybrid_secret j queue = Some (name, queue'))
        (Hquiet : forall i, (i < k)%nat ->
                            quiet (Worker.deadline_of j started) (env i) = true)
        (Hdecisive : quiet (Worker.deadline_of j started) (env k) = false)
        (Hfuel : (k < fuel)%nat) :
  exists logs final,
    Worker.run_command_and_stream (Some queue_path) (Some results_path)
                                  hybrid_secret exception_text fuel j started env queue
    = Some (map (Worker.Append (Worker.job_id j)) logs ++ [final], queue') /\
    final =
    if Worker.stop_set (env k)
       || negb (Worker.time_lt (Worker.clock (env k)) (Worker.deadline_of j started))
    then timed_out j
    else match Worker.result_file (env k) with
         | Some raw =>
             match Worker.read_result exception_text raw with
             | Some data => Worker.ReportResult (Worker.job_id j) data
             | None => timed_out j
             end
         | None => timed_out j
         end.
Proof.
  destruct (poll_for_result_decides exception_text j started env k fuel
              Hquiet Hfuel) as [Hend Hread].
  unfold Worker.run_command_and_stream.
  destruct (Worker.command j) as [|a rest] eqn:Ec; [congruence|].
  rewrite Hwritten.
  destruct (Worker.stop_set (env k)) eqn:Es.
  - rewrite (Hend (or_introl eq_refl)). cbn [orb].
    eexists [_; _; _; _], _. split; reflexivity.
  - destruct (Worker.time_lt (Worker.clock (env k)) (Worker.deadline_of j started))
      eqn:Et.
    + cbn [orb negb]. unfold quiet in Hdecisive. rewrite Es, Et in Hdecisive.
      destruct (Worker.result_file (env k)) as [raw|] eqn:Er; [|discriminate].
      rewrite (Hread raw eq_refl eq_refl eq_refl).
      destruct (Worker.read_result exception_text raw) as [data|].
      * eexists [_; _; _], _. split; reflexivity.
      * eexists [_; _; _; _], _. split; reflexivity.
    + rewrite (Hend (or_intror eq_refl)). cbn [orb negb].
      eexists [_; _; _; _], _. split; reflexivity.
Qed.

Lemma hybrid_run_outcome_witness :
  exists logs,
    Worker.run_command_and_stream
      (Some (lit "hybrid-queue")) (Some (lit "hybrid-results")) None (fun _ => [])
      5 (Worker.mkJob (lit "job-1") [lit "sleep"; lit "60"] (Some 1%Z))
      (QArith_base.inject_Z 0)
      (fun turn => Worker.mkObservation false
                     (QArith_base.inject_Z (Z.of_nat turn))
                     (if Nat.leb 1 turn then Some (lit "null") else None))
      []
    = Some (map (Worker.Append (lit "job-1")) logs
            ++ [Worker.Complete (lit "job-1") 124 false
                  (lit "[hybrid] timed out waiting for result")],
            [(lit "job-1.cmd", Worker.cmd_file_text None [lit "sleep"; lit "60"])]).
Proof.
  destruct (hybrid_run_outcome
              (lit "hybrid-queue") (lit "hybrid-results") None (fun _ => [])
              (Worker.mkJob (lit "job-1") [lit "sleep"; lit "60"] (Some 1%Z))
              (QArith_base.inject_Z 0)
              (fun turn => Worker.mkObservation false
                             (QArith_base.inject_Z (Z.of_nat turn))
                             (if Nat.leb 1 turn then Some (lit "null") else None))
              [] [(lit "job-1.cmd", Worker.cmd_file_text None [lit "sleep"; lit "60"])]
              (lit "job-1.cmd") 1 5)
    as (logs & final & Hrun & Hfinal).
  - discriminate.
  - reflexivity.
  - intros [|i] Hi; [reflexivity|lia].
  - reflexivity.
  - lia.
  - exists logs. rewrite Hrun, Hfinal. reflexivity.
Defined.

(* ================================================================== *)
(** * Logs and completion, composed *)
(* ================================================================== *)

Lemma last_n_app {A : Type} (a b : list A) : last_n (length b) (a ++ b) = b.
Proof.
  unfold last_n. rewrite length_app, Nat.add_sub.
  rewrite skipn_app, Nat.sub_diag, skipn_all. reflexivity.
Qed.

(** X24. Lines a worker appends are read back as written: after an
    accepted append of a non-empty batch, the tail read of as many
    entries as the batch has lines gives exactly those lines, in order,
    each prefixed with the time of the call and the worker's
    identifier; the full read gives the former log followed by them. *)
Theorem appended_lines_read_back
        (cfg hdr : option string) (jid : string) (req : AppendLogRequest)
        (now : Clock) (s : Store) (j : Job)
        (Hsecret : _validate_worker_secret cfg hdr = true)
        (Hjob : lookup jid s = Some j)
        (Hworker : worker_mismatch j (append_worker_id req) = false)
        (Hlines : append_lines req <> []) :
  let s' := snd (append_job_logs cfg jid req hdr now s) in
  let stamped :=
    map (fun line => ("[" ++ now 0%nat ++ "] " ++ append_worker_id req
                      ++ ": " ++ line)%string)
        (append_lines req) in
  fst (get_job_logs jid (Z.of_nat (length (append_lines req))) s') = inr stamped /\
  fst (get_job_logs jid 0 s') = inr (logs j ++ stamped).
Proof.
  cbv zeta. unfold append_job_logs. rewrite Hsecret. cbn [negb].
  unfold _get_job. rewrite Hjob, Hworker. cbn [snd]. unfold _save_job.
  set (stamped := map _ (append_lines req)).
  set (j' := set_logs (logs j ++ stamped) j).
  assert (Hl : lookup jid (put jid j' s) = Some j') by apply lookup_put_same.
  assert (Hlen : length stamped = length (append_lines req))
    by (unfold stamped; apply length_map).
  split.
  - rewrite (get_job_logs_positive jid _ _ j' Hl).
    + cbn [fst]. f_equal. rewrite Nat2Z.id, <- Hlen.
      change (logs j') with (logs j ++ stamped). apply last_n_app.
    + destruct (append_lines req); [congruence|simpl; lia].
  - now rewrite (get_job_logs_zero jid _ j' Hl).
Qed.

Lemma appended_lines_read_back_witness :
  fst (get_job_logs "job-1" 3 store_with_logs)
  = inr ["[" ++ t2 ++ "] w1: compiling"; "[" ++ t2 ++ "] w1: linking";
         "[" ++ t2 ++ "] w1: done"]%string.
Proof.
  assert (H : exists j, lookup "job-1" (store_claimed_by "w1") = Some j /\
                        worker_mismatch j "w1" = false)
    by (eexists; split; vm_compute; reflexivity).
  destruct H as (j & Hj & Hw).
  refine (proj1 (appended_lines_read_back None None "job-1"
                   (mkAppendLogRequest "w1" ["compiling"; "linking"; "done"])
                   (clock_at t2) (store_claimed_by "w1") j eq_refl Hj Hw _)).
  discriminate.
Defined.

Section Unclaimed.

Variable cfg : option string.
Variable ref_says_fail : string -> bool.

(** X25. Completion does not ask for a claim: in a reachable store a
    job that is still PENDING has no worker, so a completion request
    with a valid secret is accepted from any worker identifier; the job
    becomes SUCCESS or FAILED with the reported exit code, stays without
    a worker, and no later claim hands it out. *)
Theorem pending_job_completed_by_anyone
        (hdr : option string) (jid : string) (req : CompleteRequest)
        (now : Clock) (s : Store) (runs : list (string * SimState))
        (j : Job) (sched : list Caller)
        (Hreach : sys_reachable cfg ref_says_fail (s, runs))
        (Hsecret : _validate_worker_secret cfg hdr = true)
        (Hjob : lookup jid s = Some j)
        (Hpending : state j = PENDING) :
  let s' := snd (complete_job cfg jid req hdr now s) in
  exists j',
    lookup jid s' = Some j' /\
    fst (complete_job cfg jid req hdr now s) = inr (jid, state j') /\
    state j' = (if complete_success req then SUCCESS else FAILED) /\
    (exists r, result j' = Some r /\ exit_code r = complete_exit_code req) /\
    worker_id j' = None /\
    ~ In jid (delivered (fst (run_claims sched s'))).
Proof.
  cbv zeta. destruct (sys_reachable_wf cfg ref_says_fail (s, runs) Hreach) as [Hnd Hwf].
  destruct (Hwf jid j Hjob) as [_ Hp]. destruct (Hp Hpending) as (Hw & _).
  assert (Hm : worker_mismatch j (complete_worker_id req) = false)
    by (unfold worker_mismatch; now rewrite Hw).
  unfold complete_job. rewrite Hsecret. cbn [negb].
  unfold _get_job. rewrite Hjob, Hm. cbn [fst snd]. unfold _save_job.
  set (j' := log_append _ _).
  assert (Hs' : state j' = (if complete_success req then SUCCESS else FAILED))
    by reflexivity.
  assert (Hnd' : NoDup (map fst (put jid j' s)))
    by (rewrite put_keys; [exact Hnd|eapply lookup_some_key; eauto]).
  exists j'. split; [apply lookup_put_same|].
  split; [reflexivity|]. split; [exact Hs'|].
  split; [eexists; split; reflexivity|]. split; [exact Hw|].
  intros Hin.
  apply (proj2 (run_claims_delivered sched _ Hnd')) in Hin.
  apply pending_ids_lookup in Hin; [|exact Hnd'].
  destruct Hin as (j0 & Hl0 & Hs0). rewrite lookup_put_same in Hl0.
  inversion Hl0; subst j0. rewrite Hs' in Hs0.
  destruct (complete_success req); discriminate.
Qed.

End Unclaimed.

Lemma pending_job_completed_by_anyone_witness :
  exists j',
    lookup "job-1"
           (snd (complete_job None "job-1" (mkCompleteRequest "nobody" 3 false None None)
                              None (clock_at t3) store_enqueued))
    = Some j' /\ state j' = FAILED /\ worker_id j' = None.
Proof.
  assert (Hreach : sys_reachable None (fun _ => false)
                                 (store_enqueued, [("job-1", SimNew)])).
  { refine (sys_steps_step None _ _ _ _
              (sys_enqueue None _ sample_request "job-1" (clock_at t0) [] [] eq_refl) _).
    apply sys_steps_refl. }
  assert (H : exists j, lookup "job-1" store_enqueued = Some j /\ state j = PENDING)
    by (eexists; split; vm_compute; reflexivity).
  destruct H as (j & Hj & Hs).
  destruct (pending_job_completed_by_anyone None (fun _ => false) None "job-1"
              (mkCompleteRequest "nobody" 3 false None None) (clock_at t3)
              store_enqueued [("job-1", SimNew)] j [] Hreach eq_refl Hj Hs)
    as (j' & Hl & _ & Hst & _ & Hw & _).
  exists j'. auto.
Defined.
